(** * fgcmBuildStars: observation compilation and indexed catalog assembly

    A shallow embedding of [FgcmBuildStarsTask] as found in
    [python/lsst/fgcmcal/fgcmBuildStars.py] (module [Fgcmcal] below) and of
    its older sibling [python/lsst/fgcm/fgcmBuildStars.py] (module [Fgcm]).

    - The Butler (data store) is an explicit state; every task method is a
      computation in a state-and-exception monad over it.  A raised exception
      keeps the store as it was when the exception was raised, as in Python.
      [butler.put] always succeeds; the camera and the source schema are
      always there.
    - The source selector and the star matcher come from other packages and
      are parameters of the task.
    - The command-line runner is embedded with the two switches it reads;
      [task.writeMetadata] of [pipeBase] is a parameter of it.
    - NumPy's binary64 values are extended reals: a finite real, the two
      infinities, or NaN.  Rounding (also on a store into a 32-bit float
      column), overflow of finite results and the sign of zero are not
      modelled.
    - Integers are [Z]; a store into an [np.int32] column wraps. *)

From Stdlib Require Import List ZArith Reals Lra Lia Bool String Ascii.
From Stdlib Require Import Sorting.Sorted Sorting.Permutation.
Import ListNotations.

Set Implicit Arguments.

(* ------------------------------------------------------------------ *)
(** ** NumPy floating point values *)

Inductive float : Type :=
| Finite (r : R)
| PosInf
| NegInf
| NaN.

Module NumPy.

(** Sign of a real, as a three-way comparison with zero. *)
Definition Rsign (r : R) : comparison :=
  if Rlt_dec 0 r then Gt else if Rlt_dec r 0 then Lt else Eq.

(** The infinity carrying a given sign; a zero sign stands for 0*inf or 0/0. *)
Definition inf_of (c : comparison) : float :=
  match c with
  | Gt => PosInf
  | Lt => NegInf
  | Eq => NaN
  end.

Definition sign_of (x : float) : comparison :=
  match x with
  | Finite r => Rsign r
  | PosInf => Gt
  | NegInf => Lt
  | NaN => Eq
  end.

Definition sign_mul (a b : comparison) : comparison :=
  match a, b with
  | Eq, _ | _, Eq => Eq
  | Gt, c => c
  | Lt, c => CompOpp c
  end.

Definition neg (x : float) : float :=
  match x with
  | Finite r => Finite (- r)
  | PosInf => NegInf
  | NegInf => PosInf
  | NaN => NaN
  end.

Definition add (x y : float) : float :=
  match x, y with
  | NaN, _ | _, NaN => NaN
  | Finite a, Finite b => Finite (a + b)
  | PosInf, NegInf | NegInf, PosInf => NaN
  | PosInf, _ | _, PosInf => PosInf
  | NegInf, _ | _, NegInf => NegInf
  end.

Definition sub (x y : float) : float := add x (neg y).

Definition mul (x y : float) : float :=
  match x, y with
  | NaN, _ | _, NaN => NaN
  | Finite a, Finite b => Finite (a * b)
  | _, _ => inf_of (sign_mul (sign_of x) (sign_of y))
  end.

(** Division.  A zero divisor is taken as [+0]. *)
Definition div (x y : float) : float :=
  match x, y with
  | NaN, _ | _, NaN => NaN
  | Finite a, Finite b =>
      if Req_dec_T b 0 then inf_of (Rsign a) else Finite (a / b)
  | Finite _, _ => Finite 0
  | _, Finite b => if Rlt_dec b 0 then neg x else x
  | _, _ => NaN
  end.

(** [np.log]: minus infinity at zero, NaN below. *)
Definition log (x : float) : float :=
  match x with
  | Finite r =>
      if Rlt_dec 0 r then Finite (ln r)
      else if Rlt_dec r 0 then NaN else NegInf
  | PosInf => PosInf
  | NegInf | NaN => NaN
  end.

(** [np.log10]. *)
Definition log10 (x : float) : float :=
  match x with
  | Finite r =>
      if Rlt_dec 0 r then Finite (ln r / ln 10)
      else if Rlt_dec r 0 then NaN else NegInf
  | PosInf => PosInf
  | NegInf | NaN => NaN
  end.

(** [x < y]; every comparison with NaN is false. *)
Definition lt (x y : float) : bool :=
  match x, y with
  | NaN, _ | _, NaN => false
  | Finite a, Finite b => if Rlt_dec a b then true else false
  | NegInf, NegInf => false
  | NegInf, _ => true
  | _, PosInf => match x with PosInf => false | _ => true end
  | _, _ => false
  end.

Definition gt (x y : float) : bool := lt y x.

Definition isfinite (x : float) : bool :=
  match x with
  | Finite _ => true
  | _ => false
  end.

(** Largest finite binary64 value. *)
Definition DBL_MAX : R := (2 - / 2 ^ 52) * 2 ^ 1023.

(** [np.nan_to_num]: NaN becomes zero, an infinity the largest finite value
    of its sign. *)
Definition nan_to_num (x : float) : float :=
  match x with
  | Finite r => Finite r
  | PosInf => Finite DBL_MAX
  | NegInf => Finite (- DBL_MAX)
  | NaN => Finite 0
  end.

(** [np.rad2deg]. *)
Definition rad2deg (x : float) : float := mul x (Finite (180 / PI)).

(** A store into an [np.int32] column. *)
Definition int32 (z : Z) : Z := ((z + 2 ^ 31) mod 2 ^ 32 - 2 ^ 31)%Z.

Definition in_int32 (z : Z) : Prop := (- 2 ^ 31 <= z < 2 ^ 31)%Z.

(** [a.astype('a2')]: a NumPy byte string of width two keeps the first two
    characters. *)
Definition a2 (s : string) : string := substring 0 2 s.

(** Left insertion point by bisection, the loop of [np.searchsorted] with
    [side='left']; [fuel] bounds the number of halvings. *)
Fixpoint bisect_left (fuel : nat) (a : list Z) (key : Z) (lo hi : nat) : nat :=
  match fuel with
  | O => lo
  | S fuel' =>
      if (lo <? hi)%nat then
        let mid := (lo + (hi - lo) / 2)%nat in
        if (nth mid a 0%Z <? key)%Z
        then bisect_left fuel' a key (S mid) hi
        else bisect_left fuel' a key lo mid
      else lo
  end.

Definition searchsorted1 (a : list Z) (key : Z) : nat :=
  bisect_left (List.length a) a key 0 (List.length a).

Definition searchsorted (a : list Z) (v : list Z) : list nat :=
  map (searchsorted1 a) v.

End NumPy.

Module np := NumPy.

Declare Scope np_scope.
Delimit Scope np_scope with np.
Infix "+" := NumPy.add : np_scope.
Infix "-" := NumPy.sub : np_scope.
Infix "*" := NumPy.mul : np_scope.
Infix "/" := NumPy.div : np_scope.
Infix "<" := NumPy.lt : np_scope.
Infix ">" := NumPy.gt : np_scope.

(* ------------------------------------------------------------------ *)
(** ** Catalog records *)

(** What a raw or calexp exposure tells about its visit: the filter name and
    the [VisitInfo] values the visit catalog keeps (angles in degrees, the
    date as MJD, the air pressure in Pa). *)
Record Exposure : Type := {
  filterName : string;
  boresightRa : float;
  boresightDec : float;
  boresightHourAngle : float;
  dateMJD : float;
  exposureTime : float;
  airPressure : float
}.

(** A row of [fgcmVisitCatalog]. *)
Module Visit.
Record t : Type := {
  visit : Z;
  filtername : string;
  telra : float;
  teldec : float;
  telha : float;
  mjd : float;
  exptime : float;
  pmb : float;
  fwhm : float;
  deepflag : Z
}.
End Visit.

(** A row of a [src] catalog, with the fields either variant reads. *)
Module Src.
Record t : Type := {
  coord_ra : float;
  coord_dec : float;
  slot_Centroid_x : float;
  slot_Centroid_y : float;
  apFlux : float;
  apFluxErr : float;
  jacobian : float;
  flag_pixel_saturated_center : bool;
  flag_pixel_interpolated_center : bool;
  flag_pixel_edge : bool;
  flag_pixel_cr_center : bool;
  flag_pixel_bad : bool;
  flag_pixel_interpolated_any : bool;
  slot_Centroid_flag : bool;
  slot_ApFlux_flag : bool;
  deblend_nchild : Z;
  parent : Z;
  classification_extendedness : float
}.
End Src.

(** A row of [fgcmStarObservations]. *)
Module Obs.
Record t : Type := {
  ra : float;
  dec : float;
  x : float;
  y : float;
  visit : Z;
  ccd : Z;
  mag : float;
  magerr : float
}.
End Obs.

(** A row of [fgcmStarIds], and of the matcher's [objIndexCat]. *)
Module Star.
Record t : Type := {
  fgcm_id : Z;
  ra : float;
  dec : float;
  obsarrindex : Z;
  nobs : Z
}.
End Star.

(** A data reference from the command line, reduced to its data id. *)
Record DataRef : Type := {
  dataId_visit : Z;
  dataId_ccd : Z
}.

(** The configuration fields that steer the control flow and the magnitudes.
    The matching options are handed to the matcher unchanged. *)
Record Config : Type := {
  remake : bool;
  zeropointDefault : float;
  referenceCCD : Z;
  checkAllCcds : bool;
  applyJacobian : bool
}.

(* ------------------------------------------------------------------ *)
(** ** The Butler *)

Inductive Dataset : Type :=
| fgcmVisitCatalog
| fgcmStarObservations
| fgcmStarIds
| fgcmStarIndices.

(** The repository as the task sees it.  The first five fields are inputs
    and never written; the next four are the artifacts of the task;
    [putLog] records every [butler.put], oldest first. *)
Record Butler : Type := {
  camera : list Z;
  srcMetadata : option Z -> list (Z * string);
  src : Z -> Z -> option (list Src.t);
  raw : Z -> Z -> option Exposure;
  calexp : Z -> Z -> option Exposure;
  visitCatalog : option (list Visit.t);
  starObservations : option (list Obs.t);
  starIds : option (list Star.t);
  starIndices : option (list Z);
  putLog : list Dataset
}.

Inductive Exn : Type :=
| NoResults
| RuntimeError
| TypeError
| LengthError
| IndexError
| UnboundLocalError
| MatcherError.

Definition Exn_eqb (a b : Exn) : bool :=
  match a, b with
  | NoResults, NoResults | RuntimeError, RuntimeError | TypeError, TypeError
  | LengthError, LengthError | IndexError, IndexError
  | UnboundLocalError, UnboundLocalError | MatcherError, MatcherError => true
  | _, _ => false
  end.

Inductive Result (A : Type) : Type :=
| Ok (a : A)
| Raise (e : Exn).

Arguments Ok {A} a.
Arguments Raise {A} e.

(** A task method: from the store before to the store after and either a
    value or the exception that ended it. *)
Definition Task (A : Type) : Type := Butler -> Butler * Result A.

Definition ret {A} (a : A) : Task A := fun b => (b, Ok a).

Definition raise {A} (e : Exn) : Task A := fun b => (b, Raise e).

Definition bind {A B} (m : Task A) (k : A -> Task B) : Task B :=
  fun b =>
    match m b with
    | (b', Ok a) => k a b'
    | (b', Raise e) => (b', Raise e)
    end.

Declare Scope task_scope.
Delimit Scope task_scope with task.
Bind Scope task_scope with Task.

Notation "x <- m ;; k" := (bind m (fun x => k))
  (at level 61, m at next level, right associativity) : task_scope.
Notation "' p <- m ;; k" := (bind m (fun x => let p := x in k))
  (at level 61, p pattern, m at next level, right associativity) : task_scope.
Notation "m ;; k" := (bind m (fun _ => k))
  (at level 61, right associativity) : task_scope.

Open Scope task_scope.

(** [try: m except exn: h]. *)
Definition try_except {A} (m : Task A) (exn : Exn) (h : Task A) : Task A :=
  fun b =>
    match m b with
    | (b', Raise e) => if Exn_eqb e exn then h b' else (b', Raise e)
    | r => r
    end.

Definition lift {A} (r : Result A) : Task A := fun b => (b, r).

(** [for x in xs: s = body x s]. *)
Fixpoint for_in {A S} (xs : list A) (body : A -> S -> Task S) (s : S) : Task S :=
  match xs with
  | [] => ret s
  | x :: xs' => s' <- body x s ;; for_in xs' body s'
  end.

Definition is_some {A} (o : option A) : bool :=
  match o with
  | Some _ => true
  | None => false
  end.

Definition of_option {A} (o : option A) (e : Exn) : Task A :=
  match o with
  | Some a => ret a
  | None => raise e
  end.

(** *** Reads *)

Definition butler_get_camera : Task (list Z) := fun b => (b, Ok (camera b)).

Definition butler_queryMetadata_src (ccd : option Z) : Task (list (Z * string)) :=
  fun b => (b, Ok (srcMetadata b ccd)).

Definition butler_datasetExists_src (visit ccd : Z) : Task bool :=
  fun b => (b, Ok (is_some (src b visit ccd))).

Definition butler_get_src (visit ccd : Z) : Task (list Src.t) :=
  fun b => of_option (src b visit ccd) NoResults b.

Definition butler_get_raw (visit ccd : Z) : Task Exposure :=
  fun b => of_option (raw b visit ccd) NoResults b.

Definition butler_get_calexp (visit ccd : Z) : Task Exposure :=
  fun b => of_option (calexp b visit ccd) NoResults b.

Definition butler_datasetExists (d : Dataset) : Task bool :=
  fun b =>
    (b, Ok match d with
           | fgcmVisitCatalog => is_some (visitCatalog b)
           | fgcmStarObservations => is_some (starObservations b)
           | fgcmStarIds => is_some (starIds b)
           | fgcmStarIndices => is_some (starIndices b)
           end).

Definition butler_get_fgcmVisitCatalog : Task (list Visit.t) :=
  fun b => of_option (visitCatalog b) NoResults b.

Definition butler_get_fgcmStarObservations : Task (list Obs.t) :=
  fun b => of_option (starObservations b) NoResults b.

(** *** Writes *)

Definition butler_put_fgcmVisitCatalog (c : list Visit.t) : Task unit :=
  fun b =>
    ({| camera := camera b; srcMetadata := srcMetadata b; src := src b;
        raw := raw b; calexp := calexp b;
        visitCatalog := Some c;
        starObservations := starObservations b;
        starIds := starIds b;
        starIndices := starIndices b;
        putLog := putLog b ++ [fgcmVisitCatalog] |}, Ok tt).

Definition butler_put_fgcmStarObservations (c : list Obs.t) : Task unit :=
  fun b =>
    ({| camera := camera b; srcMetadata := srcMetadata b; src := src b;
        raw := raw b; calexp := calexp b;
        visitCatalog := visitCatalog b;
        starObservations := Some c;
        starIds := starIds b;
        starIndices := starIndices b;
        putLog := putLog b ++ [fgcmStarObservations] |}, Ok tt).

Definition butler_put_fgcmStarIds (c : list Star.t) : Task unit :=
  fun b =>
    ({| camera := camera b; srcMetadata := srcMetadata b; src := src b;
        raw := raw b; calexp := calexp b;
        visitCatalog := visitCatalog b;
        starObservations := starObservations b;
        starIds := Some c;
        starIndices := starIndices b;
        putLog := putLog b ++ [fgcmStarIds] |}, Ok tt).

Definition butler_put_fgcmStarIndices (c : list Z) : Task unit :=
  fun b =>
    ({| camera := camera b; srcMetadata := srcMetadata b; src := src b;
        raw := raw b; calexp := calexp b;
        visitCatalog := visitCatalog b;
        starObservations := starObservations b;
        starIds := starIds b;
        starIndices := Some c;
        putLog := putLog b ++ [fgcmStarIndices] |}, Ok tt).

(* ------------------------------------------------------------------ *)
(** ** Python lists *)

(** [list.sort()] on integers. *)
Fixpoint insert_sorted (v : Z) (l : list Z) : list Z :=
  match l with
  | [] => [v]
  | h :: t => if (v <=? h)%Z then v :: l else h :: insert_sorted v t
  end.

Fixpoint list_sort (l : list Z) : list Z :=
  match l with
  | [] => []
  | h :: t => insert_sorted h (list_sort t)
  end.

(** [xrange(n)]. *)
Definition xrange (n : nat) : list Z := map Z.of_nat (seq 0 n).

(** [enumerate(l)]. *)
Definition enumerate {A} (l : list A) : list (nat * A) :=
  combine (seq 0 (List.length l)) l.

(** [v in l]. *)
Definition contains (v : Z) (l : list Z) : bool := existsb (Z.eqb v) l.

(** [l[i]]. *)
Definition index {A} (l : list A) (i : nat) : Task A :=
  of_option (nth_error l i) IndexError.

(** [a[idx]] with an integer array [idx] (NumPy fancy indexing). *)
Fixpoint take {A} (a : list A) (idx : list nat) : Task (list A) :=
  match idx with
  | [] => ret []
  | i :: rest =>
      v <- index a i ;;
      vs <- take a rest ;;
      ret (v :: vs)
  end.

(* ------------------------------------------------------------------ *)
(** ** The star matcher ([fgcm.FgcmMakeStars]) *)

(** A row of the matcher's [objIndexCat]. *)
Module ObjIndex.
Record t : Type := {
  FGCM_ID : Z;
  RA : float;
  DEC : float;
  OBSARRINDEX : Z;
  NOBS : Z
}.
End ObjIndex.

(** What the task reads from the matcher after [makeMatchedStars]:
    [objIndexCat] and the [OBSINDEX] column of [obsIndexCat]. *)
Record MakeStars : Type := {
  objIndexCat : list ObjIndex.t;
  obsIndexCat : list Z
}.

(** The matcher: [makeReferenceStars] leaves a state of type [ref] behind,
    which [makeMatchedStars] continues from. *)
Record Matcher : Type := {
  ref : Type;
  makeReferenceStars :
    list float -> list float -> list string -> bool -> Result ref;
  makeMatchedStars :
    ref -> list float -> list float -> list string -> Result MakeStars
}.

(* ------------------------------------------------------------------ *)
(** ** Magnitudes *)

(** [zp - 2.5 * np.log10(flux) + 2.5 * np.log10(expTime)]. *)
Definition instMag (zp flux expTime : float) : float :=
  (zp - Finite (5 / 2) * np.log10 flux + Finite (5 / 2) * np.log10 expTime)%np.

(** [(2.5 / np.log(10.)) * (fluxErr / flux)]. *)
Definition instMagErr (fluxErr flux : float) : float :=
  (Finite (5 / 2) / np.log (Finite 10) * (fluxErr / flux))%np.

(** [mag -= 2.5 * np.log10(jacobian)]. *)
Definition jacobianCorrected (mag jac : float) : float :=
  (mag - Finite (5 / 2) * np.log10 jac)%np.

(** The visit catalog row written for a visit from its exposure: the filter
    name goes to a string field of size 2 and the visit number to a 32-bit
    field, and either refuses a value that does not fit. *)
Definition newVisitRecord (srcVisit : Z) (exp : Exposure) : Task Visit.t :=
  if negb ((- 2 ^ 31 <=? srcVisit)%Z && (srcVisit <? 2 ^ 31)%Z) then raise TypeError
  else if negb (String.length (filterName exp) <=? 2)%nat then raise LengthError
  else
    ret {| Visit.visit := srcVisit;
           Visit.filtername := filterName exp;
           Visit.telra := boresightRa exp;
           Visit.teldec := boresightDec exp;
           Visit.telha := boresightHourAngle exp;
           Visit.mjd := dateMJD exp;
           Visit.exptime := exposureTime exp;
           Visit.pmb := (airPressure exp / Finite 100)%np;
           Visit.fwhm := Finite 0;
           Visit.deepflag := 0%Z |}.

(** The local variables of the two nested loops of
    [_fgcmMakeAllStarObservations]: [fullCatalog] is unbound until the first
    source catalog has been read. *)
Record Locals : Type := {
  started : bool;
  fullCatalog : option (list Obs.t)
}.

(** [_fgcmMatchStars], the same text in both variants.  [fgcm] is the
    matcher as [fgcm.FgcmMakeStars(starConfig)] returns it. *)
Section MatchStars.

Variable fgcm : Matcher.

Definition toStarRecord (o : ObjIndex.t) : Star.t :=
  {| Star.fgcm_id := np.int32 (ObjIndex.FGCM_ID o);
     Star.ra := ObjIndex.RA o;
     Star.dec := ObjIndex.DEC o;
     Star.obsarrindex := np.int32 (ObjIndex.OBSARRINDEX o);
     Star.nobs := np.int32 (ObjIndex.NOBS o) |}.

Definition obsFilterNames (visitCat : list Visit.t) (obsCat : list Obs.t)
  : Task (list string) :=
  let visitFilterNames := map (fun v => np.a2 (Visit.filtername v)) visitCat in
  let visitIndex :=
    np.searchsorted (map Visit.visit visitCat) (map Obs.visit obsCat) in
  take visitFilterNames visitIndex.

Definition _fgcmMatchStars (visitCat : list Visit.t) : Task unit :=
  obsCat <- butler_get_fgcmStarObservations ;;
  names <- obsFilterNames visitCat obsCat ;;
  let ra := map (fun o => np.rad2deg (Obs.ra o)) obsCat in
  let dec := map (fun o => np.rad2deg (Obs.dec o)) obsCat in
  refStars <- lift (makeReferenceStars fgcm ra dec names false) ;;
  fgcmMakeStars <- lift (makeMatchedStars fgcm refStars ra dec names) ;;
  let fgcmStarIdCat := map toStarRecord (objIndexCat fgcmMakeStars) in
  butler_put_fgcmStarIds fgcmStarIdCat ;;
  let fgcmStarIndicesCat := map np.int32 (obsIndexCat fgcmMakeStars) in
  butler_put_fgcmStarIndices fgcmStarIndicesCat.

End MatchStars.

(* ------------------------------------------------------------------ *)
(** ** [lsst/fgcmcal/fgcmBuildStars.py] *)

Module Fgcmcal.

Section FgcmBuildStarsTask.

Variable config : Config.

(** [self.sourceSelector.selectSources(sources).sourceCat]. *)
Variable selectSources : list Src.t -> list Src.t.

Variable fgcm : Matcher.

(** The inner loop of the slower discovery mode: the first CCD of the visit
    that has a [src] catalog, if any. *)
Fixpoint firstCcdWithSrc (visit : Z) (ccds : list Z) : Task (option Z) :=
  match ccds with
  | [] => ret None
  | ccd :: rest =>
      e <- butler_datasetExists_src visit ccd ;;
      if e then ret (Some ccd) else firstCcdWithSrc visit rest
  end.

(** The visits to use and, in parallel, the CCD found for each. *)
Definition findVisits (dataRefs : list DataRef) (nCcd : nat)
  : Task (list Z * list Z) :=
  if (List.length dataRefs =? 0)%nat then
    if negb (checkAllCcds config) then
      allVisits <- butler_queryMetadata_src (Some (referenceCCD config)) ;;
      for_in allVisits
        (fun dataset '(srcVisits, srcCcds) =>
           e <- butler_datasetExists_src (fst dataset) (referenceCCD config) ;;
           if e then ret (srcVisits ++ [fst dataset],
                          srcCcds ++ [referenceCCD config])
           else ret (srcVisits, srcCcds))
        ([], [])
    else
      allVisits <- butler_queryMetadata_src None ;;
      for_in allVisits
        (fun dataset '(srcVisits, srcCcds) =>
           if contains (fst dataset) srcVisits then ret (srcVisits, srcCcds)
           else
             found <- firstCcdWithSrc (fst dataset) (xrange nCcd) ;;
             match found with
             | Some ccd => ret (srcVisits ++ [fst dataset], srcCcds ++ [ccd])
             | None => ret (srcVisits, srcCcds)
             end)
        ([], [])
  else
    let srcVisits :=
      map dataId_visit
        (filter (fun d => (dataId_ccd d =? referenceCCD config)%Z) dataRefs) in
    ret (srcVisits, repeat (referenceCCD config) (List.length srcVisits)).

(** The body of the loop over the visits: raw first, calexp when the
    Butler has no raw. *)
Definition readVisitInfo (srcCcds : list Z) (entry : nat * Z)
    (visitCat : list Visit.t) : Task (list Visit.t) :=
  let '(i, srcVisit) := entry in
  ccd <- index srcCcds i ;;
  exp <- try_except (butler_get_raw srcVisit ccd) NoResults
                    (butler_get_calexp srcVisit ccd) ;;
  rec <- newVisitRecord srcVisit exp ;;
  ret (visitCat ++ [rec]).

Definition _fgcmMakeVisitCatalog (dataRefs : list DataRef)
  : Task (list Visit.t) :=
  camera <- butler_get_camera ;;
  let nCcd := List.length camera in
  '(srcVisits, srcCcds) <- findVisits dataRefs nCcd ;;
  let srcVisits := list_sort srcVisits in
  visitCat <- for_in (enumerate srcVisits) (readVisitInfo srcCcds) [] ;;
  butler_put_fgcmVisitCatalog visitCat ;;
  ret visitCat.

(** The row of [tempCat] made from a selected source. *)
Definition observation (visit : Visit.t) (ccdId : Z) (s : Src.t) : Obs.t :=
  let mag :=
    instMag (zeropointDefault config) (Src.apFlux s) (Visit.exptime visit) in
  {| Obs.ra := Src.coord_ra s;
     Obs.dec := Src.coord_dec s;
     Obs.x := Src.slot_Centroid_x s;
     Obs.y := Src.slot_Centroid_y s;
     Obs.visit := Visit.visit visit;
     Obs.ccd := np.int32 ccdId;
     Obs.mag := if applyJacobian config
                then jacobianCorrected mag (Src.jacobian s) else mag;
     Obs.magerr := instMagErr (Src.apFluxErr s) (Src.apFlux s) |}.

(** The body of the loop over CCDs. *)
Definition readDetector (visit : Visit.t) (ccdId : Z) (l : Locals)
  : Task Locals :=
  sources <- try_except
               (s <- butler_get_src (Visit.visit visit) ccdId ;; ret (Some s))
               NoResults (ret None) ;;
  match sources with
  | None => ret l
  | Some sources =>
      let l := if negb (started l)
               then {| started := true; fullCatalog := Some [] |} else l in
      let goodSrc := selectSources sources in
      let tempCat := map (observation visit ccdId) goodSrc in
      full <- of_option (fullCatalog l) UnboundLocalError ;;
      ret {| started := started l; fullCatalog := Some (full ++ tempCat) |}
  end.

(** The two nested loops: visits, then the detectors of the camera. *)
Definition readAllSources (camera : list Z) (visitCat : list Visit.t)
  : Task Locals :=
  for_in visitCat
    (fun visit l => for_in camera (readDetector visit) l)
    {| started := false; fullCatalog := None |}.

Definition _fgcmMakeAllStarObservations (visitCat : list Visit.t)
  : Task unit :=
  camera <- butler_get_camera ;;
  l <- readAllSources camera visitCat ;;
  full <- of_option (fullCatalog l) UnboundLocalError ;;
  butler_put_fgcmStarObservations full.

Definition run (dataRefs : list DataRef) : Task (list Visit.t) :=
  visitCat <-
    (if remake config then _fgcmMakeVisitCatalog dataRefs
     else
       e <- butler_datasetExists fgcmVisitCatalog ;;
       if negb e then _fgcmMakeVisitCatalog dataRefs
       else butler_get_fgcmVisitCatalog) ;;
  (if remake config then _fgcmMakeAllStarObservations visitCat
   else
     e <- butler_datasetExists fgcmStarObservations ;;
     if negb e then _fgcmMakeAllStarObservations visitCat else ret tt) ;;
  (if remake config then _fgcmMatchStars fgcm visitCat
   else
     e1 <- butler_datasetExists fgcmStarIds ;;
     if negb e1 then _fgcmMatchStars fgcm visitCat
     else
       e2 <- butler_datasetExists fgcmStarIndices ;;
       if negb e2 then _fgcmMatchStars fgcm visitCat else ret tt) ;;
  ret visitCat.

End FgcmBuildStarsTask.

End Fgcmcal.

(* ------------------------------------------------------------------ *)
(** ** [lsst/fgcm/fgcmBuildStars.py] *)

Module Fgcm.

Section FgcmBuildStarsTask.

Variable config : Config.
Variable fgcm : Matcher.

Definition findVisits (dataRefs : list DataRef) : Task (list Z) :=
  if (List.length dataRefs =? 0)%nat then
    allVisits <- butler_queryMetadata_src (Some (referenceCCD config)) ;;
    for_in allVisits
      (fun dataset srcVisits =>
         e <- butler_datasetExists_src (fst dataset) (referenceCCD config) ;;
         if e then ret (srcVisits ++ [fst dataset]) else ret srcVisits)
      []
  else
    ret (map dataId_visit
           (filter (fun d => (dataId_ccd d =? referenceCCD config)%Z) dataRefs)).

(** The body of the loop over the visits: raw only. *)
Definition readVisitInfo (srcVisit : Z) (visitCat : list Visit.t)
  : Task (list Visit.t) :=
  raw <- butler_get_raw srcVisit (referenceCCD config) ;;
  rec <- newVisitRecord srcVisit raw ;;
  ret (visitCat ++ [rec]).

Definition _fgcmMakeVisitCatalog (dataRefs : list DataRef)
  : Task (list Visit.t) :=
  srcVisits <- findVisits dataRefs ;;
  visitCat <- for_in srcVisits readVisitInfo [] ;;
  butler_put_fgcmVisitCatalog visitCat ;;
  ret visitCat.

(** [butler.dataRef('raw', dataId=...)]: the data id has to name exactly one
    raw dataset. *)
Definition butler_dataRef_raw (visit ccd : Z) : Task unit :=
  fun b => if is_some (raw b visit ccd) then (b, Ok tt)
           else (b, Raise RuntimeError).

(** [np.nan_to_num] of the magnitude error of a source. *)
Definition magErr (s : Src.t) : float :=
  np.nan_to_num (instMagErr (Src.apFluxErr s) (Src.apFlux s)).

(** The entry of [gdFlag] for a source. *)
Definition gdFlag (s : Src.t) : bool :=
  negb (Src.flag_pixel_saturated_center s)
  && negb (Src.flag_pixel_interpolated_center s)
  && negb (Src.flag_pixel_edge s)
  && negb (Src.flag_pixel_cr_center s)
  && negb (Src.flag_pixel_bad s)
  && negb (Src.flag_pixel_interpolated_any s)
  && negb (Src.slot_Centroid_flag s)
  && negb (Src.slot_ApFlux_flag s)
  && (Src.deblend_nchild s =? 0)%Z
  && (Src.parent s =? 0)%Z
  && (Src.classification_extendedness s < Finite (1 / 2))%np
  && np.isfinite (magErr s)
  && (magErr s > Finite (1 / 1000))%np
  && (magErr s < Finite (1 / 10))%np.

Definition observation (visit : Visit.t) (ccdId : Z) (s : Src.t) : Obs.t :=
  let mag :=
    instMag (zeropointDefault config) (Src.apFlux s) (Visit.exptime visit) in
  {| Obs.ra := Src.coord_ra s;
     Obs.dec := Src.coord_dec s;
     Obs.x := Src.slot_Centroid_x s;
     Obs.y := Src.slot_Centroid_y s;
     Obs.visit := Visit.visit visit;
     Obs.ccd := np.int32 ccdId;
     Obs.mag := if applyJacobian config
                then jacobianCorrected mag (Src.jacobian s) else mag;
     Obs.magerr := magErr s |}.

Definition readDetector (visit : Visit.t) (ccdId : Z) (l : Locals)
  : Task Locals :=
  butler_dataRef_raw (Visit.visit visit) ccdId ;;
  sources <- try_except
               (s <- butler_get_src (Visit.visit visit) ccdId ;; ret (Some s))
               NoResults (ret None) ;;
  match sources with
  | None => ret l
  | Some sources =>
      let l := if negb (started l)
               then {| started := true; fullCatalog := Some [] |} else l in
      let tempCat := map (observation visit ccdId) (filter gdFlag sources) in
      full <- of_option (fullCatalog l) UnboundLocalError ;;
      ret {| started := started l; fullCatalog := Some (full ++ tempCat) |}
  end.

(** The two nested loops: visits, then the detectors of the camera. *)
Definition readAllSources (camera : list Z) (visitCat : list Visit.t)
  : Task Locals :=
  for_in visitCat
    (fun visit l => for_in camera (readDetector visit) l)
    {| started := false; fullCatalog := None |}.

Definition _fgcmMakeAllStarObservations (visitCat : list Visit.t)
  : Task unit :=
  camera <- butler_get_camera ;;
  l <- readAllSources camera visitCat ;;
  full <- of_option (fullCatalog l) UnboundLocalError ;;
  butler_put_fgcmStarObservations full.

(** [run] returns [Struct(dataRefs=dataRefs)]. *)
Definition run (dataRefs : list DataRef) : Task (list DataRef) :=
  e <- butler_datasetExists fgcmVisitCatalog ;;
  visitCat <- (if e then butler_get_fgcmVisitCatalog
               else _fgcmMakeVisitCatalog dataRefs) ;;
  e <- butler_datasetExists fgcmStarObservations ;;
  (if negb e then _fgcmMakeAllStarObservations visitCat else ret tt) ;;
  e1 <- butler_datasetExists fgcmStarIds ;;
  (if negb e1 then _fgcmMatchStars fgcm visitCat
   else
     e2 <- butler_datasetExists fgcmStarIndices ;;
     if negb e2 then _fgcmMatchStars fgcm visitCat else ret tt) ;;
  ret dataRefs.

End FgcmBuildStarsTask.

End Fgcm.

(* ------------------------------------------------------------------ *)
(** ** Properties of tasks and catalogs *)

(** A task that leaves the Butler as it found it, whatever it returns. *)
Definition readonly {A} (m : Task A) : Prop := forall b, fst (m b) = b.

(** The value a task yields from a given store. *)
Definition result {A} (m : Task A) (b : Butler) : Result A := snd (m b).

(** The visit numbers of a visit catalog, in row order. *)
Definition visits (visitCat : list Visit.t) : list Z := map Visit.visit visitCat.

(** *** Inputs used in the examples below *)

Definition exposure_r : Exposure :=
  {| filterName := "r"%string;
     boresightRa := Finite 0;
     boresightDec := Finite 0;
     boresightHourAngle := Finite 0;
     dateMJD := Finite 58000;
     exposureTime := Finite 30;
     airPressure := Finite 100000 |}.

Definition config0 : Config :=
  {| remake := false;
     zeropointDefault := Finite 25;
     referenceCCD := 13%Z;
     checkAllCcds := false;
     applyJacobian := false |}.

(** A repository with raw data for CCD 13 of visits 100 and 101 and no
    artifact yet. *)
Definition butler_raw : Butler :=
  {| camera := [13%Z];
     srcMetadata := fun _ => [];
     src := fun _ _ => None;
     raw := fun v c =>
              if ((v =? 100)%Z || (v =? 101)%Z) && (c =? 13)%Z
              then Some exposure_r else None;
     calexp := fun _ _ => None;
     visitCatalog := None;
     starObservations := None;
     starIds := None;
     starIndices := None;
     putLog := [] |}.

(** The same data reference given twice on the command line. *)
Definition dataRefs_twice : list DataRef :=
  [ {| dataId_visit := 100%Z; dataId_ccd := 13%Z |};
    {| dataId_visit := 100%Z; dataId_ccd := 13%Z |} ].

(** A repository whose visit 100 has a [src] catalog on the reference CCD
    but neither a raw nor a calexp. *)
Definition butler_no_exposure : Butler :=
  {| camera := [13%Z];
     srcMetadata := fun _ => [(100%Z, "r"%string)];
     src := fun v c => if (v =? 100)%Z && (c =? 13)%Z then Some [] else None;
     raw := fun _ _ => None;
     calexp := fun _ _ => None;
     visitCatalog := None;
     starObservations := None;
     starIds := None;
     starIndices := None;
     putLog := [] |}.

(** *** The claims on the visit catalog as the specification words them *)

(** The persisted visit catalog is strictly ascending in the visit number. *)
Definition visit_catalog_strictly_ascending
    (cfg : Config) (dataRefs : list DataRef) (b : Butler) : Prop :=
  forall b' visitCat,
    Fgcmcal._fgcmMakeVisitCatalog cfg dataRefs b = (b', Ok visitCat) ->
    visitCatalog b' = Some visitCat /\ StronglySorted Z.lt (visits visitCat).

(** A visit without raw and without calexp is left out and the stage goes
    on to persist the catalog of the others. *)
Definition visit_without_exposure_is_omitted
    (cfg : Config) (dataRefs : list DataRef) (b : Butler) (v : Z) : Prop :=
  exists b' visitCat,
    Fgcmcal._fgcmMakeVisitCatalog cfg dataRefs b = (b', Ok visitCat) /\
    visitCatalog b' = Some visitCat /\ ~ In v (visits visitCat).

(** The visit catalog row of a 30 s exposure in a given filter. *)
Definition visitRecord_of (v : Z) (filter : string) : Visit.t :=
  {| Visit.visit := v;
     Visit.filtername := filter;
     Visit.telra := Finite 0;
     Visit.teldec := Finite 0;
     Visit.telha := Finite 0;
     Visit.mjd := Finite 58000;
     Visit.exptime := Finite 30;
     Visit.pmb := (Finite 100000 / Finite 100)%np;
     Visit.fwhm := Finite 0;
     Visit.deepflag := 0%Z |}.

(** The visit catalog row made from [exposure_r]. *)
Definition visitRecord_r (v : Z) : Visit.t := visitRecord_of v "r".

(** Two data references, the later visit first. *)
Definition dataRefs_unordered : list DataRef :=
  [ {| dataId_visit := 101%Z; dataId_ccd := 13%Z |};
    {| dataId_visit := 100%Z; dataId_ccd := 13%Z |} ].

(** *** The observation catalog, described without the loops *)

(** The rows already in [fullCatalog], none while it is unbound. *)
Definition rowsOf (l : Locals) : list Obs.t :=
  match fullCatalog l with
  | Some c => c
  | None => []
  end.

(** The locals after a (visit, CCD) pair: unchanged when the CCD has no
    [src] catalog, extended by [tempCat] otherwise. *)
Definition extended (l : Locals) (tempCat : option (list Obs.t)) : Locals :=
  match tempCat with
  | None => l
  | Some t => {| started := true; fullCatalog := Some (rowsOf l ++ t) |}
  end.

(** [fullCatalog] is bound exactly when [started] is set. *)
Definition bound (l : Locals) : Prop := started l = is_some (fullCatalog l).

(** How a variant turns the [src] catalog of a (visit, CCD) pair into
    [tempCat]. *)
Definition TempCat : Type := Visit.t -> Z -> list Src.t -> list Obs.t.

Definition fgcmcal_tempCat (cfg : Config) (selectSources : list Src.t -> list Src.t)
  : TempCat :=
  fun visit ccdId sources =>
    map (Fgcmcal.observation cfg visit ccdId) (selectSources sources).

Definition fgcm_tempCat (cfg : Config) : TempCat :=
  fun visit ccdId sources =>
    map (Fgcm.observation cfg visit ccdId) (filter Fgcm.gdFlag sources).

Definition detectorTempCat (mk : TempCat) (b : Butler) (visit : Visit.t)
    (ccdId : Z) : option (list Obs.t) :=
  option_map (mk visit ccdId) (src b (Visit.visit visit) ccdId).

(** The rows a (visit, CCD) pair contributes. *)
Definition detectorRows (mk : TempCat) (b : Butler) (visit : Visit.t)
    (ccdId : Z) : list Obs.t :=
  match detectorTempCat mk b visit ccdId with
  | Some t => t
  | None => []
  end.

(** The rows of a visit: its detectors in camera order. *)
Definition visitRows (mk : TempCat) (b : Butler) (visit : Visit.t)
  : list Obs.t :=
  flat_map (detectorRows mk b visit) (camera b).

(** All rows: the visits in catalog order. *)
Definition allRows (mk : TempCat) (b : Butler) (visitCat : list Visit.t)
  : list Obs.t :=
  flat_map (visitRows mk b) visitCat.

(** Some (visit, CCD) pair of the scan has a [src] catalog. *)
Definition anySrc (b : Butler) (visitCat : list Visit.t) : bool :=
  existsb (fun visit =>
             existsb (fun ccdId => is_some (src b (Visit.visit visit) ccdId))
                     (camera b))
          visitCat.

(** Every (visit, CCD) pair of the scan names a raw dataset. *)
Definition allRaw (b : Butler) (visitCat : list Visit.t) : Prop :=
  forall visit ccdId,
    In visit visitCat -> In ccdId (camera b) ->
    raw b (Visit.visit visit) ccdId <> None.

(** A detection with clean flags and the given aperture flux and flux
    error. *)
Definition cleanSource (flux fluxErr : float) : Src.t :=
  {| Src.coord_ra := Finite 0;
     Src.coord_dec := Finite 0;
     Src.slot_Centroid_x := Finite 0;
     Src.slot_Centroid_y := Finite 0;
     Src.apFlux := flux;
     Src.apFluxErr := fluxErr;
     Src.jacobian := Finite 1;
     Src.flag_pixel_saturated_center := false;
     Src.flag_pixel_interpolated_center := false;
     Src.flag_pixel_edge := false;
     Src.flag_pixel_cr_center := false;
     Src.flag_pixel_bad := false;
     Src.flag_pixel_interpolated_any := false;
     Src.slot_Centroid_flag := false;
     Src.slot_ApFlux_flag := false;
     Src.deblend_nchild := 0%Z;
     Src.parent := 0%Z;
     Src.classification_extendedness := Finite 0 |}.

(** Aperture flux 1000 and flux error 50. *)
Definition source_1000 : Src.t := cleanSource (Finite 1000) (Finite 50).

(** Flux and flux error both negative. *)
Definition source_negative : Src.t :=
  cleanSource (Finite (-1000)) (Finite (-50)).

(** No flux at all. *)
Definition source_zero_flux : Src.t := cleanSource (Finite 0) (Finite 50).

(** A selector configured to keep every source. *)
Definition selectAll (sources : list Src.t) : list Src.t := sources.

Definition visitCat_two : list Visit.t := [visitRecord_r 100; visitRecord_r 101].

(** Visits 100 and 101, one detector, three and two detections, and the
    visit catalog already persisted. *)
Definition butler_two_visits : Butler :=
  {| camera := [13%Z];
     srcMetadata := fun _ => [(100%Z, "r"%string); (101%Z, "r"%string)];
     src := fun v c =>
              if (c =? 13)%Z then
                if (v =? 100)%Z then Some [source_1000; source_1000; source_1000]
                else if (v =? 101)%Z then Some [source_1000; source_1000]
                else None
              else None;
     raw := fun v c =>
              if ((v =? 100)%Z || (v =? 101)%Z) && (c =? 13)%Z
              then Some exposure_r else None;
     calexp := fun _ _ => None;
     visitCatalog := Some visitCat_two;
     starObservations := None;
     starIds := None;
     starIndices := None;
     putLog := [] |}.

(** [x] is a finite value within [tol] of [v]. *)
Definition approx (x : float) (v tol : R) : Prop :=
  exists r, x = Finite r /\ (Rabs (r - v) <= tol)%R.

(** The magnitude example as the specification words it: flux 1000,
    exposure time 30, zero point 25, no Jacobian correction, magnitude
    22.618 to the three decimals given. *)
Definition spec_example_magnitude : Prop :=
  approx (Obs.mag (Fgcmcal.observation config0 (visitRecord_r 100) 13 source_1000))
         (22618 / 1000) (1 / 2000).

(** *** Detections the magnitude-error cuts are meant to remove *)

(** Negative infinity, or a finite value not above zero. *)
Definition nonpositive (x : float) : Prop :=
  x = NegInf \/ exists r, x = Finite r /\ (r <= 0)%R.

(** A finite value below zero. *)
Definition negative (x : float) : Prop :=
  exists r, x = Finite r /\ (r < 0)%R.

(** The detections of the dropped-row property as the specification words
    it: non-positive flux, non-finite flux error, or a computed magnitude
    error that is non-finite or non-positive. *)
Definition rejectable (s : Src.t) : Prop :=
  nonpositive (Src.apFlux s)
  \/ np.isfinite (Src.apFluxErr s) = false
  \/ np.isfinite (instMagErr (Src.apFluxErr s) (Src.apFlux s)) = false
  \/ nonpositive (instMagErr (Src.apFluxErr s) (Src.apFlux s)).

(** The same, with the non-positive flux case limited to a flux error that
    is not negative. *)
Definition cut (s : Src.t) : Prop :=
  (nonpositive (Src.apFlux s) /\ ~ negative (Src.apFluxErr s))
  \/ np.isfinite (Src.apFluxErr s) = false
  \/ np.isfinite (instMagErr (Src.apFluxErr s) (Src.apFlux s)) = false
  \/ nonpositive (instMagErr (Src.apFluxErr s) (Src.apFlux s)).

(** The dropped-row property on the fgcm variant, as worded: no row of the
    persisted catalog is made from a rejectable detection. *)
Definition rejectable_never_stored
    (cfg : Config) (visitCat : list Visit.t) (b : Butler) : Prop :=
  forall b' obsCat visit ccdId sources s,
    Fgcm._fgcmMakeAllStarObservations cfg visitCat b = (b', Ok tt) ->
    starObservations b' = Some obsCat ->
    In visit visitCat -> In ccdId (camera b) ->
    src b (Visit.visit visit) ccdId = Some sources ->
    In s sources ->
    rejectable s ->
    ~ In (Fgcm.observation cfg visit ccdId s) obsCat.

(** Visit 100 with the single detection [source_negative] on CCD 13. *)
Definition butler_negative : Butler :=
  {| camera := [13%Z];
     srcMetadata := fun _ => [(100%Z, "r"%string)];
     src := fun v c =>
              if (v =? 100)%Z && (c =? 13)%Z then Some [source_negative]
              else None;
     raw := fun v c =>
              if (v =? 100)%Z && (c =? 13)%Z then Some exposure_r else None;
     calexp := fun _ _ => None;
     visitCatalog := Some [visitRecord_r 100];
     starObservations := None;
     starIds := None;
     starIndices := None;
     putLog := [] |}.

(** *** Scan order *)

(** Order of the scan on (visit position, detector position) pairs. *)
Definition lex_le (p q : nat * nat) : Prop :=
  (fst p < fst q)%nat \/ (fst p = fst q /\ (snd p <= snd q)%nat).

(** The rows of [allRows], each with the position of its visit in the visit
    catalog and of its detector in the camera. *)
Definition taggedRows (mk : TempCat) (b : Butler) (visitCat : list Visit.t)
  : list ((nat * nat) * Obs.t) :=
  flat_map
    (fun iv =>
       flat_map
         (fun jc => map (pair (fst iv, fst jc))
                        (detectorRows mk b (snd iv) (snd jc)))
         (enumerate (camera b)))
    (enumerate visitCat).

(** *** Filter labels *)

(** Visit 100 in g and visit 101 in r. *)
Definition visitCat_gr : list Visit.t :=
  [visitRecord_of 100 "g"; visitRecord_of 101 "r"].

(** One observation of visit 101, then one of visit 100. *)
Definition obsCat_gr : list Obs.t :=
  [ Fgcmcal.observation config0 (visitRecord_of 101 "r") 13 source_1000;
    Fgcmcal.observation config0 (visitRecord_of 100 "g") 13 source_1000 ].

(** *** The star index *)

(** A star's block of the observation-index array: start and count. *)
Definition in_range (r : Z * Z) (p : Z) : Prop :=
  (fst r <= p < fst r + snd r)%Z.

Definition star_ranges (stars : list Star.t) : list (Z * Z) :=
  map (fun s => (Star.obsarrindex s, Star.nobs s)) stars.

Definition obj_ranges (objs : list ObjIndex.t) : list (Z * Z) :=
  map (fun o => (ObjIndex.OBSARRINDEX o, ObjIndex.NOBS o)) objs.

Definition sum_counts (ranges : list (Z * Z)) : Z :=
  fold_right (fun r acc => (snd r + acc)%Z) 0%Z ranges.

(** A compressed-sparse-row index from stars to observations: the counts
    add up to the length of the index array, every block lies inside the
    array, the blocks of different stars do not overlap, and every entry of
    a block is a row number of the observation catalog. *)
Definition csr_index (ranges : list (Z * Z)) (idx : list Z) (nObs : nat)
  : Prop :=
  sum_counts ranges = Z.of_nat (List.length idx) /\
  (forall r, In r ranges ->
     (0 <= fst r /\ 0 <= snd r /\
      fst r + snd r <= Z.of_nat (List.length idx))%Z) /\
  (forall i j r1 r2,
     i <> j -> nth_error ranges i = Some r1 -> nth_error ranges j = Some r2 ->
     forall p, ~ (in_range r1 p /\ in_range r2 p)) /\
  (forall r p,
     In r ranges -> in_range r p ->
     exists e, nth_error idx (Z.to_nat p) = Some e /\
               (0 <= e < Z.of_nat nObs)%Z).

(** The same as a test. *)
Definition range_ok (len : Z) (r : Z * Z) : bool :=
  (0 <=? fst r)%Z && (0 <=? snd r)%Z && (fst r + snd r <=? len)%Z.

Definition disjointb (r1 r2 : Z * Z) : bool :=
  (fst r1 + snd r1 <=? fst r2)%Z || (fst r2 + snd r2 <=? fst r1)%Z
  || (snd r1 <=? 0)%Z || (snd r2 <=? 0)%Z.

Fixpoint pairwise {A} (rel : A -> A -> bool) (l : list A) : bool :=
  match l with
  | [] => true
  | h :: t => forallb (rel h) t && pairwise rel t
  end.

Definition valid_csr (ranges : list (Z * Z)) (idx : list Z) (nObs : nat)
  : bool :=
  (sum_counts ranges =? Z.of_nat (List.length idx))%Z
  && forallb (range_ok (Z.of_nat (List.length idx))) ranges
  && pairwise disjointb ranges
  && forallb (fun e => (0 <=? e)%Z && (e <? Z.of_nat nObs)%Z) idx.

(** What the task relies on from [fgcm.FgcmMakeStars.makeMatchedStars]:
    [objIndexCat] and [obsIndexCat] form such an index over the
    observations it was given, in 32-bit integers. *)
Definition matcher_contract (fgcm : Matcher) : Prop :=
  forall refStars ra dec names out,
    makeMatchedStars fgcm refStars ra dec names = Ok out ->
    csr_index (obj_ranges (objIndexCat out)) (obsIndexCat out)
              (List.length ra) /\
    Forall np.in_int32 (obsIndexCat out) /\
    Forall (fun o => np.in_int32 (ObjIndex.OBSARRINDEX o) /\
                     np.in_int32 (ObjIndex.NOBS o))
           (objIndexCat out).

(** A matcher for the five-observation scenario: it groups observations
    0, 1, 2 into one star and 3, 4 into another and rejects any other
    input. *)
Definition matcher_two_stars : Matcher :=
  {| ref := unit;
     makeReferenceStars := fun _ _ _ _ => Ok tt;
     makeMatchedStars := fun _ ra _ _ =>
       if (List.length ra =? 5)%nat then
         Ok {| objIndexCat :=
                 [ {| ObjIndex.FGCM_ID := 1; ObjIndex.RA := Finite 0;
                      ObjIndex.DEC := Finite 0;
                      ObjIndex.OBSARRINDEX := 0; ObjIndex.NOBS := 3 |};
                   {| ObjIndex.FGCM_ID := 2; ObjIndex.RA := Finite 0;
                      ObjIndex.DEC := Finite 0;
                      ObjIndex.OBSARRINDEX := 3; ObjIndex.NOBS := 2 |} ];
               obsIndexCat := [0; 1; 2; 3; 4]%Z |}
       else Raise MatcherError |}.

(** [butler_two_visits] once the observations are compiled, and once the
    stars are matched. *)
Definition butler_compiled : Butler :=
  fst (Fgcmcal._fgcmMakeAllStarObservations config0 selectAll visitCat_two
         butler_two_visits).

Definition butler_matched : Butler :=
  fst (_fgcmMatchStars matcher_two_stars visitCat_two butler_compiled).

(** *** The three checkpointed steps of [run] *)

(** Each step of [run] builds its artifact or, when the artifact is there
    and no rebuild is asked for, leaves the Butler alone. *)
Definition fgcmcal_visitStep (cfg : Config) (dataRefs : list DataRef)
  : Task (list Visit.t) :=
  if remake cfg then Fgcmcal._fgcmMakeVisitCatalog cfg dataRefs
  else
    e <- butler_datasetExists fgcmVisitCatalog ;;
    if negb e then Fgcmcal._fgcmMakeVisitCatalog cfg dataRefs
    else butler_get_fgcmVisitCatalog.

Definition fgcmcal_observationStep (cfg : Config)
    (selectSources : list Src.t -> list Src.t) (visitCat : list Visit.t)
  : Task unit :=
  if remake cfg
  then Fgcmcal._fgcmMakeAllStarObservations cfg selectSources visitCat
  else
    e <- butler_datasetExists fgcmStarObservations ;;
    if negb e
    then Fgcmcal._fgcmMakeAllStarObservations cfg selectSources visitCat
    else ret tt.

Definition fgcmcal_matchStep (cfg : Config) (fgcm : Matcher)
    (visitCat : list Visit.t) : Task unit :=
  if remake cfg then _fgcmMatchStars fgcm visitCat
  else
    e1 <- butler_datasetExists fgcmStarIds ;;
    if negb e1 then _fgcmMatchStars fgcm visitCat
    else
      e2 <- butler_datasetExists fgcmStarIndices ;;
      if negb e2 then _fgcmMatchStars fgcm visitCat else ret tt.

Definition fgcm_visitStep (cfg : Config) (dataRefs : list DataRef)
  : Task (list Visit.t) :=
  e <- butler_datasetExists fgcmVisitCatalog ;;
  if e then butler_get_fgcmVisitCatalog
  else Fgcm._fgcmMakeVisitCatalog cfg dataRefs.

Definition fgcm_observationStep (cfg : Config) (visitCat : list Visit.t)
  : Task unit :=
  e <- butler_datasetExists fgcmStarObservations ;;
  if negb e then Fgcm._fgcmMakeAllStarObservations cfg visitCat else ret tt.

Definition fgcm_matchStep (fgcm : Matcher) (visitCat : list Visit.t)
  : Task unit :=
  e1 <- butler_datasetExists fgcmStarIds ;;
  if negb e1 then _fgcmMatchStars fgcm visitCat
  else
    e2 <- butler_datasetExists fgcmStarIndices ;;
    if negb e2 then _fgcmMatchStars fgcm visitCat else ret tt.

(** All four artifacts are in the Butler. *)
Definition complete (b : Butler) : Prop :=
  is_some (visitCatalog b) = true /\
  is_some (starObservations b) = true /\
  is_some (starIds b) = true /\
  is_some (starIndices b) = true.

(** The Butler after a step: as it was, or with the step's puts appended
    to the log and nothing else written. *)
Definition wrote (b b' : Butler) (l : list Dataset) : Prop :=
  putLog b' = putLog b ++ l /\
  camera b' = camera b /\
  (In fgcmVisitCatalog l \/ visitCatalog b' = visitCatalog b) /\
  (In fgcmStarObservations l \/ starObservations b' = starObservations b) /\
  (In fgcmStarIds l \/ starIds b' = starIds b) /\
  (In fgcmStarIndices l \/ starIndices b' = starIndices b).

(** A repository whose visit 100 has a calexp on CCD 13 but no raw. *)
Definition butler_calexp_only : Butler :=
  {| camera := [13%Z];
     srcMetadata := fun _ => [(100%Z, "r"%string)];
     src := fun v c => if (v =? 100)%Z && (c =? 13)%Z then Some [] else None;
     raw := fun _ _ => None;
     calexp := fun v c =>
                 if (v =? 100)%Z && (c =? 13)%Z then Some exposure_r else None;
     visitCatalog := None;
     starObservations := None;
     starIds := None;
     starIndices := None;
     putLog := [] |}.

(* ------------------------------------------------------------------ *)
(** ** The command-line runner ([FgcmBuildStarsRunner]) *)

(** [try: m except Exception as e: h e].  Every exception of [Exn] derives
    from [Exception]. *)
Definition try_except_Exception {A} (m : Task A) (h : Exn -> Task A) : Task A :=
  fun b =>
    match m b with
    | (b', Raise e) => h e b'
    | r => r
    end.

(** The two switches of [pipeBase.TaskRunner] that [__call__] reads. *)
Record TaskRunner : Type := {
  doRaise : bool;
  doReturnResults : bool
}.

(** The parsed command line: the data references of [--id].  Its Butler is
    the store the tasks are run on. *)
Record ParsedCmd : Type := {
  id_refList : list DataRef
}.

(** [pipeBase.Struct(exitStatus=..., results=...)]; [results] is [None]
    when the field is left out. *)
Record Struct (R : Type) : Type := {
  exitStatus : Z;
  results : option R
}.

(** [_getMetadataName] of either task: no metadata is saved. *)
Definition _getMetadataName : option string := None.

(** The runner of [lsst/fgcmcal/fgcmBuildStars.py]. *)
Module FgcmcalRunner.

Section FgcmBuildStarsRunner.

Variable config : Config.
Variable selectSources : list Src.t -> list Src.t.
Variable fgcm : Matcher.

(** [task.writeMetadata(butler)] of [pipeBase], given the metadata name of
    the task. *)
Variable writeMetadata : option string -> Task unit.

Variable self : TaskRunner.

(** One target: the Butler (the store itself here) and the data
    references. *)
Definition getTargetList (parsedCmd : ParsedCmd) : list (unit * list DataRef) :=
  [(tt, id_refList parsedCmd)].

Definition precall (parsedCmd : ParsedCmd) : bool := true.

(** The local [results] is bound by the call of [task.run] only. *)
Definition __call__ (args : unit * list DataRef)
  : Task (list (Struct (list Visit.t))) :=
  let '(_, dataRefList) := args in
  let exitStatus := 0%Z in
  '(exitStatus, results) <-
    (if doRaise self then
       results <- Fgcmcal.run config selectSources fgcm dataRefList ;;
       ret (exitStatus, Some results)
     else
       try_except_Exception
         (results <- Fgcmcal.run config selectSources fgcm dataRefList ;;
          ret (exitStatus, Some results))
         (fun e => ret (1%Z, None))) ;;
  writeMetadata _getMetadataName ;;
  if doReturnResults self then
    results <- of_option results UnboundLocalError ;;
    ret [ {| exitStatus := exitStatus; results := Some results |} ]
  else
    ret [ {| exitStatus := exitStatus; results := None |} ].

Definition run (parsedCmd : ParsedCmd)
  : Task (list (Struct (list Visit.t))) :=
  let resultList := [] in
  if precall parsedCmd then
    let targetList := getTargetList parsedCmd in
    target <- index targetList 0 ;;
    __call__ target
  else ret resultList.

End FgcmBuildStarsRunner.

End FgcmcalRunner.

(** The runner of [lsst/fgcm/fgcmBuildStars.py]: no exit status, and the
    result of [task.run] itself or [None]. *)
Module FgcmRunner.

(** What [run] hands back: the empty list it starts from, or what
    [__call__] returned. *)
Inductive ResultList : Type :=
| EmptyList
| Returned (results : option (list DataRef)).

Section FgcmBuildStarsRunner.

Variable config : Config.
Variable fgcm : Matcher.
Variable writeMetadata : option string -> Task unit.
Variable self : TaskRunner.

Definition getTargetList (parsedCmd : ParsedCmd) : list (unit * list DataRef) :=
  [(tt, id_refList parsedCmd)].

Definition precall (parsedCmd : ParsedCmd) : bool := true.

Definition __call__ (args : unit * list DataRef)
  : Task (option (list DataRef)) :=
  let '(_, dataRefList) := args in
  results <-
    (if doRaise self then
       results <- Fgcm.run config fgcm dataRefList ;;
       ret (Some results)
     else
       try_except_Exception
         (results <- Fgcm.run config fgcm dataRefList ;;
          ret (Some results))
         (fun e => ret None)) ;;
  writeMetadata _getMetadataName ;;
  if doReturnResults self then
    results <- of_option results UnboundLocalError ;;
    ret (Some results)
  else
    ret None.

Definition run (parsedCmd : ParsedCmd) : Task ResultList :=
  let resultList := EmptyList in
  if precall parsedCmd then
    let targetList := getTargetList parsedCmd in
    target <- index targetList 0 ;;
    resultList <- __call__ target ;;
    ret (Returned resultList)
  else ret resultList.

End FgcmBuildStarsRunner.

End FgcmRunner.

(* ------------------------------------------------------------------ *)
(** ** More properties of runs *)

(** The datasets the task reads and does not make are the same in both
    stores. *)
Definition same_inputs (b b' : Butler) : Prop :=
  camera b' = camera b /\ srcMetadata b' = srcMetadata b /\
  src b' = src b /\ raw b' = raw b /\ calexp b' = calexp b.

(** The puts a run has to make, in order: those of every step when a
    rebuild is forced, else those of the steps with a missing artifact. *)
Definition planned_puts (force : bool) (b : Butler) : list Dataset :=
  (if force || negb (is_some (visitCatalog b))
   then [fgcmVisitCatalog] else [])
  ++ (if force || negb (is_some (starObservations b))
      then [fgcmStarObservations] else [])
  ++ (if force || negb (is_some (starIds b) && is_some (starIndices b))
      then [fgcmStarIds; fgcmStarIndices] else []).

(** A writer of metadata that has nothing to write. *)
Definition writeNoMetadata (name : option string) : Task unit := ret tt.

(** A runner that keeps exceptions to itself and returns the exit status
    only, and one that is asked for the results as well. *)
Definition runner_quiet : TaskRunner :=
  {| doRaise := false; doReturnResults := false |}.

Definition runner_results : TaskRunner :=
  {| doRaise := false; doReturnResults := true |}.

(** [b'] is [b] after some puts: the inputs are the same, the log has
    grown at its end and no artifact has gone. *)
Definition after_puts (b b' : Butler) : Prop :=
  same_inputs b b' /\
  (exists l, putLog b' = putLog b ++ l) /\
  (forall d, result (butler_datasetExists d) b = Ok true ->
             result (butler_datasetExists d) b' = Ok true).

(** Two data references, neither on the reference CCD 13. *)
Definition dataRefs_off_reference : list DataRef :=
  [ {| dataId_visit := 100%Z; dataId_ccd := 12%Z |};
    {| dataId_visit := 101%Z; dataId_ccd := 14%Z |} ].

(** A configuration that scans all CCDs for visits. *)
Definition config_all : Config :=
  {| remake := false;
     zeropointDefault := Finite 25;
     referenceCCD := 13%Z;
     checkAllCcds := true;
     applyJacobian := false |}.

(** A camera of two detectors.  The metadata list visit 101, then visit
    100, then visit 101 again; visit 101 has its [src] catalog and raw
    exposure on CCD 1 only, visit 100 on CCD 0 only. *)
Definition butler_all_ccds : Butler :=
  {| camera := [0%Z; 1%Z];
     srcMetadata := fun _ => [(101%Z, "r"%string); (100%Z, "r"%string);
                              (101%Z, "r"%string)];
     src := fun v c =>
              if ((v =? 101)%Z && (c =? 1)%Z) || ((v =? 100)%Z && (c =? 0)%Z)
              then Some [] else None;
     raw := fun v c =>
              if ((v =? 101)%Z && (c =? 1)%Z) || ((v =? 100)%Z && (c =? 0)%Z)
              then Some exposure_r else None;
     calexp := fun _ _ => None;
     visitCatalog := None;
     starObservations := None;
     starIds := None;
     starIndices := None;
     putLog := [] |}.

(** The row is the copy of what the exposure tells about visit [v]: the
    filter name, the pointing, the date and the exposure time as they are,
    the air pressure divided by 100, and zero for [fwhm] and [deepflag]. *)
Definition copied_from (v : Z) (exp : Exposure) (rec : Visit.t) : Prop :=
  Visit.visit rec = v /\
  Visit.filtername rec = filterName exp /\
  Visit.telra rec = boresightRa exp /\
  Visit.teldec rec = boresightDec exp /\
  Visit.telha rec = boresightHourAngle exp /\
  Visit.mjd rec = dateMJD exp /\
  Visit.exptime rec = exposureTime exp /\
  Visit.pmb rec = (airPressure exp / Finite 100)%np /\
  Visit.fwhm rec = Finite 0 /\
  Visit.deepflag rec = 0%Z.

(** A repository that holds the observations [obsCat_gr], of visits 101
    and 100, and nothing else. *)
Definition butler_observed_gr : Butler :=
  {| camera := [13%Z];
     srcMetadata := fun _ => [];
     src := fun _ _ => None;
     raw := fun _ _ => None;
     calexp := fun _ _ => None;
     visitCatalog := None;
     starObservations := Some obsCat_gr;
     starIds := None;
     starIndices := None;
     putLog := [] |}.

(** [butler_two_visits] after the first two stages have run on it anew. *)
Definition butler_compiled_fresh : Butler :=
  fst (Fgcmcal._fgcmMakeAllStarObservations config0 selectAll visitCat_two
         (fst (butler_put_fgcmVisitCatalog visitCat_two butler_two_visits))).

(* ------------------------------------------------------------------ *)
(** * Proofs *)

(** ** The task monad *)

Lemma bind_ok {A B} (m : Task A) (k : A -> Task B) b b1 a :
  m b = (b1, Ok a) -> bind m k b = k a b1.
Proof. unfold bind; intros ->; reflexivity. Qed.

Lemma bind_raise {A B} (m : Task A) (k : A -> Task B) b b1 e :
  m b = (b1, Raise e) -> bind m k b = (b1, Raise e).
Proof. unfold bind; intros ->; reflexivity. Qed.

Lemma bind_inv {A B} (m : Task A) (k : A -> Task B) b b' r :
  bind m k b = (b', r) ->
  (exists e, m b = (b', Raise e) /\ r = Raise e) \/
  (exists b1 a, m b = (b1, Ok a) /\ k a b1 = (b', r)).
Proof.
  unfold bind; destruct (m b) as [b1 [a | e]]; intros H.
  - right; eauto.
  - left; inversion H; subst; eauto.
Qed.

Lemma readonly_eq {A} (m : Task A) b :
  readonly m -> m b = (b, result m b).
Proof.
  intros H; unfold result; specialize (H b).
  destruct (m b) as [b1 r]; simpl in *; subst; reflexivity.
Qed.

Lemma bind_readonly {A B} (m : Task A) (k : A -> Task B) b :
  readonly m ->
  bind m k b = match result m b with
               | Ok a => k a b
               | Raise e => (b, Raise e)
               end.
Proof.
  intros H; unfold bind; rewrite (readonly_eq b H).
  destruct (result m b); reflexivity.
Qed.

Lemma readonly_ret {A} (a : A) : readonly (ret a).
Proof. intros b; reflexivity. Qed.

Lemma readonly_raise {A} e : readonly (@raise A e).
Proof. intros b; reflexivity. Qed.

Lemma readonly_lift {A} (r : Result A) : readonly (lift r).
Proof. intros b; reflexivity. Qed.

Lemma readonly_of_option {A} (o : option A) e : readonly (of_option o e).
Proof. destruct o; intros b; reflexivity. Qed.

Lemma readonly_bind {A B} (m : Task A) (k : A -> Task B) :
  readonly m -> (forall a, readonly (k a)) -> readonly (bind m k).
Proof.
  intros Hm Hk b; rewrite (bind_readonly _ _ Hm).
  destruct (result m b); [apply Hk | reflexivity].
Qed.

Lemma readonly_try_except {A} (m h : Task A) exn :
  readonly m -> readonly h -> readonly (try_except m exn h).
Proof.
  intros Hm Hh b; unfold try_except; rewrite (readonly_eq b Hm).
  destruct (result m b) as [a | e]; [reflexivity |].
  destruct (Exn_eqb e exn); [apply Hh | reflexivity].
Qed.

Lemma readonly_for_in {A S} (xs : list A) (body : A -> S -> Task S) :
  (forall x s, readonly (body x s)) -> forall s, readonly (for_in xs body s).
Proof.
  intros Hb; induction xs as [| x xs IH]; intros s; simpl.
  - apply readonly_ret.
  - apply readonly_bind; auto.
Qed.

Lemma readonly_index {A} (l : list A) i : readonly (index l i).
Proof. apply readonly_of_option. Qed.

Lemma readonly_take {A} (a : list A) idx : readonly (take a idx).
Proof.
  induction idx as [| i idx IH]; simpl.
  - apply readonly_ret.
  - apply readonly_bind; [apply readonly_index |]; intros v.
    apply readonly_bind; [exact IH |]; intros vs; apply readonly_ret.
Qed.

Lemma readonly_camera : readonly butler_get_camera.
Proof. intros b; reflexivity. Qed.

Lemma readonly_queryMetadata ccd : readonly (butler_queryMetadata_src ccd).
Proof. intros b; reflexivity. Qed.

Lemma readonly_datasetExists_src v c : readonly (butler_datasetExists_src v c).
Proof. intros b; reflexivity. Qed.

Lemma readonly_datasetExists d : readonly (butler_datasetExists d).
Proof. intros b; reflexivity. Qed.

Lemma readonly_get_src v c : readonly (butler_get_src v c).
Proof. intros b; unfold butler_get_src; apply readonly_of_option. Qed.

Lemma readonly_get_raw v c : readonly (butler_get_raw v c).
Proof. intros b; unfold butler_get_raw; apply readonly_of_option. Qed.

Lemma readonly_get_calexp v c : readonly (butler_get_calexp v c).
Proof. intros b; unfold butler_get_calexp; apply readonly_of_option. Qed.

Lemma readonly_get_visitCatalog : readonly butler_get_fgcmVisitCatalog.
Proof. intros b; unfold butler_get_fgcmVisitCatalog; apply readonly_of_option. Qed.

Lemma readonly_get_starObservations : readonly butler_get_fgcmStarObservations.
Proof.
  intros b; unfold butler_get_fgcmStarObservations; apply readonly_of_option.
Qed.

Lemma readonly_newVisitRecord v e : readonly (newVisitRecord v e).
Proof.
  unfold newVisitRecord.
  destruct (negb _); [apply readonly_raise |].
  destruct (negb _); [apply readonly_raise | apply readonly_ret].
Qed.

Create HintDb readonly.

#[export] Hint Resolve readonly_ret readonly_raise readonly_lift
  readonly_of_option readonly_try_except readonly_index readonly_take
  readonly_camera readonly_queryMetadata readonly_datasetExists_src
  readonly_datasetExists readonly_get_src readonly_get_raw
  readonly_get_calexp readonly_get_visitCatalog
  readonly_get_starObservations readonly_newVisitRecord : readonly.

(** Splits a goal [readonly m] along the binds, loops and branches of [m]. *)
Ltac ro :=
  repeat first
    [ solve [auto with readonly]
    | apply readonly_bind; [| intros ?]
    | apply readonly_for_in; intros ? ?
    | apply readonly_try_except
    | match goal with
      | |- readonly (if ?c then _ else _) => destruct c
      | |- readonly (match ?o with Some _ => _ | None => _ end) => destruct o
      | |- readonly (let '(_, _) := ?p in _) => destruct p
      end ].

Lemma for_in_inv {A S} (P : S -> Prop) (body : A -> S -> Task S) :
  (forall x s b b' s', P s -> body x s b = (b', Ok s') -> P s') ->
  forall xs s b b' s', P s -> for_in xs body s b = (b', Ok s') -> P s'.
Proof.
  intros Hbody; induction xs as [| x xs IH]; simpl; intros s b b' s' Hs H.
  - inversion H; subst; exact Hs.
  - apply bind_inv in H as [(e & _ & He) | (b1 & s1 & H1 & H2)];
      [discriminate |].
    eapply IH; [eapply Hbody; eauto | eauto].
Qed.

(** ** Sorting *)

Lemma insert_sorted_perm v l : Permutation (insert_sorted v l) (v :: l).
Proof.
  induction l as [| h t IH]; simpl.
  - apply Permutation_refl.
  - destruct (v <=? h)%Z.
    + apply Permutation_refl.
    + eapply perm_trans; [apply perm_skip, IH | apply perm_swap].
Qed.

Lemma list_sort_perm l : Permutation (list_sort l) l.
Proof.
  induction l as [| h t IH]; simpl.
  - apply perm_nil.
  - eapply perm_trans; [apply insert_sorted_perm | apply perm_skip, IH].
Qed.

Lemma insert_sorted_HdRel a v l :
  (a <= v)%Z -> HdRel Z.le a l -> HdRel Z.le a (insert_sorted v l).
Proof.
  intros Hav Hl; destruct l as [| h t]; simpl.
  - constructor; exact Hav.
  - destruct (v <=? h)%Z; constructor; [exact Hav |].
    inversion Hl; assumption.
Qed.

Lemma insert_sorted_Sorted v l :
  Sorted Z.le l -> Sorted Z.le (insert_sorted v l).
Proof.
  induction l as [| h t IH]; simpl; intros Hs.
  - repeat constructor.
  - destruct (v <=? h)%Z eqn:E.
    + constructor; [exact Hs | constructor; apply Z.leb_le; exact E].
    + inversion Hs as [| ? ? Ht Hh]; subst.
      constructor; [apply IH; exact Ht |].
      apply insert_sorted_HdRel; [| exact Hh].
      apply Z.leb_gt in E; lia.
Qed.

Lemma list_sort_Sorted l : Sorted Z.le (list_sort l).
Proof.
  induction l as [| h t IH]; simpl.
  - constructor.
  - apply insert_sorted_Sorted; exact IH.
Qed.

Lemma Sorted_le_StronglySorted l : Sorted Z.le l -> StronglySorted Z.le l.
Proof.
  apply Sorted_StronglySorted; intros a b c; apply Z.le_trans.
Qed.

Lemma Sorted_NoDup_strict l :
  Sorted Z.le l -> NoDup l -> StronglySorted Z.lt l.
Proof.
  intros Hs; apply Sorted_le_StronglySorted in Hs.
  induction Hs as [| h t Ht IH Hh]; intros Hn.
  - constructor.
  - inversion Hn as [| ? ? Hnot Hn']; subst.
    constructor; [apply IH; exact Hn' |].
    rewrite Forall_forall in *; intros y Hy.
    specialize (Hh y Hy).
    assert (h <> y) by (intros ->; contradiction).
    lia.
Qed.

Lemma contains_In v l : contains v l = true <-> In v l.
Proof.
  unfold contains; rewrite existsb_exists; split.
  - intros (y & Hy & E); apply Z.eqb_eq in E; subst; exact Hy.
  - intros H; exists v; split; [exact H | apply Z.eqb_refl].
Qed.

Lemma NoDup_snoc (v : Z) l : NoDup l -> ~ In v l -> NoDup (l ++ [v]).
Proof.
  intros Hl Hv; apply NoDup_app; [exact Hl | repeat constructor; auto |].
  intros x Hx [<- | []]; contradiction.
Qed.

(** ** The visit catalog ([_fgcmMakeVisitCatalog]) *)

Lemma readonly_firstCcdWithSrc v ccds :
  readonly (Fgcmcal.firstCcdWithSrc v ccds).
Proof. induction ccds as [| c ccds IH]; simpl; ro. Qed.

#[export] Hint Resolve readonly_firstCcdWithSrc : readonly.

Lemma readonly_fgcmcal_findVisits cfg refs n :
  readonly (Fgcmcal.findVisits cfg refs n).
Proof. unfold Fgcmcal.findVisits; ro. Qed.

Lemma readonly_fgcmcal_readVisitInfo cs entry cat :
  readonly (Fgcmcal.readVisitInfo cs entry cat).
Proof. unfold Fgcmcal.readVisitInfo; ro. Qed.

#[export] Hint Resolve readonly_fgcmcal_findVisits
  readonly_fgcmcal_readVisitInfo : readonly.

Lemma newVisitRecord_ok v exp b b' rec :
  newVisitRecord v exp b = (b', Ok rec) ->
  b' = b /\ Visit.visit rec = v /\ Visit.filtername rec = filterName exp /\
  Visit.exptime rec = exposureTime exp /\
  (String.length (Visit.filtername rec) <= 2)%nat /\ np.in_int32 v.
Proof.
  unfold newVisitRecord, raise, ret.
  destruct (_ && _) eqn:E1; simpl; [| discriminate].
  destruct (String.length (filterName exp) <=? 2)%nat eqn:E2; simpl;
    [| discriminate].
  intros H; inversion H; subst; simpl.
  apply andb_true_iff in E1 as [Ea Eb].
  apply Z.leb_le in Ea; apply Z.ltb_lt in Eb; apply Nat.leb_le in E2.
  unfold np.in_int32; repeat split; auto.
Qed.

(** The exposure the loop reads for a visit: raw, else calexp, else the
    Butler's [NoResults]. *)
Lemma exposure_raw_then_calexp v c b :
  try_except (butler_get_raw v c) NoResults (butler_get_calexp v c) b =
  (b, match raw b v c with
      | Some e => Ok e
      | None => match calexp b v c with
                | Some e => Ok e
                | None => Raise NoResults
                end
      end).
Proof.
  unfold try_except, butler_get_raw, butler_get_calexp, of_option, ret, raise.
  destruct (raw b v c); [reflexivity |]; simpl.
  destruct (calexp b v c); reflexivity.
Qed.

Lemma fgcmcal_readVisitInfo_ok cs i v acc b b1 acc1 :
  Fgcmcal.readVisitInfo cs (i, v) acc b = (b1, Ok acc1) ->
  b1 = b /\
  exists ccd exp rec,
    nth_error cs i = Some ccd /\
    (raw b v ccd = Some exp \/ (raw b v ccd = None /\ calexp b v ccd = Some exp)) /\
    newVisitRecord v exp b = (b, Ok rec) /\
    acc1 = acc ++ [rec].
Proof.
  unfold Fgcmcal.readVisitInfo, index; intros H.
  rewrite bind_readonly in H by ro.
  unfold result, of_option in H.
  destruct (nth_error cs i) as [ccd |] eqn:Ec; simpl in H; [| discriminate].
  rewrite bind_readonly in H by ro.
  unfold result in H; rewrite exposure_raw_then_calexp in H; simpl in H.
  destruct (match raw b v ccd with Some _ => _ | None => _ end)
    as [exp | e] eqn:Eexp; [| discriminate].
  rewrite bind_readonly in H by ro.
  destruct (result (newVisitRecord v exp) b) as [rec | e] eqn:Erec;
    [| discriminate].
  unfold ret in H; injection H as <- <-.
  split; [reflexivity |].
  exists ccd, exp, rec; repeat split; auto.
  - destruct (raw b v ccd) as [e |].
    + left; inversion Eexp; reflexivity.
    + right; destruct (calexp b v ccd); inversion Eexp; auto.
  - rewrite (readonly_eq b (readonly_newVisitRecord v exp)), Erec; reflexivity.
Qed.

Lemma fgcmcal_visit_loop_visits cs b :
  forall todo acc b' cat,
    for_in todo (Fgcmcal.readVisitInfo cs) acc b = (b', Ok cat) ->
    visits cat = visits acc ++ map snd todo /\
    (Forall (fun r => (String.length (Visit.filtername r) <= 2)%nat) acc ->
     Forall (fun r => (String.length (Visit.filtername r) <= 2)%nat) cat).
Proof.
  induction todo as [| [i v] todo IH]; simpl; intros acc b' cat H.
  - inversion H; subst; rewrite app_nil_r; auto.
  - apply bind_inv in H as [(e & _ & He) | (b1 & acc1 & H1 & H)];
      [discriminate |].
    apply fgcmcal_readVisitInfo_ok in H1
      as (-> & ccd & exp & rec & _ & _ & Hrec & ->).
    apply newVisitRecord_ok in Hrec as (_ & Hv & _ & _ & Hlen & _).
    apply IH in H as [Hvis Hall]; split.
    + rewrite Hvis; unfold visits; rewrite map_app; simpl.
      rewrite Hv, <- app_assoc; reflexivity.
    + intros Hacc; apply Hall, Forall_app; split; [exact Hacc |].
      constructor; [exact Hlen | constructor].
Qed.

Lemma map_snd_enumerate {A} (l : list A) : map snd (enumerate l) = l.
Proof.
  unfold enumerate; generalize 0%nat.
  induction l as [| h t IH]; intros n; simpl; [| rewrite IH]; reflexivity.
Qed.

(** The shape of [_fgcmMakeVisitCatalog]: everything before the single
    [butler.put] only reads. *)
Lemma fgcmcal_makeVisitCatalog_eq cfg refs b :
  Fgcmcal._fgcmMakeVisitCatalog cfg refs b =
  match result (Fgcmcal.findVisits cfg refs (List.length (camera b))) b with
  | Raise e => (b, Raise e)
  | Ok (vs, cs) =>
      match result (for_in (enumerate (list_sort vs))
                           (Fgcmcal.readVisitInfo cs) []) b with
      | Raise e => (b, Raise e)
      | Ok cat => (fst (butler_put_fgcmVisitCatalog cat b), Ok cat)
      end
  end.
Proof.
  unfold Fgcmcal._fgcmMakeVisitCatalog.
  rewrite bind_readonly by ro; unfold result at 1; simpl.
  rewrite bind_readonly by ro.
  destruct (result _ b) as [[vs cs] | e]; [| reflexivity].
  rewrite bind_readonly by ro.
  destruct (result _ b) as [cat | e]; reflexivity.
Qed.

Lemma fgcmcal_findVisits_NoDup cfg n b b' vs cs :
  checkAllCcds cfg = true ->
  Fgcmcal.findVisits cfg [] n b = (b', Ok (vs, cs)) ->
  NoDup vs.
Proof.
  unfold Fgcmcal.findVisits; simpl; intros -> H; simpl in H.
  apply bind_inv in H as [(e & _ & He) | (b1 & all & _ & H)];
    [discriminate |].
  revert H.
  apply (for_in_inv (fun p : list Z * list Z => NoDup (fst p)))
    with (s' := (vs, cs)); [| constructor].
  intros [v f] [vs0 cs0] b0 b2 [vs1 cs1] Hs; simpl in *.
  destruct (contains v vs0) eqn:Ec.
  - intros H; inversion H; subst; exact Hs.
  - intros H.
    apply bind_inv in H as [(e & _ & He) | (b3 & found & _ & H)];
      [discriminate |].
    destruct found; inversion H; subst; simpl; [| exact Hs].
    apply NoDup_snoc; [exact Hs |].
    rewrite <- contains_In, Ec; discriminate.
Qed.

Lemma In_enumerate_from {A} (l : list A) i v : forall n,
  In (i, v) (combine (seq n (List.length l)) l) <->
  (n <= i)%nat /\ nth_error l (i - n) = Some v.
Proof.
  induction l as [| h t IH]; intros n; simpl.
  - split; [intros [] | intros [_ H]]; destruct (i - n)%nat; discriminate.
  - rewrite IH; split.
    + intros [H | [Hle H]].
      * inversion H; subst; rewrite Nat.sub_diag; auto.
      * split; [lia |].
        replace (i - n)%nat with (S (i - S n)) by lia; exact H.
    + intros [Hle H]; destruct (i - n)%nat as [| k] eqn:E.
      * left; inversion H; subst; f_equal; lia.
      * right; split; [lia |].
        replace (i - S n)%nat with k by lia; exact H.
Qed.

Lemma In_enumerate {A} (l : list A) i v :
  In (i, v) (enumerate l) <-> nth_error l i = Some v.
Proof.
  unfold enumerate; rewrite In_enumerate_from, Nat.sub_0_r.
  split; [intros [_ H]; exact H | intros H; split; [lia | exact H]].
Qed.

(** An entry without raw and without calexp ends the loop with an
    exception, whatever was read before it. *)
Lemma fgcmcal_visit_loop_aborts cs b i v c :
  nth_error cs i = Some c -> raw b v c = None -> calexp b v c = None ->
  forall todo acc,
    In (i, v) todo ->
    exists e, for_in todo (Fgcmcal.readVisitInfo cs) acc b = (b, Raise e).
Proof.
  intros Hc Hraw Hcal; induction todo as [| [j w] todo IH]; intros acc Hin.
  - destruct Hin.
  - cbn [for_in]; rewrite bind_readonly by ro.
    destruct (result (Fgcmcal.readVisitInfo cs (j, w) acc) b)
      as [acc1 | e] eqn:E; [| eauto].
    destruct Hin as [Heq | Hin]; [| apply IH; exact Hin].
    inversion Heq; subst j w; exfalso.
    assert (H : Fgcmcal.readVisitInfo cs (i, v) acc b = (b, Ok acc1))
      by (rewrite (readonly_eq b (readonly_fgcmcal_readVisitInfo cs (i, v) acc)),
            E; reflexivity).
    apply fgcmcal_readVisitInfo_ok in H
      as (_ & ccd & exp & rec & Hccd & Hexp & _).
    rewrite Hc in Hccd; inversion Hccd; subst ccd.
    destruct Hexp as [H | [_ H]]; congruence.
Qed.

(** C3 (amended).  Whenever [_fgcmMakeVisitCatalog] of the fgcmcal variant
    completes, the catalog it returns is the one it persisted, its visit
    numbers are the visits found, rearranged in ascending order; they are
    strictly ascending, each at most once, as soon as no visit was found
    twice, which the scan over all CCDs guarantees. *)
Theorem visit_catalog_sorted cfg dataRefs b b' visitCat :
  Fgcmcal._fgcmMakeVisitCatalog cfg dataRefs b = (b', Ok visitCat) ->
  visitCatalog b' = Some visitCat /\
  exists srcVisits srcCcds,
    Fgcmcal.findVisits cfg dataRefs (List.length (camera b)) b
      = (b, Ok (srcVisits, srcCcds)) /\
    Permutation (visits visitCat) srcVisits /\
    Sorted Z.le (visits visitCat) /\
    (NoDup srcVisits -> StronglySorted Z.lt (visits visitCat)) /\
    (dataRefs = [] -> checkAllCcds cfg = true -> NoDup srcVisits).
Proof.
  rewrite fgcmcal_makeVisitCatalog_eq.
  pose proof (readonly_eq b
    (readonly_fgcmcal_findVisits cfg dataRefs (List.length (camera b)))) as Hfv.
  destruct (result _ b) as [[vs cs] | e] eqn:Efv; [| discriminate].
  pose proof (readonly_eq b
    (readonly_for_in (enumerate (list_sort vs))
       (Fgcmcal.readVisitInfo cs)
       (fun x s => readonly_fgcmcal_readVisitInfo cs x s) [])) as Hloop.
  destruct (result (for_in _ _ _) b) as [cat | e] eqn:Eloop; [| discriminate].
  intros H; injection H as <- <-; split; [reflexivity |].
  exists vs, cs; split; [exact Hfv |].
  apply fgcmcal_visit_loop_visits in Hloop as [Hvis _].
  simpl in Hvis; rewrite map_snd_enumerate in Hvis; rewrite Hvis.
  repeat split.
  - apply list_sort_perm.
  - apply list_sort_Sorted.
  - intros Hn; apply Sorted_NoDup_strict; [apply list_sort_Sorted |].
    eapply Permutation_NoDup; [apply Permutation_sym, list_sort_perm | exact Hn].
  - intros -> Hall; eapply fgcmcal_findVisits_NoDup; eauto.
Qed.

Lemma visit_catalog_sorted_witness :
  visitCatalog
    (fst (butler_put_fgcmVisitCatalog [visitRecord_r 100; visitRecord_r 101]
            butler_raw))
  = Some [visitRecord_r 100; visitRecord_r 101] /\
  exists srcVisits srcCcds,
    Fgcmcal.findVisits config0 dataRefs_unordered
        (List.length (camera butler_raw)) butler_raw
      = (butler_raw, Ok (srcVisits, srcCcds)) /\
    Permutation (visits [visitRecord_r 100; visitRecord_r 101]) srcVisits /\
    Sorted Z.le (visits [visitRecord_r 100; visitRecord_r 101]) /\
    (NoDup srcVisits ->
     StronglySorted Z.lt (visits [visitRecord_r 100; visitRecord_r 101])) /\
    (dataRefs_unordered = [] -> checkAllCcds config0 = true -> NoDup srcVisits).
Proof.
  apply (@visit_catalog_sorted config0 dataRefs_unordered butler_raw).
  reflexivity.
Defined.

(** C3 as worded fails: a data reference given twice yields two rows of the
    same visit, so the persisted catalog is not strictly ascending. *)
Lemma visit_catalog_repeats_visit :
  ~ visit_catalog_strictly_ascending config0 dataRefs_twice butler_raw.
Proof.
  intros H.
  destruct (H (fst (butler_put_fgcmVisitCatalog
                      [visitRecord_r 100; visitRecord_r 100] butler_raw))
              [visitRecord_r 100; visitRecord_r 100] eq_refl) as [_ Hs].
  inversion Hs as [| ? ? _ Hall]; subst.
  inversion Hall as [| ? ? Hlt _]; subst.
  simpl in Hlt; lia.
Qed.

(** C9 (amended).  The loop asks the Butler for the raw exposure first and
    for the calexp only when there is no raw; when a visit found has
    neither, the stage ends with an exception and the Butler is left as it
    was, with no visit catalog written. *)
Theorem visit_exposure_raw_then_calexp cfg dataRefs b srcVisits srcCcds i v c :
  Fgcmcal.findVisits cfg dataRefs (List.length (camera b)) b
    = (b, Ok (srcVisits, srcCcds)) ->
  nth_error (list_sort srcVisits) i = Some v ->
  nth_error srcCcds i = Some c ->
  raw b v c = None ->
  calexp b v c = None ->
  (forall v' c',
     try_except (butler_get_raw v' c') NoResults (butler_get_calexp v' c') b =
     (b, match raw b v' c' with
         | Some e => Ok e
         | None => match calexp b v' c' with
                   | Some e => Ok e
                   | None => Raise NoResults
                   end
         end)) /\
  exists e, Fgcmcal._fgcmMakeVisitCatalog cfg dataRefs b = (b, Raise e).
Proof.
  intros Hfv Hv Hc Hraw Hcal; split.
  - intros v' c'; apply exposure_raw_then_calexp.
  - rewrite fgcmcal_makeVisitCatalog_eq.
    unfold result at 1; rewrite Hfv; simpl.
    destruct (@fgcmcal_visit_loop_aborts srcCcds b i v c Hc Hraw Hcal
                (enumerate (list_sort srcVisits)) []) as [e He].
    { apply In_enumerate; exact Hv. }
    unfold result; rewrite He; simpl; eauto.
Qed.

Lemma visit_exposure_raw_then_calexp_witness :
  (forall v' c',
     try_except (butler_get_raw v' c') NoResults (butler_get_calexp v' c')
       butler_no_exposure =
     (butler_no_exposure,
      match raw butler_no_exposure v' c' with
      | Some e => Ok e
      | None => match calexp butler_no_exposure v' c' with
                | Some e => Ok e
                | None => Raise NoResults
                end
      end)) /\
  exists e,
    Fgcmcal._fgcmMakeVisitCatalog config0 [] butler_no_exposure
    = (butler_no_exposure, Raise e).
Proof.
  apply (@visit_exposure_raw_then_calexp config0 [] butler_no_exposure
           [100%Z] [13%Z] 0%nat 100%Z 13%Z); reflexivity.
Defined.

(** C9 as worded fails: the visit without raw and calexp is not left out of
    a catalog, the stage raises [NoResults] and persists nothing. *)
Lemma visit_without_exposure_aborts :
  ~ visit_without_exposure_is_omitted config0 [] butler_no_exposure 100%Z.
Proof.
  intros (b' & cat & H & _).
  assert (E : Fgcmcal._fgcmMakeVisitCatalog config0 [] butler_no_exposure
              = (butler_no_exposure, Raise NoResults)) by reflexivity.
  rewrite E in H; discriminate.
Qed.

(** ** The observation catalog ([_fgcmMakeAllStarObservations]) *)

(** A loop whose body only reads and always yields [f x s]. *)
Lemma for_in_fold {A S} (P : S -> Prop) (body : A -> S -> Task S)
    (f : A -> S -> S) b xs :
  (forall x s, In x xs -> P s -> body x s b = (b, Ok (f x s)) /\ P (f x s)) ->
  forall s, P s ->
    for_in xs body s b = (b, Ok (fold_left (fun s x => f x s) xs s)) /\
    P (fold_left (fun s x => f x s) xs s).
Proof.
  induction xs as [| x xs IH]; intros Hbody s Hs; simpl.
  - split; [reflexivity | exact Hs].
  - destruct (Hbody x s (or_introl eq_refl) Hs) as [E Hs'].
    erewrite bind_ok by exact E.
    apply IH; [| exact Hs'].
    intros y s0 Hy; apply Hbody; right; exact Hy.
Qed.

(** A loop that completed, with a body that only reads and yields [f x s]
    whenever it completes. *)
Lemma for_in_fold_ok {A S} (P : S -> Prop) (body : A -> S -> Task S)
    (f : A -> S -> S) b :
  (forall x s b' s', P s -> body x s b = (b', Ok s') ->
     b' = b /\ s' = f x s /\ P s') ->
  forall xs s b' s',
    P s -> for_in xs body s b = (b', Ok s') ->
    b' = b /\ s' = fold_left (fun s x => f x s) xs s /\ P s'.
Proof.
  intros Hbody; induction xs as [| x xs IH]; simpl; intros s b' s' Hs H.
  - injection H as <- <-; auto.
  - apply bind_inv in H as [(e & _ & He) | (b1 & s1 & H1 & H)];
      [discriminate |].
    destruct (Hbody _ _ _ _ Hs H1) as (-> & -> & Hs1).
    apply IH; assumption.
Qed.

Lemma bound_extended l t : bound l -> bound (extended l t).
Proof. destruct t; simpl; [reflexivity | auto]. Qed.

Lemma rowsOf_extended l t :
  rowsOf (extended l t) = rowsOf l ++ match t with Some r => r | None => [] end.
Proof. destruct t; simpl; [reflexivity | rewrite app_nil_r; reflexivity]. Qed.

Lemma started_extended l t :
  started (extended l t) = started l || is_some t.
Proof.
  destruct t; simpl; [rewrite orb_true_r | rewrite orb_false_r]; reflexivity.
Qed.

(** The loop body of the fgcmcal variant, in one step. *)
Lemma fgcmcal_readDetector_eq cfg sel visit ccdId l b :
  bound l ->
  Fgcmcal.readDetector cfg sel visit ccdId l b =
  (b, Ok (extended l (detectorTempCat (fgcmcal_tempCat cfg sel) b visit ccdId))).
Proof.
  unfold bound, Fgcmcal.readDetector, detectorTempCat, fgcmcal_tempCat.
  intros Hl.
  unfold bind at 1, try_except, bind, butler_get_src, of_option, ret, raise.
  destruct (src b (Visit.visit visit) ccdId) as [sources |]; simpl;
    [| reflexivity].
  destruct l as [st full]; simpl in *.
  destruct st; simpl.
  - destruct full as [full |]; [reflexivity | discriminate].
  - destruct full; [discriminate | reflexivity].
Qed.

(** The loop body of the fgcm variant: it first asks for the raw data
    reference. *)
Lemma fgcm_readDetector_eq cfg visit ccdId l b :
  bound l ->
  Fgcm.readDetector cfg visit ccdId l b =
  if is_some (raw b (Visit.visit visit) ccdId)
  then (b, Ok (extended l (detectorTempCat (fgcm_tempCat cfg) b visit ccdId)))
  else (b, Raise RuntimeError).
Proof.
  unfold bound, Fgcm.readDetector, detectorTempCat, fgcm_tempCat.
  intros Hl.
  unfold bind at 1, Fgcm.butler_dataRef_raw.
  destruct (is_some (raw b (Visit.visit visit) ccdId)); [| reflexivity].
  unfold bind at 1, try_except, bind, butler_get_src, of_option, ret, raise.
  destruct (src b (Visit.visit visit) ccdId) as [sources |]; simpl;
    [| reflexivity].
  destruct l as [st full]; simpl in *.
  destruct st; simpl.
  - destruct full as [full |]; [reflexivity | discriminate].
  - destruct full; [discriminate | reflexivity].
Qed.

(** The locals after the scan of all detectors of a visit, and of all
    visits. *)
Lemma rowsOf_fold_detectors mk b visit ccds : forall l,
  let l' := fold_left
              (fun l c => extended l (detectorTempCat mk b visit c)) ccds l in
  rowsOf l' = rowsOf l ++ flat_map (detectorRows mk b visit) ccds /\
  started l' = started l
               || existsb (fun c => is_some (src b (Visit.visit visit) c)) ccds.
Proof.
  induction ccds as [| c ccds IH]; intros l; simpl.
  - rewrite app_nil_r, orb_false_r; auto.
  - destruct (IH (extended l (detectorTempCat mk b visit c))) as [Hr Hs].
    simpl in Hr, Hs; rewrite Hr, Hs, rowsOf_extended, started_extended.
    unfold detectorRows, detectorTempCat.
    destruct (src b (Visit.visit visit) c); simpl;
      rewrite <- app_assoc; destruct (started l); auto.
Qed.

Lemma rowsOf_fold_visits mk b visitCat : forall l,
  let scan := fun l visit =>
                fold_left
                  (fun l c => extended l (detectorTempCat mk b visit c))
                  (camera b) l in
  let l' := fold_left scan visitCat l in
  rowsOf l' = rowsOf l ++ allRows mk b visitCat /\
  started l' = started l || anySrc b visitCat.
Proof.
  induction visitCat as [| visit visitCat IH]; intros l; simpl.
  - rewrite app_nil_r, orb_false_r; auto.
  - destruct (rowsOf_fold_detectors mk b visit (camera b) l) as [Hr1 Hs1].
    simpl in Hr1, Hs1.
    match goal with
    | |- context [fold_left _ visitCat ?l1] =>
        destruct (IH l1) as [Hr Hs]
    end.
    simpl in Hr, Hs; rewrite Hr, Hs, Hr1, Hs1.
    unfold visitRows; rewrite <- app_assoc; destruct (started l); auto.
Qed.

Lemma bound_fold_detectors mk b visit ccds : forall l,
  bound l ->
  bound (fold_left
           (fun l c => extended l (detectorTempCat mk b visit c)) ccds l).
Proof.
  induction ccds as [| c ccds IH]; intros l Hl; simpl; [exact Hl |].
  apply IH, bound_extended, Hl.
Qed.

Lemma fgcmcal_readAllSources_eq cfg sel visitCat b :
  exists l,
    Fgcmcal.readAllSources cfg sel (camera b) visitCat b = (b, Ok l) /\
    bound l /\
    rowsOf l = allRows (fgcmcal_tempCat cfg sel) b visitCat /\
    started l = anySrc b visitCat.
Proof.
  set (mk := fgcmcal_tempCat cfg sel).
  set (scan := fun l visit =>
                 fold_left (fun l c => extended l (detectorTempCat mk b visit c))
                           (camera b) l).
  set (l0 := {| started := false; fullCatalog := None |}).
  assert (H0 : bound l0) by reflexivity.
  destruct (@for_in_fold _ _ bound
              (fun visit l => for_in (camera b) (Fgcmcal.readDetector cfg sel visit) l)
              (fun visit l => scan l visit) b visitCat) with (s := l0)
    as [E Hb]; [| exact H0 |].
  - intros visit l _ Hl.
    destruct (@for_in_fold _ _ bound (Fgcmcal.readDetector cfg sel visit)
                (fun c l => extended l (detectorTempCat mk b visit c))
                b (camera b)) with (s := l) as [E Hb]; [| exact Hl | auto].
    intros c l1 _ Hl1; split;
      [apply fgcmcal_readDetector_eq; exact Hl1 | apply bound_extended, Hl1].
  - exists (fold_left scan visitCat l0); split; [exact E |].
    split; [exact Hb |].
    destruct (rowsOf_fold_visits mk b visitCat l0) as [Hr Hs]; auto.
Qed.

(** [_fgcmMakeAllStarObservations] of the fgcmcal variant in one step: the
    rows of all (visit, CCD) pairs in scan order are put once, unless no
    pair had a [src] catalog. *)
Lemma fgcmcal_makeAllStarObservations_eq cfg sel visitCat b :
  Fgcmcal._fgcmMakeAllStarObservations cfg sel visitCat b =
  if anySrc b visitCat
  then (fst (butler_put_fgcmStarObservations
               (allRows (fgcmcal_tempCat cfg sel) b visitCat) b), Ok tt)
  else (b, Raise UnboundLocalError).
Proof.
  unfold Fgcmcal._fgcmMakeAllStarObservations.
  rewrite bind_readonly by ro; unfold result at 1; simpl.
  destruct (fgcmcal_readAllSources_eq cfg sel visitCat b)
    as (l & E & Hb & Hr & Hs).
  erewrite bind_ok by exact E.
  unfold bound in Hb; rewrite Hs in Hb; unfold rowsOf in Hr.
  destruct (fullCatalog l) as [full |] eqn:Ef; simpl in Hb; rewrite Hb.
  - unfold bind, of_option, ret; subst full; reflexivity.
  - reflexivity.
Qed.

Lemma readonly_fgcm_readDetector cfg visit ccdId l :
  readonly (Fgcm.readDetector cfg visit ccdId l).
Proof.
  unfold Fgcm.readDetector; apply readonly_bind.
  - intros b; unfold Fgcm.butler_dataRef_raw; destruct (is_some _); reflexivity.
  - intros _; ro.
Qed.

Lemma readonly_fgcm_readAllSources cfg camera visitCat :
  readonly (Fgcm.readAllSources cfg camera visitCat).
Proof.
  unfold Fgcm.readAllSources; apply readonly_for_in; intros visit l.
  apply readonly_for_in; intros c l1; apply readonly_fgcm_readDetector.
Qed.

Lemma fgcm_readAllSources_ok cfg visitCat b b' l :
  Fgcm.readAllSources cfg (camera b) visitCat b = (b', Ok l) ->
  b' = b /\ bound l /\
  rowsOf l = allRows (fgcm_tempCat cfg) b visitCat /\
  started l = anySrc b visitCat.
Proof.
  set (mk := fgcm_tempCat cfg).
  set (scan := fun l visit =>
                 fold_left (fun l c => extended l (detectorTempCat mk b visit c))
                           (camera b) l).
  set (l0 := {| started := false; fullCatalog := None |}).
  intros H.
  apply (@for_in_fold_ok _ _ bound
           (fun visit l => for_in (camera b) (Fgcm.readDetector cfg visit) l)
           (fun visit l => scan l visit) b) in H as (-> & -> & Hb);
    [| | reflexivity].
  - split; [reflexivity |]; split; [exact Hb |].
    destruct (rowsOf_fold_visits mk b visitCat l0) as [Hr Hs]; auto.
  - intros visit l1 b1 l2 Hl1 H1.
    apply (@for_in_fold_ok _ _ bound (Fgcm.readDetector cfg visit)
             (fun c l => extended l (detectorTempCat mk b visit c)) b)
      in H1 as (-> & -> & Hb); auto.
    intros c l3 b3 l4 Hl3 H3.
    rewrite fgcm_readDetector_eq in H3 by exact Hl3.
    destruct (is_some (raw b (Visit.visit visit) c)); [| discriminate].
    injection H3 as <- <-; repeat split; apply bound_extended, Hl3.
Qed.

Lemma fgcm_readAllSources_eq cfg visitCat b :
  allRaw b visitCat ->
  exists l,
    Fgcm.readAllSources cfg (camera b) visitCat b = (b, Ok l) /\
    bound l /\
    rowsOf l = allRows (fgcm_tempCat cfg) b visitCat /\
    started l = anySrc b visitCat.
Proof.
  intros Hraw.
  set (mk := fgcm_tempCat cfg).
  set (scan := fun l visit =>
                 fold_left (fun l c => extended l (detectorTempCat mk b visit c))
                           (camera b) l).
  set (l0 := {| started := false; fullCatalog := None |}).
  assert (H0 : bound l0) by reflexivity.
  destruct (@for_in_fold _ _ bound
              (fun visit l => for_in (camera b) (Fgcm.readDetector cfg visit) l)
              (fun visit l => scan l visit) b visitCat) with (s := l0)
    as [E Hb]; [| exact H0 |].
  - intros visit l Hv Hl.
    destruct (@for_in_fold _ _ bound (Fgcm.readDetector cfg visit)
                (fun c l => extended l (detectorTempCat mk b visit c))
                b (camera b)) with (s := l) as [E Hb]; [| exact Hl | auto].
    intros c l1 Hc Hl1; split; [| apply bound_extended, Hl1].
    rewrite fgcm_readDetector_eq by exact Hl1.
    specialize (Hraw visit c Hv Hc).
    destruct (raw b (Visit.visit visit) c); [reflexivity | contradiction].
  - exists (fold_left scan visitCat l0); split; [exact E |].
    split; [exact Hb |].
    destruct (rowsOf_fold_visits mk b visitCat l0) as [Hr Hs]; auto.
Qed.

(** [_fgcmMakeAllStarObservations] of the fgcm variant, when it completes. *)
Lemma fgcm_makeAllStarObservations_ok cfg visitCat b b' :
  Fgcm._fgcmMakeAllStarObservations cfg visitCat b = (b', Ok tt) ->
  anySrc b visitCat = true /\
  b' = fst (butler_put_fgcmStarObservations
              (allRows (fgcm_tempCat cfg) b visitCat) b).
Proof.
  unfold Fgcm._fgcmMakeAllStarObservations.
  rewrite bind_readonly by ro; unfold result at 1; simpl.
  intros H.
  apply bind_inv in H as [(e & _ & He) | (b1 & l & H1 & H)]; [discriminate |].
  apply fgcm_readAllSources_ok in H1 as (-> & Hb & Hr & Hs).
  unfold bound in Hb; rewrite Hs in Hb; unfold rowsOf in Hr.
  destruct (fullCatalog l) as [full |] eqn:Ef; simpl in Hb.
  - split; [exact Hb |].
    unfold bind, of_option, ret in H; simpl in H.
    injection H as <-; subst full; reflexivity.
  - unfold bind, of_option, raise in H; discriminate.
Qed.

(** ... and when every pair of the scan names a raw dataset. *)
Lemma fgcm_makeAllStarObservations_eq cfg visitCat b :
  allRaw b visitCat ->
  Fgcm._fgcmMakeAllStarObservations cfg visitCat b =
  if anySrc b visitCat
  then (fst (butler_put_fgcmStarObservations
               (allRows (fgcm_tempCat cfg) b visitCat) b), Ok tt)
  else (b, Raise UnboundLocalError).
Proof.
  intros Hraw; unfold Fgcm._fgcmMakeAllStarObservations.
  rewrite bind_readonly by ro; unfold result at 1; simpl.
  destruct (fgcm_readAllSources_eq cfg Hraw) as (l & E & Hb & Hr & Hs).
  erewrite bind_ok by exact E.
  unfold bound in Hb; rewrite Hs in Hb; unfold rowsOf in Hr.
  destruct (fullCatalog l) as [full |] eqn:Ef; simpl in Hb; rewrite Hb.
  - unfold bind, of_option, ret; subst full; reflexivity.
  - reflexivity.
Qed.

(** Either variant leaves the Butler untouched when the stage raises. *)
Lemma fgcm_makeAllStarObservations_raise cfg visitCat b b' e :
  Fgcm._fgcmMakeAllStarObservations cfg visitCat b = (b', Raise e) -> b' = b.
Proof.
  unfold Fgcm._fgcmMakeAllStarObservations.
  rewrite bind_readonly by ro; unfold result at 1; simpl.
  rewrite bind_readonly by apply readonly_fgcm_readAllSources.
  destruct (result _ b) as [l | e1]; [| intros H; injection H as <-; auto].
  rewrite bind_readonly by ro.
  destruct (result _ b) as [full | e1]; intros H; [discriminate |].
  injection H as <-; auto.
Qed.

(** ** Bounds on logarithms *)

Section RealBounds.

Local Open Scope R_scope.

Lemma exp_double_lower x q q' :
  0 <= q -> q <= exp x -> q' <= q * q -> q' <= exp (x + x).
Proof.
  intros Hq Hx Hq'; rewrite exp_plus.
  apply Rle_trans with (q * q); [exact Hq' |].
  apply Rmult_le_compat; assumption.
Qed.

Lemma exp_288_125_gt_10 : 10 < exp (288 / 125).
Proof.
  assert (H0 : 16009 / 16000 <= exp (288 / 125 / 4096))
    by (pose proof (exp_ineq1_le (288 / 125 / 4096)); lra).
  assert (H1 : 5005626582031 / 5000000000000 <= exp (288 / 125 / 2048)).
  { replace (288 / 125 / 2048) with ((288 / 125 / 4096) + (288 / 125 / 4096)) by lra.
    apply exp_double_lower with (q := 16009 / 16000); [lra | exact H0 | lra]. }
  assert (H2 : 5011259495747 / 5000000000000 <= exp (288 / 125 / 1024)).
  { replace (288 / 125 / 1024) with ((288 / 125 / 2048) + (288 / 125 / 2048)) by lra.
    apply exp_double_lower with (q := 5005626582031 / 5000000000000); [lra | exact H1 | lra]. }
  assert (H3 : 2009017738697 / 2000000000000 <= exp (288 / 125 / 512)).
  { replace (288 / 125 / 512) with ((288 / 125 / 1024) + (288 / 125 / 1024)) by lra.
    apply exp_double_lower with (q := 5011259495747 / 5000000000000); [lra | exact H2 | lra]. }
  assert (H4 : 5045190342999 / 5000000000000 <= exp (288 / 125 / 256)).
  { replace (288 / 125 / 256) with ((288 / 125 / 512) + (288 / 125 / 512)) by lra.
    apply exp_double_lower with (q := 2009017738697 / 2000000000000); [lra | exact H3 | lra]. }
  assert (H5 : 2545394559709 / 2500000000000 <= exp (288 / 125 / 128)).
  { replace (288 / 125 / 128) with ((288 / 125 / 256) + (288 / 125 / 256)) by lra.
    apply exp_double_lower with (q := 5045190342999 / 5000000000000); [lra | exact H4 | lra]. }
  assert (H6 : 10366453543353 / 10000000000000 <= exp (288 / 125 / 64)).
  { replace (288 / 125 / 64) with ((288 / 125 / 128) + (288 / 125 / 128)) by lra.
    apply exp_double_lower with (q := 2545394559709 / 2500000000000); [lra | exact H5 | lra]. }
  assert (H7 : 10746335906649 / 10000000000000 <= exp (288 / 125 / 32)).
  { replace (288 / 125 / 32) with ((288 / 125 / 64) + (288 / 125 / 64)) by lra.
    apply exp_double_lower with (q := 10366453543353 / 10000000000000); [lra | exact H6 | lra]. }
  assert (H8 : 11548373541853 / 10000000000000 <= exp (288 / 125 / 16)).
  { replace (288 / 125 / 16) with ((288 / 125 / 32) + (288 / 125 / 32)) by lra.
    apply exp_double_lower with (q := 10746335906649 / 10000000000000); [lra | exact H7 | lra]. }
  assert (H9 : 13336493146217 / 10000000000000 <= exp (288 / 125 / 8)).
  { replace (288 / 125 / 8) with ((288 / 125 / 16) + (288 / 125 / 16)) by lra.
    apply exp_double_lower with (q := 11548373541853 / 10000000000000); [lra | exact H8 | lra]. }
  assert (H10 : 17786204943909 / 10000000000000 <= exp (288 / 125 / 4)).
  { replace (288 / 125 / 4) with ((288 / 125 / 8) + (288 / 125 / 8)) by lra.
    apply exp_double_lower with (q := 13336493146217 / 10000000000000); [lra | exact H9 | lra]. }
  assert (H11 : 31634908630673 / 10000000000000 <= exp (288 / 125 / 2)).
  { replace (288 / 125 / 2) with ((288 / 125 / 4) + (288 / 125 / 4)) by lra.
    apply exp_double_lower with (q := 17786204943909 / 10000000000000); [lra | exact H10 | lra]. }
  assert (H12 : 50038372203551 / 5000000000000 <= exp (288 / 125)).
  { replace (288 / 125) with ((288 / 125 / 2) + (288 / 125 / 2)) by lra.
    apply exp_double_lower with (q := 31634908630673 / 10000000000000); [lra | exact H11 | lra]. }
  lra.
Qed.

Lemma exp_neg_23_gt_tenth : 1 / 10 < exp (- 23 / 10).
Proof.
  assert (H0 : 40937 / 40960 <= exp (- 23 / 10 / 4096))
    by (pose proof (exp_ineq1_le (- 23 / 10 / 4096)); lra).
  assert (H1 : 1997754536867 / 2000000000000 <= exp (- 23 / 10 / 2048)).
  { replace (- 23 / 10 / 2048) with ((- 23 / 10 / 4096) + (- 23 / 10 / 4096)) by lra.
    apply exp_double_lower with (q := 40937 / 40960); [lra | exact H0 | lra]. }
  assert (H2 : 9977557973931 / 10000000000000 <= exp (- 23 / 10 / 1024)).
  { replace (- 23 / 10 / 1024) with ((- 23 / 10 / 2048) + (- 23 / 10 / 2048)) by lra.
    apply exp_double_lower with (q := 1997754536867 / 2000000000000); [lra | exact H1 | lra]. }
  assert (H3 : 1991033262463 / 2000000000000 <= exp (- 23 / 10 / 512)).
  { replace (- 23 / 10 / 512) with ((- 23 / 10 / 1024) + (- 23 / 10 / 1024)) by lra.
    apply exp_double_lower with (q := 9977557973931 / 10000000000000); [lra | exact H2 | lra]. }
  assert (H4 : 1982106726117 / 2000000000000 <= exp (- 23 / 10 / 256)).
  { replace (- 23 / 10 / 256) with ((- 23 / 10 / 512) + (- 23 / 10 / 512)) by lra.
    apply exp_double_lower with (q := 1991033262463 / 2000000000000); [lra | exact H3 | lra]. }
  assert (H5 : 1964373536859 / 2000000000000 <= exp (- 23 / 10 / 128)).
  { replace (- 23 / 10 / 128) with ((- 23 / 10 / 256) + (- 23 / 10 / 256)) by lra.
    apply exp_double_lower with (q := 1982106726117 / 2000000000000); [lra | exact H4 | lra]. }
  assert (H6 : 9646908480779 / 10000000000000 <= exp (- 23 / 10 / 64)).
  { replace (- 23 / 10 / 64) with ((- 23 / 10 / 128) + (- 23 / 10 / 128)) by lra.
    apply exp_double_lower with (q := 1964373536859 / 2000000000000); [lra | exact H5 | lra]. }
  assert (H7 : 2326571080913 / 2500000000000 <= exp (- 23 / 10 / 32)).
  { replace (- 23 / 10 / 32) with ((- 23 / 10 / 64) + (- 23 / 10 / 64)) by lra.
    apply exp_double_lower with (q := 9646908480779 / 10000000000000); [lra | exact H6 | lra]. }
  assert (H8 : 1732138558253 / 2000000000000 <= exp (- 23 / 10 / 16)).
  { replace (- 23 / 10 / 16) with ((- 23 / 10 / 32) + (- 23 / 10 / 32)) by lra.
    apply exp_double_lower with (q := 2326571080913 / 2500000000000); [lra | exact H7 | lra]. }
  assert (H9 : 3750379981233 / 5000000000000 <= exp (- 23 / 10 / 8)).
  { replace (- 23 / 10 / 8) with ((- 23 / 10 / 16) + (- 23 / 10 / 16)) by lra.
    apply exp_double_lower with (q := 1732138558253 / 2000000000000); [lra | exact H8 | lra]. }
  assert (H10 : 5626140001453 / 10000000000000 <= exp (- 23 / 10 / 4)).
  { replace (- 23 / 10 / 4) with ((- 23 / 10 / 8) + (- 23 / 10 / 8)) by lra.
    apply exp_double_lower with (q := 3750379981233 / 5000000000000); [lra | exact H9 | lra]. }
  assert (H11 : 1582672565797 / 5000000000000 <= exp (- 23 / 10 / 2)).
  { replace (- 23 / 10 / 2) with ((- 23 / 10 / 4) + (- 23 / 10 / 4)) by lra.
    apply exp_double_lower with (q := 5626140001453 / 10000000000000); [lra | exact H10 | lra]. }
  assert (H12 : 100194098021 / 1000000000000 <= exp (- 23 / 10)).
  { replace (- 23 / 10) with ((- 23 / 10 / 2) + (- 23 / 10 / 2)) by lra.
    apply exp_double_lower with (q := 1582672565797 / 5000000000000); [lra | exact H11 | lra]. }
  lra.
Qed.

Lemma ln_10_bounds : 23 / 10 < ln 10 < 288 / 125.
Proof.
  split.
  - apply exp_lt_inv; rewrite exp_ln by lra.
    pose proof exp_neg_23_gt_tenth as H.
    replace (- 23 / 10) with (- (23 / 10)) in H by lra.
    rewrite exp_Ropp in H.
    assert (Hp : 0 < exp (23 / 10)) by apply exp_pos.
    apply Rmult_lt_reg_r with (/ exp (23 / 10)); [apply Rinv_0_lt_compat, Hp |].
    rewrite Rinv_r by lra. lra.
  - apply exp_lt_inv; rewrite exp_ln by lra. apply exp_288_125_gt_10.
Qed.

Lemma ln_10_pos : 0 < ln 10.
Proof. rewrite <- ln_1; apply ln_increasing; lra. Qed.
Lemma pow_lt_IZR (a b : Z) (n m : nat) :
  (a ^ Z.of_nat n < b ^ Z.of_nat m)%Z -> IZR a ^ n < IZR b ^ m.
Proof. intros H; rewrite !pow_IZR; apply IZR_lt; exact H. Qed.

Lemma log10_3_bounds : 52 / 109 < ln 3 / ln 10 < 21 / 44.
Proof.
  pose proof ln_10_pos as H10.
  assert (Hlo : ln (10 ^ 52) < ln (3 ^ 109)).
  { apply ln_increasing; [apply pow_lt; lra |].
    apply pow_lt_IZR; reflexivity. }
  assert (Hhi : ln (3 ^ 44) < ln (10 ^ 21)).
  { apply ln_increasing; [apply pow_lt; lra |].
    apply pow_lt_IZR; reflexivity. }
  rewrite !ln_pow in Hlo, Hhi by lra.
  rewrite !INR_IZR_INZ in Hlo, Hhi; simpl Z.of_nat in Hlo, Hhi.
  split.
  - apply Rmult_lt_reg_r with (ln 10); [exact H10 |].
    unfold Rdiv at 2; rewrite Rmult_assoc, Rinv_l by lra. lra.
  - apply Rmult_lt_reg_r with (ln 10); [exact H10 |].
    unfold Rdiv at 1; rewrite Rmult_assoc, Rinv_l by lra. lra.
Qed.

End RealBounds.

(** ** Magnitudes on finite values *)

Lemma log10_finite r :
  (0 < r)%R -> np.log10 (Finite r) = Finite (ln r / ln 10).
Proof.
  intros H; unfold np.log10; destruct (Rlt_dec 0 r); [reflexivity | contradiction].
Qed.

Lemma log_finite r : (0 < r)%R -> np.log (Finite r) = Finite (ln r).
Proof.
  intros H; unfold np.log; destruct (Rlt_dec 0 r); [reflexivity | contradiction].
Qed.

Lemma div_finite a c :
  c <> 0%R -> (Finite a / Finite c)%np = Finite (a / c).
Proof.
  intros H; unfold np.div; destruct (Req_dec_T c 0); [contradiction | reflexivity].
Qed.

Lemma lt_finite a c : (Finite a < Finite c)%np = true <-> (a < c)%R.
Proof.
  unfold np.lt; destruct (Rlt_dec a c); split; auto; discriminate.
Qed.

(** The instrumental magnitude of a positive flux and exposure time. *)
Lemma instMag_finite zp f t :
  (0 < f)%R -> (0 < t)%R ->
  instMag (Finite zp) (Finite f) (Finite t)
  = Finite (zp - 5 / 2 * (ln f / ln 10) + 5 / 2 * (ln t / ln 10)).
Proof.
  intros Hf Ht; unfold instMag.
  rewrite !log10_finite by assumption; reflexivity.
Qed.

Lemma jacobianCorrected_finite m j :
  (0 < j)%R ->
  jacobianCorrected (Finite m) (Finite j) = Finite (m - 5 / 2 * (ln j / ln 10)).
Proof.
  intros Hj; unfold jacobianCorrected; rewrite log10_finite by assumption.
  reflexivity.
Qed.

(** The magnitude error of a non-zero flux. *)
Lemma instMagErr_finite fe f :
  f <> 0%R ->
  instMagErr (Finite fe) (Finite f) = Finite (5 / 2 / ln 10 * (fe / f)).
Proof.
  intros Hf; unfold instMagErr.
  rewrite log_finite by lra.
  rewrite !div_finite; [reflexivity | exact Hf |].
  pose proof ln_10_pos; lra.
Qed.

(** Flux 1000, exposure time 30 and zero point 25 give a magnitude of
    21.193 to three decimals. *)
Lemma example_magnitude :
  exists m, instMag (Finite 25) (Finite 1000) (Finite 30) = Finite m /\
            (211926 / 10000 < m < 211932 / 10000)%R.
Proof.
  eexists; split; [apply instMag_finite; lra |].
  pose proof ln_10_pos as H10.
  pose proof log10_3_bounds as [Hlo Hhi].
  assert (E1 : (ln 1000 / ln 10 = 3)%R).
  { replace 1000%R with (10 ^ 3)%R by lra.
    rewrite ln_pow by lra; simpl INR; field; lra. }
  assert (E2 : (ln 30 / ln 10 = 1 + ln 3 / ln 10)%R).
  { replace 30%R with (3 * 10)%R by lra.
    rewrite ln_mult by lra; field; lra. }
  rewrite E1, E2; lra.
Qed.

(** Flux 1000 and flux error 50 give a magnitude error of 0.0543 to four
    decimals. *)
Lemma example_magnitude_error :
  exists e, instMagErr (Finite 50) (Finite 1000) = Finite e /\
            (5425 / 100000 < e < 5435 / 100000)%R.
Proof.
  eexists; split; [apply instMagErr_finite; lra |].
  pose proof ln_10_bounds as [Hlo Hhi].
  replace (5 / 2 / ln 10 * (50 / 1000))%R with (/ 8 * / ln 10)%R
    by (field; lra).
  assert (H1 : (/ (288 / 125) < / ln 10)%R)
    by (apply Rinv_lt_contravar; [apply Rmult_lt_0_compat |]; lra).
  assert (H2 : (/ ln 10 < / (23 / 10))%R)
    by (apply Rinv_lt_contravar; [apply Rmult_lt_0_compat |]; lra).
  lra.
Qed.

(** C2 as worded fails in its example: the magnitude of a detection of
    flux 1000 in a 30 s exposure with zero point 25 is below 21.2, so it is
    not 22.618. *)
Lemma example_magnitude_is_not_22_618 : ~ spec_example_magnitude.
Proof.
  intros (r & E & Hr).
  destruct example_magnitude as (m & Em & Hm).
  change (Obs.mag (Fgcmcal.observation config0 (visitRecord_r 100) 13 source_1000))
    with (instMag (Finite 25) (Finite 1000) (Finite 30)) in E.
  rewrite Em in E; injection E as <-.
  unfold Rabs in Hr; destruct (Rcase_abs _); lra.
Qed.

(** ** Rows of the observation catalog *)

Lemma In_allRows mk b visitCat row :
  In row (allRows mk b visitCat) <->
  exists visit ccdId sources,
    In visit visitCat /\ In ccdId (camera b) /\
    src b (Visit.visit visit) ccdId = Some sources /\
    In row (mk visit ccdId sources).
Proof.
  unfold allRows, visitRows, detectorRows, detectorTempCat.
  rewrite in_flat_map; split.
  - intros (visit & Hv & H); apply in_flat_map in H as (c & Hc & H).
    destruct (src b (Visit.visit visit) c) as [sources |] eqn:E; simpl in H;
      [| destruct H].
    exists visit, c, sources; auto.
  - intros (visit & c & sources & Hv & Hc & E & H).
    exists visit; split; [exact Hv |].
    apply in_flat_map; exists c; split; [exact Hc |].
    rewrite E; exact H.
Qed.

(** What a completed run of the fgcmcal stage has persisted. *)
Lemma fgcmcal_makeAllStarObservations_ok cfg sel visitCat b b' :
  Fgcmcal._fgcmMakeAllStarObservations cfg sel visitCat b = (b', Ok tt) ->
  anySrc b visitCat = true /\
  b' = fst (butler_put_fgcmStarObservations
              (allRows (fgcmcal_tempCat cfg sel) b visitCat) b).
Proof.
  rewrite fgcmcal_makeAllStarObservations_eq.
  destruct (anySrc b visitCat); intros H; [| discriminate].
  injection H as <-; auto.
Qed.

(** C2 (amended).  Every detection the selector keeps has a row in the
    persisted observation catalog whose magnitude is
    [zeropointDefault - 2.5 log10 flux + 2.5 log10 expTime], less
    [2.5 log10 jacobian] when the Jacobian correction is on, and whose
    magnitude error is [(2.5 / ln 10) (fluxErr / flux)]; flux 1000,
    exposure time 30 and zero point 25 give 21.193 (and not 22.618), flux
    error 50 gives 0.0543. *)
Theorem observation_magnitudes cfg sel visitCat b b' visit ccdId sources s :
  Fgcmcal._fgcmMakeAllStarObservations cfg sel visitCat b = (b', Ok tt) ->
  In visit visitCat ->
  In ccdId (camera b) ->
  src b (Visit.visit visit) ccdId = Some sources ->
  In s (sel sources) ->
  (exists obsCat row,
     starObservations b' = Some obsCat /\ In row obsCat /\
     Obs.visit row = Visit.visit visit /\
     Obs.ccd row = np.int32 ccdId /\
     Obs.mag row =
       (let mag := (zeropointDefault cfg
                    - Finite (5 / 2) * np.log10 (Src.apFlux s)
                    + Finite (5 / 2) * np.log10 (Visit.exptime visit))%np in
        if applyJacobian cfg
        then (mag - Finite (5 / 2) * np.log10 (Src.jacobian s))%np
        else mag) /\
     Obs.magerr row =
       (Finite (5 / 2) / np.log (Finite 10)
        * (Src.apFluxErr s / Src.apFlux s))%np) /\
  (exists m, instMag (Finite 25) (Finite 1000) (Finite 30) = Finite m /\
             (211926 / 10000 < m < 211932 / 10000)%R) /\
  (exists e, instMagErr (Finite 50) (Finite 1000) = Finite e /\
             (5425 / 100000 < e < 5435 / 100000)%R).
Proof.
  intros H Hv Hc Hsrc Hs.
  apply fgcmcal_makeAllStarObservations_ok in H as [_ ->].
  split; [| split; [apply example_magnitude | apply example_magnitude_error]].
  exists (allRows (fgcmcal_tempCat cfg sel) b visitCat),
         (Fgcmcal.observation cfg visit ccdId s).
  split; [reflexivity |]; split.
  - apply In_allRows; exists visit, ccdId, sources; repeat split; auto.
    unfold fgcmcal_tempCat; apply in_map; exact Hs.
  - repeat split.
Qed.

Lemma observation_magnitudes_witness :
  (exists obsCat row,
     starObservations
       (fst (butler_put_fgcmStarObservations
               (allRows (fgcmcal_tempCat config0 selectAll) butler_two_visits
                        visitCat_two)
               butler_two_visits)) = Some obsCat /\
     In row obsCat /\
     Obs.visit row = 100%Z /\
     Obs.ccd row = np.int32 13 /\
     Obs.mag row =
       (Finite 25 - Finite (5 / 2) * np.log10 (Finite 1000)
        + Finite (5 / 2) * np.log10 (Finite 30))%np /\
     Obs.magerr row =
       (Finite (5 / 2) / np.log (Finite 10) * (Finite 50 / Finite 1000))%np) /\
  (exists m, instMag (Finite 25) (Finite 1000) (Finite 30) = Finite m /\
             (211926 / 10000 < m < 211932 / 10000)%R) /\
  (exists e, instMagErr (Finite 50) (Finite 1000) = Finite e /\
             (5425 / 100000 < e < 5435 / 100000)%R).
Proof.
  apply (@observation_magnitudes config0 selectAll visitCat_two
           butler_two_visits _ (visitRecord_r 100) 13%Z
           [source_1000; source_1000; source_1000] source_1000).
  - reflexivity.
  - simpl; auto.
  - simpl; auto.
  - reflexivity.
  - simpl; auto.
Defined.

(** ** The magnitude-error cuts of the fgcm variant *)

Lemma magErr_scale_pos : (0 < 5 / 2 / ln 10)%R.
Proof.
  pose proof ln_10_pos; apply Rdiv_lt_0_compat; lra.
Qed.

Lemma magErr_scale_bounds :
  (5425 / 100000 < / 8 * / ln 10 < 5435 / 100000)%R.
Proof.
  pose proof ln_10_bounds as [Hlo Hhi].
  assert (H1 : (/ (288 / 125) < / ln 10)%R)
    by (apply Rinv_lt_contravar; [apply Rmult_lt_0_compat |]; lra).
  assert (H2 : (/ ln 10 < / (23 / 10))%R)
    by (apply Rinv_lt_contravar; [apply Rmult_lt_0_compat |]; lra).
  lra.
Qed.

Lemma DBL_MAX_ge_1 : (1 <= np.DBL_MAX)%R.
Proof.
  unfold np.DBL_MAX.
  assert (H1 : (1 <= 2 ^ 1023)%R) by (apply pow_R1_Rle; lra).
  assert (H2 : (1 <= 2 ^ 52)%R) by (apply pow_R1_Rle; lra).
  assert (H3 : (/ 2 ^ 52 <= 1)%R).
  { rewrite <- Rinv_1; apply Rinv_le_contravar; lra. }
  assert (H4 : (1 <= 2 - / 2 ^ 52)%R) by lra.
  replace 1%R with (1 * 1)%R by lra.
  apply Rmult_le_compat; lra.
Qed.

Lemma Rsign_pos r : (0 < r)%R -> np.Rsign r = Gt.
Proof.
  intros H; unfold np.Rsign; destruct (Rlt_dec 0 r); [reflexivity | contradiction].
Qed.

Lemma instMagErr_scale x y :
  instMagErr x y = (Finite (5 / 2 / ln 10) * (x / y))%np.
Proof.
  unfold instMagErr; rewrite log_finite by lra.
  rewrite div_finite; [reflexivity |].
  pose proof ln_10_pos; lra.
Qed.

(** A quotient that is finite and not zero has finite operands. *)
Lemma div_finite_inv x y r :
  (x / y)%np = Finite r -> r <> 0%R ->
  exists a c, x = Finite a /\ y = Finite c /\ c <> 0%R /\ r = (a / c)%R.
Proof.
  destruct x as [a | | |], y as [c | | |]; simpl; try discriminate.
  - destruct (Req_dec_T c 0).
    + destruct (np.Rsign a); discriminate.
    + intros H _; injection H as <-; exists a, c; auto.
  - intros H Hr; injection H as <-; contradiction Hr; reflexivity.
  - intros H Hr; injection H as <-; contradiction Hr; reflexivity.
  - destruct (Rlt_dec c 0); discriminate.
  - destruct (Rlt_dec c 0); discriminate.
Qed.

(** What passes the two range cuts on [np.nan_to_num] of the magnitude
    error. *)
Lemma magErr_cuts_inv x y :
  (np.nan_to_num (instMagErr x y) > Finite (1 / 1000))%np = true ->
  (np.nan_to_num (instMagErr x y) < Finite (1 / 10))%np = true ->
  exists fe f,
    x = Finite fe /\ y = Finite f /\ f <> 0%R /\
    instMagErr x y = Finite (5 / 2 / ln 10 * (fe / f)) /\
    (1 / 1000 < 5 / 2 / ln 10 * (fe / f) < 1 / 10)%R.
Proof.
  pose proof magErr_scale_pos as Hk.
  pose proof DBL_MAX_ge_1 as Hmax.
  rewrite instMagErr_scale; unfold np.gt.
  destruct (x / y)%np as [r | | |] eqn:Ed; simpl;
    rewrite ?Rsign_pos by exact Hk; simpl.
  - intros Hgt Hlt; apply lt_finite in Hgt; apply lt_finite in Hlt.
    assert (Hr : r <> 0%R) by (intros ->; lra).
    destruct (div_finite_inv _ _ Ed Hr) as (a & c & -> & -> & Hc & ->).
    exists a, c; repeat split; auto; lra.
  - intros _ Hlt; apply lt_finite in Hlt; lra.
  - intros Hgt _; apply lt_finite in Hgt; lra.
  - intros Hgt _; apply lt_finite in Hgt; lra.
Qed.

(** A source that passes [gdFlag] has finite flux and flux error of the
    same sign and a magnitude error strictly between 0.001 and 0.1, which
    [np.nan_to_num] leaves as it is. *)
Lemma gdFlag_true_inv s :
  Fgcm.gdFlag s = true ->
  exists fe f,
    Src.apFluxErr s = Finite fe /\ Src.apFlux s = Finite f /\
    ((0 < f /\ 0 < fe) \/ (f < 0 /\ fe < 0))%R /\
    Fgcm.magErr s = instMagErr (Src.apFluxErr s) (Src.apFlux s) /\
    instMagErr (Src.apFluxErr s) (Src.apFlux s)
      = Finite (5 / 2 / ln 10 * (fe / f)) /\
    (1 / 1000 < 5 / 2 / ln 10 * (fe / f) < 1 / 10)%R.
Proof.
  unfold Fgcm.gdFlag, Fgcm.magErr; intros H.
  apply andb_true_iff in H as [H Hlt].
  apply andb_true_iff in H as [H Hgt].
  destruct (magErr_cuts_inv _ _ Hgt Hlt) as (fe & f & Ex & Ey & Hf & E & Hr).
  exists fe, f; rewrite E; repeat split; auto; try lra.
  pose proof magErr_scale_pos as Hk.
  assert (Hq : (0 < fe / f)%R).
  { destruct (Rlt_dec 0 (fe / f)) as [Hq | Hq]; [exact Hq |].
    apply Rnot_lt_le in Hq.
    assert ((5 / 2 / ln 10 * (fe / f) <= 0)%R); [| lra].
    rewrite <- (Rmult_0_r (5 / 2 / ln 10)).
    apply Rmult_le_compat_l; lra. }
  destruct (Rlt_dec 0 f) as [Hpos | Hneg].
  - left; split; [exact Hpos |].
    replace fe with (fe / f * f)%R by (field; exact Hf).
    apply Rmult_lt_0_compat; assumption.
  - right; assert (Hf' : (f < 0)%R) by lra; split; [exact Hf' |].
    replace fe with (- (fe / f * (- f)))%R by (field; exact Hf).
    assert (0 < fe / f * - f)%R by (apply Rmult_lt_0_compat; lra).
    lra.
Qed.

(** A detection to cut does not pass [gdFlag]. *)
Lemma cut_gdFlag_false s : cut s -> Fgcm.gdFlag s = false.
Proof.
  intros Hcut; destruct (Fgcm.gdFlag s) eqn:E; [exfalso | reflexivity].
  apply gdFlag_true_inv in E
    as (fe & f & Efe & Ef & Hsign & _ & Em & Hr).
  destruct Hcut as [[Hflux Hneg] | [Hfin | [Hfin | Hm]]].
  - destruct Hflux as [H | (r & H & Hr0)]; rewrite Ef in H; [discriminate |].
    injection H as <-.
    apply Hneg; exists fe; split; [exact Efe | lra].
  - rewrite Efe in Hfin; discriminate.
  - rewrite Em in Hfin; discriminate.
  - destruct Hm as [H | (r & H & Hr0)]; rewrite Em in H; [discriminate |].
    injection H as <-; lra.
Qed.

Lemma lt_finite_true a c : (a < c)%R -> (Finite a < Finite c)%np = true.
Proof. intros H; apply lt_finite; exact H. Qed.

(** The detection with negative flux and negative flux error passes. *)
Lemma gdFlag_source_negative : Fgcm.gdFlag source_negative = true.
Proof.
  pose proof magErr_scale_bounds as [Hlo Hhi].
  assert (Em : Fgcm.magErr source_negative = Finite (/ 8 * / ln 10)).
  { unfold Fgcm.magErr.
    change (Src.apFluxErr source_negative) with (Finite (-50)).
    change (Src.apFlux source_negative) with (Finite (-1000)).
    rewrite instMagErr_finite by lra; unfold np.nan_to_num; f_equal.
    pose proof ln_10_pos; field; lra. }
  unfold Fgcm.gdFlag, np.gt; rewrite Em.
  change (Src.classification_extendedness source_negative) with (Finite 0).
  rewrite !lt_finite_true by lra; reflexivity.
Qed.

(** What a completed run of the fgcm stage has persisted, row by row. *)
Lemma fgcm_stored_rows cfg visitCat b b' :
  Fgcm._fgcmMakeAllStarObservations cfg visitCat b = (b', Ok tt) ->
  exists obsCat,
    starObservations b' = Some obsCat /\
    forall row,
      In row obsCat <->
      exists visit ccdId sources s,
        In visit visitCat /\ In ccdId (camera b) /\
        src b (Visit.visit visit) ccdId = Some sources /\
        In s sources /\ Fgcm.gdFlag s = true /\
        row = Fgcm.observation cfg visit ccdId s.
Proof.
  intros H; apply fgcm_makeAllStarObservations_ok in H as [_ ->].
  eexists; split; [reflexivity |].
  intros row; rewrite In_allRows; unfold fgcm_tempCat; split.
  - intros (visit & c & sources & Hv & Hc & E & Hrow).
    apply in_map_iff in Hrow as (s & <- & Hs).
    apply filter_In in Hs as [Hs Hg].
    exists visit, c, sources, s; auto 10.
  - intros (visit & c & sources & s & Hv & Hc & E & Hs & Hg & ->).
    exists visit, c, sources; repeat split; auto.
    apply in_map, filter_In; auto.
Qed.

(** ... and of the fgcmcal stage. *)
Lemma fgcmcal_stored_rows cfg sel visitCat b b' :
  Fgcmcal._fgcmMakeAllStarObservations cfg sel visitCat b = (b', Ok tt) ->
  exists obsCat,
    starObservations b' = Some obsCat /\
    forall row,
      In row obsCat <->
      exists visit ccdId sources s,
        In visit visitCat /\ In ccdId (camera b) /\
        src b (Visit.visit visit) ccdId = Some sources /\
        In s (sel sources) /\
        row = Fgcmcal.observation cfg visit ccdId s.
Proof.
  intros H; apply fgcmcal_makeAllStarObservations_ok in H as [_ ->].
  eexists; split; [reflexivity |].
  intros row; rewrite In_allRows; unfold fgcmcal_tempCat; split.
  - intros (visit & c & sources & Hv & Hc & E & Hrow).
    apply in_map_iff in Hrow as (s & <- & Hs).
    exists visit, c, sources, s; auto 10.
  - intros (visit & c & sources & s & Hv & Hc & E & Hs & ->).
    exists visit, c, sources; repeat split; auto.
    apply in_map; exact Hs.
Qed.

(** The magnitudes of the fgcm variant: the same expressions, for the
    sources that pass [gdFlag]. *)
Lemma fgcm_observation_magnitudes cfg visitCat b b' visit ccdId sources s :
  Fgcm._fgcmMakeAllStarObservations cfg visitCat b = (b', Ok tt) ->
  In visit visitCat ->
  In ccdId (camera b) ->
  src b (Visit.visit visit) ccdId = Some sources ->
  In s sources ->
  Fgcm.gdFlag s = true ->
  exists obsCat row,
    starObservations b' = Some obsCat /\ In row obsCat /\
    Obs.mag row =
      (let mag := (zeropointDefault cfg
                   - Finite (5 / 2) * np.log10 (Src.apFlux s)
                   + Finite (5 / 2) * np.log10 (Visit.exptime visit))%np in
       if applyJacobian cfg
       then (mag - Finite (5 / 2) * np.log10 (Src.jacobian s))%np
       else mag) /\
    Obs.magerr row =
      (Finite (5 / 2) / np.log (Finite 10)
       * (Src.apFluxErr s / Src.apFlux s))%np.
Proof.
  intros H Hv Hc E Hs Hg.
  destruct (fgcm_stored_rows _ _ _ H) as (obsCat & Hput & Hrows).
  exists obsCat, (Fgcm.observation cfg visit ccdId s).
  split; [exact Hput |]; split.
  - apply Hrows; exists visit, ccdId, sources, s; auto 10.
  - split; [reflexivity |].
    apply gdFlag_true_inv in Hg as (fe & f & _ & _ & _ & Em & _).
    exact Em.
Qed.

(** C6 (amended).  The fgcm variant stores a row for exactly the
    detections that pass [gdFlag], and a detection does not pass when its
    flux error is not finite, when its computed magnitude error is not
    finite or not positive, or when its flux is not positive while its flux
    error is not negative.  The fgcmcal variant stores a row for exactly the
    detections its source selector returns and applies no cut of its own.
    Neither stage fails because detections were left out. *)
Theorem rejected_detections_not_stored cfg sel visitCat b :
  (forall b',
     Fgcm._fgcmMakeAllStarObservations cfg visitCat b = (b', Ok tt) ->
     exists obsCat,
       starObservations b' = Some obsCat /\
       forall row,
         In row obsCat <->
         exists visit ccdId sources s,
           In visit visitCat /\ In ccdId (camera b) /\
           src b (Visit.visit visit) ccdId = Some sources /\
           In s sources /\ Fgcm.gdFlag s = true /\
           row = Fgcm.observation cfg visit ccdId s) /\
  (forall s, cut s -> Fgcm.gdFlag s = false) /\
  (forall b',
     Fgcmcal._fgcmMakeAllStarObservations cfg sel visitCat b = (b', Ok tt) ->
     exists obsCat,
       starObservations b' = Some obsCat /\
       forall row,
         In row obsCat <->
         exists visit ccdId sources s,
           In visit visitCat /\ In ccdId (camera b) /\
           src b (Visit.visit visit) ccdId = Some sources /\
           In s (sel sources) /\
           row = Fgcmcal.observation cfg visit ccdId s) /\
  (anySrc b visitCat = true ->
   exists b',
     Fgcmcal._fgcmMakeAllStarObservations cfg sel visitCat b = (b', Ok tt)) /\
  (anySrc b visitCat = true -> allRaw b visitCat ->
   exists b', Fgcm._fgcmMakeAllStarObservations cfg visitCat b = (b', Ok tt)).
Proof.
  split; [intros b'; apply fgcm_stored_rows |].
  split; [apply cut_gdFlag_false |].
  split; [intros b'; apply fgcmcal_stored_rows |].
  split.
  - intros Hany; rewrite fgcmcal_makeAllStarObservations_eq, Hany; eauto.
  - intros Hany Hraw.
    rewrite fgcm_makeAllStarObservations_eq by exact Hraw.
    rewrite Hany; eauto.
Qed.

Lemma cut_source_zero_flux : cut source_zero_flux.
Proof.
  left; split.
  - right; exists 0%R; split; [reflexivity | lra].
  - intros (r & E & Hr); injection E as <-; lra.
Qed.

Lemma allRaw_butler_two_visits : allRaw butler_two_visits visitCat_two.
Proof.
  intros visit c [<- | [<- | []]] [<- | []]; discriminate.
Qed.

Lemma rejected_detections_not_stored_witness :
  Fgcm.gdFlag source_zero_flux = false /\
  (exists b' obsCat,
     Fgcm._fgcmMakeAllStarObservations config0 visitCat_two butler_two_visits
       = (b', Ok tt) /\
     starObservations b' = Some obsCat /\
     forall row,
       In row obsCat <->
       exists visit ccdId sources s,
         In visit visitCat_two /\ In ccdId (camera butler_two_visits) /\
         src butler_two_visits (Visit.visit visit) ccdId = Some sources /\
         In s sources /\ Fgcm.gdFlag s = true /\
         row = Fgcm.observation config0 visit ccdId s) /\
  (exists b' obsCat,
     Fgcmcal._fgcmMakeAllStarObservations config0 selectAll visitCat_two
       butler_two_visits = (b', Ok tt) /\
     starObservations b' = Some obsCat /\
     forall row,
       In row obsCat <->
       exists visit ccdId sources s,
         In visit visitCat_two /\ In ccdId (camera butler_two_visits) /\
         src butler_two_visits (Visit.visit visit) ccdId = Some sources /\
         In s (selectAll sources) /\
         row = Fgcmcal.observation config0 visit ccdId s).
Proof.
  destruct (@rejected_detections_not_stored config0 selectAll visitCat_two
              butler_two_visits) as (H1 & H2 & H3 & H4 & H5).
  split; [apply H2, cut_source_zero_flux |]; split.
  - destruct (H5 eq_refl allRaw_butler_two_visits) as [b' E].
    destruct (H1 b' E) as (obsCat & Hput & Hrows).
    exists b', obsCat; auto.
  - destruct (H4 eq_refl) as [b' E].
    destruct (H3 b' E) as (obsCat & Hput & Hrows).
    exists b', obsCat; auto.
Defined.

Lemma allRaw_butler_negative : allRaw butler_negative [visitRecord_r 100].
Proof. intros visit c [<- | []] [<- | []]; discriminate. Qed.

(** C6 as worded fails on the fgcm variant: the detection with flux -1000
    and flux error -50 has a magnitude error of 0.054, passes every cut and
    is stored. *)
Lemma negative_flux_is_stored :
  ~ rejectable_never_stored config0 [visitRecord_r 100] butler_negative.
Proof.
  intros H.
  pose proof (fgcm_makeAllStarObservations_eq config0 allRaw_butler_negative)
    as E.
  change (anySrc butler_negative [visitRecord_r 100]) with true in E.
  refine (H _ _ (visitRecord_r 100) 13%Z [source_negative] source_negative
            E eq_refl _ _ eq_refl _ _ _); simpl; auto.
  - left; right; exists (-1000)%R; split; [reflexivity | lra].
  - unfold allRows, visitRows, detectorRows, detectorTempCat, fgcm_tempCat.
    simpl; rewrite gdFlag_source_negative; simpl; auto.
Qed.

(** ... and on the fgcmcal variant whenever the selector lets such a
    detection through: the stage itself never looks at the flux. *)
Lemma fgcmcal_stores_what_is_selected :
  exists b' obsCat,
    Fgcmcal._fgcmMakeAllStarObservations config0 selectAll [visitRecord_r 100]
      butler_negative = (b', Ok tt) /\
    starObservations b' = Some obsCat /\
    In (Fgcmcal.observation config0 (visitRecord_r 100) 13 source_negative)
       obsCat.
Proof.
  eexists; eexists; split; [reflexivity |].
  split; [reflexivity | simpl; auto].
Qed.

(** C10.  When no (visit, CCD) pair of the scan has a [src] catalog, the
    stage does not persist an empty catalog: [fullCatalog] was never bound
    and the final [butler.put] raises [UnboundLocalError], leaving the
    Butler as it was.  The fgcm variant raises too, with the same exception
    whenever its raw data references all resolve. *)
Theorem no_source_catalog_is_unbound cfg sel visitCat b :
  (forall visit ccdId,
     In visit visitCat -> In ccdId (camera b) ->
     src b (Visit.visit visit) ccdId = None) ->
  Fgcmcal._fgcmMakeAllStarObservations cfg sel visitCat b
    = (b, Raise UnboundLocalError) /\
  exists e,
    Fgcm._fgcmMakeAllStarObservations cfg visitCat b = (b, Raise e) /\
    (allRaw b visitCat -> e = UnboundLocalError).
Proof.
  intros Hnone.
  assert (Hany : anySrc b visitCat = false).
  { unfold anySrc; apply not_true_is_false; intros H.
    apply existsb_exists in H as (visit & Hv & H).
    apply existsb_exists in H as (c & Hc & H).
    rewrite (Hnone visit c Hv Hc) in H; discriminate. }
  split; [rewrite fgcmcal_makeAllStarObservations_eq, Hany; reflexivity |].
  destruct (Fgcm._fgcmMakeAllStarObservations cfg visitCat b)
    as [b' [[] | e]] eqn:E.
  - apply fgcm_makeAllStarObservations_ok in E as [E _]; congruence.
  - pose proof (fgcm_makeAllStarObservations_raise _ _ _ E) as ->.
    exists e; split; [reflexivity |].
    intros Hraw; rewrite fgcm_makeAllStarObservations_eq, Hany in E
      by exact Hraw.
    congruence.
Qed.

Lemma no_source_catalog_is_unbound_witness :
  Fgcmcal._fgcmMakeAllStarObservations config0 selectAll [visitRecord_r 100]
    butler_raw = (butler_raw, Raise UnboundLocalError) /\
  exists e,
    Fgcm._fgcmMakeAllStarObservations config0 [visitRecord_r 100] butler_raw
      = (butler_raw, Raise e) /\
    (allRaw butler_raw [visitRecord_r 100] -> e = UnboundLocalError).
Proof.
  apply (@no_source_catalog_is_unbound config0 selectAll [visitRecord_r 100]
           butler_raw).
  intros visit c _ _; reflexivity.
Defined.

(** ** Scan order of the observation catalog *)

Lemma StronglySorted_app {A} (R : A -> A -> Prop) l1 l2 :
  StronglySorted R l1 -> StronglySorted R l2 ->
  (forall x y, In x l1 -> In y l2 -> R x y) ->
  StronglySorted R (l1 ++ l2).
Proof.
  induction l1 as [| h t IH]; simpl; intros H1 H2 H; [exact H2 |].
  inversion H1 as [| ? ? Ht Hh]; subst.
  constructor.
  - apply IH; auto.
  - apply Forall_app; split; [exact Hh |].
    apply Forall_forall; intros y Hy; apply H; auto.
Qed.

Lemma StronglySorted_concat {A} (R : A -> A -> Prop) ls :
  Forall (StronglySorted R) ls ->
  StronglySorted (fun l1 l2 => forall x y, In x l1 -> In y l2 -> R x y) ls ->
  StronglySorted R (List.concat ls).
Proof.
  induction ls as [| l ls IH]; simpl; intros Hall Hs; [constructor |].
  inversion Hall as [| ? ? Hl Hls]; subst.
  inversion Hs as [| ? ? Hs' Hcross]; subst.
  apply StronglySorted_app; auto.
  intros x y Hx Hy; apply in_concat in Hy as (l' & Hl' & Hy).
  rewrite Forall_forall in Hcross; exact (Hcross l' Hl' x y Hx Hy).
Qed.

Lemma StronglySorted_map {A B} (R : A -> A -> Prop) (R' : B -> B -> Prop)
    (g : A -> B) l :
  (forall a c, R a c -> R' (g a) (g c)) ->
  StronglySorted R l -> StronglySorted R' (map g l).
Proof.
  intros Hg; induction 1 as [| h t Ht IH Hh]; simpl; constructor; auto.
  rewrite Forall_forall in *; intros y Hy.
  apply in_map_iff in Hy as (a & <- & Ha); auto.
Qed.

Lemma StronglySorted_constant (k : nat * nat) l :
  Forall (eq k) l -> StronglySorted lex_le l.
Proof.
  induction 1 as [| h t Hh Ht IH]; constructor; [exact IH |].
  subst h; eapply Forall_impl; [| exact Ht].
  intros y <-; right; split; [reflexivity | apply Nat.le_refl].
Qed.

Lemma enumerate_from_sorted {A} (l : list A) : forall n,
  StronglySorted (fun a c : nat * A => (fst a < fst c)%nat)
                 (combine (seq n (List.length l)) l).
Proof.
  induction l as [| h t IH]; intros n; simpl; constructor; [apply IH |].
  apply Forall_forall; intros [i v] Hin.
  apply In_enumerate_from in Hin as [Hle _]; simpl; lia.
Qed.

Lemma enumerate_sorted {A} (l : list A) :
  StronglySorted (fun a c : nat * A => (fst a < fst c)%nat) (enumerate l).
Proof. apply enumerate_from_sorted. Qed.

Lemma map_snd_pair {A B} (k : A) (l : list B) :
  map snd (map (pair k) l) = l.
Proof.
  induction l as [| h t IH]; simpl; [| rewrite IH]; reflexivity.
Qed.

Lemma map_snd_tagged_detectors mk b (i : nat) visit (M : list (nat * Z)) :
  map snd
      (flat_map
         (fun jc => map (pair (i, fst jc)) (detectorRows mk b visit (snd jc)))
         M)
  = flat_map (detectorRows mk b visit) (map snd M).
Proof.
  induction M as [| jc M IHM]; simpl; [reflexivity |].
  rewrite map_app, IHM, map_snd_pair; reflexivity.
Qed.

Lemma map_snd_taggedRows mk b visitCat :
  map snd (taggedRows mk b visitCat) = allRows mk b visitCat.
Proof.
  unfold taggedRows, allRows, visitRows.
  rewrite <- (map_snd_enumerate visitCat) at 2.
  induction (enumerate visitCat) as [| iv L IH]; simpl; [reflexivity |].
  rewrite map_app, IH, map_snd_tagged_detectors, map_snd_enumerate.
  reflexivity.
Qed.

Lemma taggedRows_sorted mk b visitCat :
  StronglySorted lex_le (map fst (taggedRows mk b visitCat)).
Proof.
  unfold taggedRows.
  rewrite flat_map_concat_map, concat_map, map_map.
  apply StronglySorted_concat.
  - apply Forall_forall; intros ks Hks.
    apply in_map_iff in Hks as (iv & <- & _).
    rewrite flat_map_concat_map, concat_map, map_map.
    apply StronglySorted_concat.
    + apply Forall_forall; intros ks Hks.
      apply in_map_iff in Hks as (jc & <- & _).
      rewrite map_map; simpl.
      apply StronglySorted_constant with (k := (fst iv, fst jc)).
      apply Forall_forall; intros k Hk.
      apply in_map_iff in Hk as (row & <- & _); reflexivity.
    + eapply StronglySorted_map; [| apply enumerate_sorted].
      intros jc jc' Hlt x y Hx Hy.
      rewrite map_map in Hx, Hy.
      apply in_map_iff in Hx as (r & <- & _).
      apply in_map_iff in Hy as (r' & <- & _).
      right; simpl; split; [reflexivity | apply Nat.lt_le_incl; exact Hlt].
  - eapply StronglySorted_map; [| apply enumerate_sorted].
    intros iv iv' Hlt x y Hx Hy.
    apply in_map_iff in Hx as ([k r] & <- & Hx).
    apply in_map_iff in Hy as ([k' r'] & <- & Hy).
    apply in_flat_map in Hx as (jc & _ & Hx).
    apply in_flat_map in Hy as (jc' & _ & Hy).
    apply in_map_iff in Hx as (r0 & E & _); injection E as <- <-.
    apply in_map_iff in Hy as (r1 & E & _); injection E as <- <-.
    left; simpl; exact Hlt.
Qed.

Lemma taggedRows_provenance cfg sel b visitCat :
  Forall
    (fun t : (nat * nat) * Obs.t =>
       exists visit ccdId sources s,
         nth_error visitCat (fst (fst t)) = Some visit /\
         nth_error (camera b) (snd (fst t)) = Some ccdId /\
         src b (Visit.visit visit) ccdId = Some sources /\
         In s (sel sources) /\
         snd t = Fgcmcal.observation cfg visit ccdId s)
    (taggedRows (fgcmcal_tempCat cfg sel) b visitCat).
Proof.
  apply Forall_forall; intros [[i j] row] Hin.
  unfold taggedRows in Hin.
  apply in_flat_map in Hin as ([i' visit] & Hv & Hin).
  apply in_flat_map in Hin as ([j' c] & Hc & Hin).
  apply in_map_iff in Hin as (r & E & Hr); simpl in E.
  injection E as <- <- <-.
  apply In_enumerate in Hv; apply In_enumerate in Hc.
  unfold detectorRows, detectorTempCat, fgcmcal_tempCat in Hr; simpl in Hr.
  destruct (src b (Visit.visit visit) c) as [sources |] eqn:Es; simpl in Hr;
    [| destruct Hr].
  apply in_map_iff in Hr as (s & <- & Hs).
  exists visit, c, sources, s; simpl; auto.
Qed.

(** C5.  The persisted observation catalog lists its rows in
    visit-then-detector order: every row can be given the position of its
    visit in the visit catalog and of its detector in the camera, it is a
    selected detection of that (visit, detector) pair, and along the catalog
    these position pairs never decrease in the lexicographic order. *)
Theorem observations_in_scan_order cfg sel visitCat b b' :
  Fgcmcal._fgcmMakeAllStarObservations cfg sel visitCat b = (b', Ok tt) ->
  exists tagged : list ((nat * nat) * Obs.t),
    starObservations b' = Some (map snd tagged) /\
    StronglySorted lex_le (map fst tagged) /\
    Forall
      (fun t =>
         exists visit ccdId sources s,
           nth_error visitCat (fst (fst t)) = Some visit /\
           nth_error (camera b) (snd (fst t)) = Some ccdId /\
           src b (Visit.visit visit) ccdId = Some sources /\
           In s (sel sources) /\
           snd t = Fgcmcal.observation cfg visit ccdId s /\
           Obs.visit (snd t) = Visit.visit visit /\
           Obs.ccd (snd t) = np.int32 ccdId)
      tagged.
Proof.
  intros H; apply fgcmcal_makeAllStarObservations_ok in H as [_ ->].
  exists (taggedRows (fgcmcal_tempCat cfg sel) b visitCat).
  split; [simpl; rewrite map_snd_taggedRows; reflexivity |].
  split; [apply taggedRows_sorted |].
  eapply Forall_impl; [| apply taggedRows_provenance].
  intros t (visit & c & sources & s & Hv & Hc & Es & Hs & E).
  exists visit, c, sources, s; rewrite E; auto 10.
Qed.

(** Visits 100 and 101 with three and two passing detections: five rows,
    three of visit 100 and then two of visit 101. *)
Lemma observations_in_scan_order_witness :
  (exists tagged : list ((nat * nat) * Obs.t),
     starObservations
       (fst (butler_put_fgcmStarObservations
               (allRows (fgcmcal_tempCat config0 selectAll) butler_two_visits
                        visitCat_two)
               butler_two_visits)) = Some (map snd tagged) /\
     StronglySorted lex_le (map fst tagged) /\
     Forall
       (fun t =>
          exists visit ccdId sources s,
            nth_error visitCat_two (fst (fst t)) = Some visit /\
            nth_error (camera butler_two_visits) (snd (fst t)) = Some ccdId /\
            src butler_two_visits (Visit.visit visit) ccdId = Some sources /\
            In s (selectAll sources) /\
            snd t = Fgcmcal.observation config0 visit ccdId s /\
            Obs.visit (snd t) = Visit.visit visit /\
            Obs.ccd (snd t) = np.int32 ccdId)
       tagged) /\
  map Obs.visit
      (allRows (fgcmcal_tempCat config0 selectAll) butler_two_visits
               visitCat_two)
  = [100; 100; 100; 101; 101]%Z.
Proof.
  split; [| reflexivity].
  apply (@observations_in_scan_order config0 selectAll visitCat_two
           butler_two_visits).
  reflexivity.
Defined.

(** ** Filter labels by [np.searchsorted] *)

Lemma mid_bounds lo hi :
  (lo < hi)%nat -> (lo <= lo + (hi - lo) / 2 < hi)%nat.
Proof.
  intros H.
  pose proof (Nat.div_mod_eq (hi - lo) 2).
  pose proof (Nat.mod_upper_bound (hi - lo) 2).
  lia.
Qed.

(** An array in ascending order, by positions. *)
Lemma Sorted_nth (a : list Z) :
  Sorted Z.le a ->
  forall i j, (i <= j < List.length a)%nat -> (nth i a 0 <= nth j a 0)%Z.
Proof.
  intros Hs; apply Sorted_le_StronglySorted in Hs.
  induction Hs as [| h t Ht IH Hh]; simpl; intros i j Hij; [lia |].
  destruct i as [| i], j as [| j]; try lia.
  - rewrite Forall_forall in Hh; apply Hh, nth_In; lia.
  - apply IH; lia.
Qed.

(** The bisection returns the left insertion point: everything before it
    is below the key, everything from it on is not. *)
Lemma bisect_left_spec (a : list Z) key :
  Sorted Z.le a ->
  forall fuel lo hi,
    (hi - lo <= fuel)%nat -> (lo <= hi <= List.length a)%nat ->
    (forall i, (i < lo)%nat -> (nth i a 0 < key)%Z) ->
    (forall i, (hi <= i < List.length a)%nat -> (key <= nth i a 0)%Z) ->
    let r := np.bisect_left fuel a key lo hi in
    (r <= List.length a)%nat /\
    (forall i, (i < r)%nat -> (nth i a 0 < key)%Z) /\
    (forall i, (r <= i < List.length a)%nat -> (key <= nth i a 0)%Z).
Proof.
  intros Hs; induction fuel as [| fuel IH]; intros lo hi Hfuel Hb Hlo Hhi;
    cbn [np.bisect_left]; cbv zeta.
  - assert (lo = hi) by lia; subst hi; repeat split; auto; lia.
  - destruct (lo <? hi)%nat eqn:E.
    + apply Nat.ltb_lt in E.
      pose proof (mid_bounds E) as Hmid.
      set (mid := (lo + (hi - lo) / 2)%nat) in *.
      destruct (nth mid a 0 <? key)%Z eqn:Ek.
      * apply Z.ltb_lt in Ek.
        apply IH; try lia; [| exact Hhi].
        intros i Hi.
        pose proof (Sorted_nth Hs (i := i) (j := mid)); lia.
      * apply Z.ltb_ge in Ek.
        apply IH; try lia; [exact Hlo |].
        intros i Hi.
        pose proof (Sorted_nth Hs (i := mid) (j := i)); lia.
    + apply Nat.ltb_ge in E; assert (lo = hi) by lia; subst hi.
      repeat split; auto; lia.
Qed.

Lemma searchsorted1_spec (a : list Z) key :
  Sorted Z.le a ->
  let r := np.searchsorted1 a key in
  (r <= List.length a)%nat /\
  (forall i, (i < r)%nat -> (nth i a 0 < key)%Z) /\
  (forall i, (r <= i < List.length a)%nat -> (key <= nth i a 0)%Z).
Proof.
  intros Hs; unfold np.searchsorted1.
  apply bisect_left_spec; auto; try lia.
Qed.

(** For a key that occurs in the array, the insertion point is the first
    position that holds it. *)
Lemma searchsorted1_found (a : list Z) key :
  Sorted Z.le a -> In key a ->
  let r := np.searchsorted1 a key in
  (r < List.length a)%nat /\ nth r a 0%Z = key /\
  (forall i, (i < r)%nat -> (nth i a 0 < key)%Z).
Proof.
  intros Hs Hin r.
  destruct (searchsorted1_spec key Hs) as (Hr & Hbelow & Habove).
  fold r in Hr, Hbelow, Habove.
  apply (In_nth _ _ 0%Z) in Hin as (j & Hj & Ej).
  assert (Hrj : (r <= j)%nat).
  { destruct (le_lt_dec r j) as [H | H]; [exact H |].
    specialize (Hbelow j H); lia. }
  split; [lia |]; split; [| exact Hbelow].
  pose proof (Habove r ltac:(lia)).
  pose proof (Sorted_nth Hs (i := r) (j := j) ltac:(lia)).
  lia.
Qed.

Lemma a2_short s : (String.length s <= 2)%nat -> np.a2 s = s.
Proof.
  unfold np.a2.
  destruct s as [| c1 [| c2 [| c3 s]]]; simpl; intros H; try reflexivity; lia.
Qed.

Lemma take_ok {A} (a : list A) idx b b' l :
  take a idx b = (b', Ok l) ->
  b' = b /\ Forall2 (fun i v => nth_error a i = Some v) idx l.
Proof.
  revert l; induction idx as [| i idx IH]; simpl; intros l H.
  - injection H as <- <-; auto.
  - rewrite bind_readonly in H by ro.
    unfold result, index, of_option in H.
    destruct (nth_error a i) as [v |] eqn:Ev; simpl in H; [| discriminate].
    rewrite bind_readonly in H by ro.
    destruct (result (take a idx) b) as [vs |] eqn:Evs; [| discriminate].
    injection H as <- <-.
    destruct (IH vs) as [_ HF].
    { rewrite (readonly_eq b (readonly_take a idx)), Evs; reflexivity. }
    split; [reflexivity | constructor; assumption].
Qed.

Lemma take_total {A} (a : list A) idx b :
  Forall (fun i => (i < List.length a)%nat) idx ->
  exists l, take a idx b = (b, Ok l).
Proof.
  induction 1 as [| i idx Hi _ [l IH]]; simpl; [eexists; reflexivity |].
  apply nth_error_Some in Hi.
  destruct (nth_error a i) as [v |] eqn:Ev; [| contradiction].
  exists (v :: l).
  unfold bind, index, of_option; rewrite Ev; simpl; rewrite IH; reflexivity.
Qed.

Lemma Forall2_nth_error {A B} (R : A -> B -> Prop) l1 l2 :
  Forall2 R l1 l2 ->
  forall k x, nth_error l1 k = Some x ->
              exists y, nth_error l2 k = Some y /\ R x y.
Proof.
  induction 1 as [| x0 y0 l1 l2 H0 _ IH]; intros k x Hk.
  - destruct k; discriminate.
  - destruct k as [| k]; simpl in *; [injection Hk as <-; eauto | eauto].
Qed.

(** The label lookup never fails when every observation comes from a visit
    of the catalog. *)
Lemma obsFilterNames_total visitCat obsCat b :
  Sorted Z.le (visits visitCat) ->
  Forall (fun o => In (Obs.visit o) (visits visitCat)) obsCat ->
  exists names, obsFilterNames visitCat obsCat b = (b, Ok names).
Proof.
  intros Hs Hall; unfold obsFilterNames; apply take_total.
  unfold np.searchsorted; rewrite !Forall_map.
  eapply Forall_impl; [| exact Hall].
  intros o Ho; simpl.
  destruct (searchsorted1_found _ Hs Ho) as [Hlt _].
  fold (visits visitCat); unfold visits in *; rewrite length_map in *.
  exact Hlt.
Qed.

(** C4.  On a visit catalog in ascending order of visit number, whose
    labels fit their two-character field, the label the adapter assigns to
    an observation of a catalogued visit is the label stored in the first
    row with that visit number, the only such row when no visit number is
    repeated. *)
Theorem observation_filter_label visitCat obsCat b b' names k o :
  Sorted Z.le (visits visitCat) ->
  Forall (fun v => (String.length (Visit.filtername v) <= 2)%nat) visitCat ->
  obsFilterNames visitCat obsCat b = (b', Ok names) ->
  nth_error obsCat k = Some o ->
  In (Obs.visit o) (visits visitCat) ->
  exists i v,
    nth_error visitCat i = Some v /\
    Visit.visit v = Obs.visit o /\
    nth_error names k = Some (Visit.filtername v) /\
    (forall j v', (j < i)%nat -> nth_error visitCat j = Some v' ->
                  (Visit.visit v' < Obs.visit o)%Z) /\
    (NoDup (visits visitCat) ->
     forall v', In v' visitCat -> Visit.visit v' = Obs.visit o ->
                nth_error names k = Some (Visit.filtername v')).
Proof.
  intros Hs Hlen H Hk Hin.
  unfold obsFilterNames in H; apply take_ok in H as [_ HF].
  destruct (searchsorted1_found _ Hs Hin) as (Hlt & Hnth & Hbelow).
  unfold visits in *.
  set (i := np.searchsorted1 (map Visit.visit visitCat) (Obs.visit o)) in *.
  rewrite length_map in Hlt.
  destruct (nth_error visitCat i) as [v |] eqn:Ev;
    [| apply nth_error_None in Ev; lia].
  assert (Hv : Visit.visit v = Obs.visit o).
  { rewrite <- Hnth; symmetry.
    apply nth_error_nth, map_nth_error; exact Ev. }
  assert (Hname : nth_error names k = Some (Visit.filtername v)).
  { destruct (@Forall2_nth_error _ _ _ _ _ HF k i) as (y & Hy & Hy').
    - unfold np.searchsorted; rewrite map_map.
      erewrite map_nth_error by exact Hk; reflexivity.
    - rewrite Hy; f_equal.
      erewrite map_nth_error in Hy' by exact Ev; injection Hy' as <-.
      apply a2_short.
      rewrite Forall_forall in Hlen; apply Hlen.
      eapply nth_error_In; exact Ev. }
  exists i, v; repeat split; auto.
  - intros j v' Hj Ev'.
    specialize (Hbelow j Hj).
    assert (Hm : nth_error (map Visit.visit visitCat) j
                 = Some (Visit.visit v'))
      by (apply map_nth_error; exact Ev').
    rewrite (nth_error_nth _ _ 0%Z Hm) in Hbelow.
    exact Hbelow.
  - intros Hnd v' Hv' Evis.
    rewrite Hname; do 2 f_equal.
    apply In_nth_error in Hv' as (j & Ej).
    assert (i = j); [| congruence].
    apply (proj1 (NoDup_nth_error (map Visit.visit visitCat)) Hnd).
    + rewrite length_map; exact Hlt.
    + erewrite !map_nth_error by eassumption; congruence.
Qed.

Lemma observation_filter_label_witness :
  exists i v,
    nth_error visitCat_gr i = Some v /\
    Visit.visit v = 101%Z /\
    nth_error ["r"; "g"]%string 0 = Some (Visit.filtername v) /\
    (forall j v', (j < i)%nat -> nth_error visitCat_gr j = Some v' ->
                  (Visit.visit v' < 101)%Z) /\
    (NoDup (visits visitCat_gr) ->
     forall v', In v' visitCat_gr -> Visit.visit v' = 101%Z ->
                nth_error ["r"; "g"]%string 0 = Some (Visit.filtername v')).
Proof.
  apply (@observation_filter_label visitCat_gr obsCat_gr butler_raw butler_raw
           ["r"; "g"]%string 0%nat
           (Fgcmcal.observation config0 (visitRecord_of 101 "r") 13 source_1000)).
  - repeat constructor; simpl; lia.
  - repeat constructor.
  - reflexivity.
  - reflexivity.
  - simpl; auto.
Defined.

(** ** The star index ([_fgcmMatchStars]) *)

Lemma int32_id z : np.in_int32 z -> np.int32 z = z.
Proof.
  unfold np.in_int32, np.int32.
  change (2 ^ 31)%Z with 2147483648%Z; change (2 ^ 32)%Z with 4294967296%Z.
  intros H; rewrite Z.mod_small by lia; lia.
Qed.

Lemma map_int32_id l : Forall np.in_int32 l -> map np.int32 l = l.
Proof.
  induction 1 as [| z l Hz _ IH]; simpl; [reflexivity |].
  rewrite int32_id, IH by exact Hz; reflexivity.
Qed.

Lemma star_ranges_transcribed objs :
  Forall (fun o => np.in_int32 (ObjIndex.OBSARRINDEX o) /\
                   np.in_int32 (ObjIndex.NOBS o)) objs ->
  star_ranges (map toStarRecord objs) = obj_ranges objs.
Proof.
  unfold star_ranges, obj_ranges.
  induction 1 as [| o objs [H1 H2] _ IH]; simpl; [reflexivity |].
  rewrite !int32_id, IH by assumption; reflexivity.
Qed.

Lemma pairwise_nth {A} (rel : A -> A -> bool) l :
  pairwise rel l = true ->
  forall i j x y, (i < j)%nat ->
    nth_error l i = Some x -> nth_error l j = Some y -> rel x y = true.
Proof.
  induction l as [| h t IH]; simpl; intros H i j x y Hij Hi Hj.
  - destruct i; discriminate.
  - apply andb_true_iff in H as [Hh Ht].
    destruct j as [| j]; [lia |].
    destruct i as [| i]; simpl in *.
    + injection Hi as <-.
      rewrite forallb_forall in Hh; apply Hh.
      eapply nth_error_In; exact Hj.
    + apply (IH Ht i j x y); [lia | exact Hi | exact Hj].
Qed.

Lemma disjointb_sound r1 r2 p :
  disjointb r1 r2 = true -> ~ (in_range r1 p /\ in_range r2 p).
Proof.
  unfold disjointb, in_range; intros H [H1 H2].
  repeat (apply orb_true_iff in H as [H | H]); apply Z.leb_le in H; lia.
Qed.

(** The test is sound for the property. *)
Lemma valid_csr_sound ranges idx nObs :
  valid_csr ranges idx nObs = true -> csr_index ranges idx nObs.
Proof.
  unfold valid_csr, csr_index; intros H.
  apply andb_true_iff in H as [H Hidx].
  apply andb_true_iff in H as [H Hpair].
  apply andb_true_iff in H as [Hsum Hrange].
  apply Z.eqb_eq in Hsum.
  rewrite forallb_forall in Hrange, Hidx.
  assert (Hr : forall r, In r ranges ->
                 (0 <= fst r /\ 0 <= snd r /\
                  fst r + snd r <= Z.of_nat (List.length idx))%Z).
  { intros r Hin; specialize (Hrange r Hin); unfold range_ok in Hrange.
    apply andb_true_iff in Hrange as [Hrange H3].
    apply andb_true_iff in Hrange as [H1 H2].
    apply Z.leb_le in H1, H2, H3; auto. }
  repeat split; auto; try (apply Hr; assumption).
  - intros i j r1 r2 Hij Hi Hj p.
    destruct (Nat.lt_total i j) as [Hlt | [Heq | Hlt]]; [| contradiction |].
    + apply disjointb_sound; eapply pairwise_nth; eauto.
    + intros [H1 H2].
      apply (@disjointb_sound r2 r1 p); [| auto].
      eapply pairwise_nth; eauto.
  - intros r p Hin Hp; unfold in_range in Hp.
    destruct (Hr r Hin) as (H1 & H2 & H3).
    destruct (nth_error idx (Z.to_nat p)) as [e |] eqn:E.
    + exists e; split; [reflexivity |].
      apply nth_error_In, Hidx in E.
      apply andb_true_iff in E as [Ea Eb].
      apply Z.leb_le in Ea; apply Z.ltb_lt in Eb; auto.
    + apply nth_error_None in E; lia.
Qed.

(** [_fgcmMatchStars] writes nothing before the matcher has returned, and
    then puts the two transcribed catalogs. *)
Lemma matchStars_cases fgcm visitCat b b' r :
  _fgcmMatchStars fgcm visitCat b = (b', r) ->
  match r with
  | Raise _ => b' = b
  | Ok _ =>
      exists obsCat names refStars out,
        starObservations b = Some obsCat /\
        obsFilterNames visitCat obsCat b = (b, Ok names) /\
        makeReferenceStars fgcm
          (map (fun o => np.rad2deg (Obs.ra o)) obsCat)
          (map (fun o => np.rad2deg (Obs.dec o)) obsCat) names false
          = Ok refStars /\
        makeMatchedStars fgcm refStars
          (map (fun o => np.rad2deg (Obs.ra o)) obsCat)
          (map (fun o => np.rad2deg (Obs.dec o)) obsCat) names
          = Ok out /\
        b' = fst (butler_put_fgcmStarIndices
                    (map np.int32 (obsIndexCat out))
                    (fst (butler_put_fgcmStarIds
                            (map toStarRecord (objIndexCat out)) b)))
  end.
Proof.
  unfold _fgcmMatchStars.
  rewrite bind_readonly by ro.
  unfold result at 1, butler_get_fgcmStarObservations, of_option.
  destruct (starObservations b) as [obsCat |]; simpl;
    [| intros H; injection H as <- <-; reflexivity].
  rewrite bind_readonly by (unfold obsFilterNames; ro).
  pose proof (@readonly_eq _ (obsFilterNames visitCat obsCat) b) as Hn.
  destruct (result (obsFilterNames visitCat obsCat) b) as [names | e];
    [| intros H; injection H as <- <-; reflexivity].
  rewrite bind_readonly by ro; unfold result at 1, lift; simpl.
  destruct (makeReferenceStars fgcm _ _ names false) as [refStars | e] eqn:Er;
    [| intros H; injection H as <- <-; reflexivity].
  rewrite bind_readonly by ro; unfold result at 1, lift; simpl.
  destruct (makeMatchedStars fgcm refStars _ _ names) as [out | e] eqn:Em;
    [| intros H; injection H as <- <-; reflexivity].
  unfold bind; simpl.
  intros H; injection H as <- <-.
  exists obsCat, names, refStars, out; repeat split; auto.
  apply Hn; unfold obsFilterNames; ro.
Qed.

(** C1.  Given a matcher that honours its interface, the star catalog and
    the observation-index catalog that [_fgcmMatchStars] persists form a
    compressed-sparse-row index: the observation counts add up to the
    length of the index array, the blocks [start, start + count) of
    distinct stars are disjoint and inside the array, and every entry of a
    block is a row number of the observation catalog. *)
Theorem star_index_is_csr fgcm visitCat b b' obsCat :
  matcher_contract fgcm ->
  starObservations b = Some obsCat ->
  _fgcmMatchStars fgcm visitCat b = (b', Ok tt) ->
  exists stars idx,
    starIds b' = Some stars /\
    starIndices b' = Some idx /\
    csr_index (star_ranges stars) idx (List.length obsCat).
Proof.
  intros Hc Hobs H.
  apply matchStars_cases in H
    as (obsCat' & names & refStars & out & Hobs' & _ & _ & Hm & ->).
  rewrite Hobs in Hobs'; injection Hobs' as <-.
  destruct (Hc _ _ _ _ _ Hm) as (Hcsr & Hidx & Hobj).
  rewrite length_map in Hcsr.
  exists (map toStarRecord (objIndexCat out)), (map np.int32 (obsIndexCat out)).
  split; [reflexivity |]; split; [reflexivity |].
  rewrite star_ranges_transcribed, map_int32_id by assumption.
  exact Hcsr.
Qed.

Lemma matcher_two_stars_contract : matcher_contract matcher_two_stars.
Proof.
  intros refStars ra dec names out; simpl.
  destruct (List.length ra =? 5)%nat eqn:E; [| discriminate].
  apply Nat.eqb_eq in E; rewrite E.
  intros H; injection H as <-; simpl.
  split; [apply valid_csr_sound; reflexivity |].
  split; repeat constructor; unfold np.in_int32; simpl; lia.
Qed.

Lemma star_index_is_csr_witness :
  exists stars idx,
    starIds butler_matched = Some stars /\
    starIndices butler_matched = Some idx /\
    csr_index (star_ranges stars) idx
      (List.length (allRows (fgcmcal_tempCat config0 selectAll)
                            butler_two_visits visitCat_two)).
Proof.
  apply (@star_index_is_csr matcher_two_stars visitCat_two butler_compiled
           butler_matched).
  - apply matcher_two_stars_contract.
  - reflexivity.
  - reflexivity.
Defined.

(** ** The orchestrator ([run]) *)

Lemma fgcmcal_run_steps cfg sel fgcm dataRefs :
  Fgcmcal.run cfg sel fgcm dataRefs =
  (visitCat <- fgcmcal_visitStep cfg dataRefs ;;
   fgcmcal_observationStep cfg sel visitCat ;;
   fgcmcal_matchStep cfg fgcm visitCat ;;
   ret visitCat).
Proof. reflexivity. Qed.

Lemma fgcm_run_steps cfg fgcm dataRefs :
  Fgcm.run cfg fgcm dataRefs =
  (visitCat <- fgcm_visitStep cfg dataRefs ;;
   fgcm_observationStep cfg visitCat ;;
   fgcm_matchStep fgcm visitCat ;;
   ret dataRefs).
Proof. reflexivity. Qed.

(** The outcome of each stage: nothing written when it raises; its
    artifact put once, at the end, when it completes. *)
Lemma fgcmcal_makeVisitCatalog_cases cfg dataRefs b b' r :
  Fgcmcal._fgcmMakeVisitCatalog cfg dataRefs b = (b', r) ->
  match r with
  | Raise _ => b' = b
  | Ok visitCat => b' = fst (butler_put_fgcmVisitCatalog visitCat b)
  end.
Proof.
  rewrite fgcmcal_makeVisitCatalog_eq.
  destruct (result _ b) as [[vs cs] | e];
    [| intros H; injection H as <- <-; reflexivity].
  destruct (result _ b) as [cat | e]; intros H; injection H as <- <-;
    reflexivity.
Qed.

Lemma readonly_fgcm_findVisits cfg dataRefs :
  readonly (Fgcm.findVisits cfg dataRefs).
Proof. unfold Fgcm.findVisits; ro. Qed.

Lemma readonly_fgcm_readVisitInfo cfg v cat :
  readonly (Fgcm.readVisitInfo cfg v cat).
Proof. unfold Fgcm.readVisitInfo; ro. Qed.

#[export] Hint Resolve readonly_fgcm_findVisits readonly_fgcm_readVisitInfo
  : readonly.

Lemma fgcm_makeVisitCatalog_cases cfg dataRefs b b' r :
  Fgcm._fgcmMakeVisitCatalog cfg dataRefs b = (b', r) ->
  match r with
  | Raise _ => b' = b
  | Ok visitCat => b' = fst (butler_put_fgcmVisitCatalog visitCat b)
  end.
Proof.
  unfold Fgcm._fgcmMakeVisitCatalog.
  rewrite bind_readonly by ro.
  destruct (result _ b) as [vs | e];
    [| intros H; injection H as <- <-; reflexivity].
  rewrite bind_readonly by ro.
  destruct (result _ b) as [cat | e]; intros H; injection H as <- <-;
    reflexivity.
Qed.

Lemma fgcmcal_makeAllStarObservations_cases cfg sel visitCat b b' r :
  Fgcmcal._fgcmMakeAllStarObservations cfg sel visitCat b = (b', r) ->
  match r with
  | Raise _ => b' = b
  | Ok _ =>
      b' = fst (butler_put_fgcmStarObservations
                  (allRows (fgcmcal_tempCat cfg sel) b visitCat) b)
  end.
Proof.
  rewrite fgcmcal_makeAllStarObservations_eq.
  destruct (anySrc b visitCat); intros H; injection H as <- <-; reflexivity.
Qed.

Lemma fgcm_makeAllStarObservations_cases cfg visitCat b b' r :
  Fgcm._fgcmMakeAllStarObservations cfg visitCat b = (b', r) ->
  match r with
  | Raise _ => b' = b
  | Ok _ =>
      b' = fst (butler_put_fgcmStarObservations
                  (allRows (fgcm_tempCat cfg) b visitCat) b)
  end.
Proof.
  destruct r as [[] | e]; intros H.
  - apply fgcm_makeAllStarObservations_ok in H as [_ ->]; reflexivity.
  - eapply fgcm_makeAllStarObservations_raise; exact H.
Qed.

Lemma wrote_nothing b : wrote b b [].
Proof. unfold wrote; rewrite app_nil_r; auto 10. Qed.

Lemma wrote_trans b1 b2 b3 l1 l2 :
  wrote b1 b2 l1 -> wrote b2 b3 l2 -> wrote b1 b3 (l1 ++ l2).
Proof.
  unfold wrote; intros (H1 & Hc1 & Hv1 & Ho1 & Hi1 & Hx1)
                       (H2 & Hc2 & Hv2 & Ho2 & Hi2 & Hx2).
  rewrite H2, H1, app_assoc; split; [reflexivity |].
  split; [congruence |].
  repeat split;
    match goal with
    | |- In ?d _ \/ _ =>
        repeat match goal with
               | H : In d _ \/ _ |- _ => destruct H as [H | H]
               end;
        try (left; apply in_or_app; auto; fail);
        right; congruence
    end.
Qed.

Lemma wrote_visitCatalog cat b :
  wrote b (fst (butler_put_fgcmVisitCatalog cat b)) [fgcmVisitCatalog].
Proof. unfold wrote; simpl; auto 10. Qed.

Lemma wrote_starObservations rows b :
  wrote b (fst (butler_put_fgcmStarObservations rows b)) [fgcmStarObservations].
Proof. unfold wrote; simpl; auto 10. Qed.

Lemma wrote_stars stars idx b :
  wrote b (fst (butler_put_fgcmStarIndices idx
                  (fst (butler_put_fgcmStarIds stars b))))
        [fgcmStarIds; fgcmStarIndices].
Proof. unfold wrote; simpl; rewrite <- app_assoc; simpl; auto 10. Qed.

(** A step whose artifact is there, with no rebuild asked for, neither
    rebuilds nor writes. *)
Lemma fgcmcal_visitStep_skip cfg dataRefs b cat :
  remake cfg = false -> visitCatalog b = Some cat ->
  fgcmcal_visitStep cfg dataRefs b = (b, Ok cat).
Proof.
  intros Hr Hv; unfold fgcmcal_visitStep; rewrite Hr.
  unfold bind, butler_datasetExists, butler_get_fgcmVisitCatalog; simpl.
  rewrite Hv; simpl; rewrite Hv; reflexivity.
Qed.

Lemma fgcmcal_observationStep_skip cfg sel visitCat b :
  remake cfg = false -> is_some (starObservations b) = true ->
  fgcmcal_observationStep cfg sel visitCat b = (b, Ok tt).
Proof.
  intros Hr Ho; unfold fgcmcal_observationStep; rewrite Hr.
  unfold bind, butler_datasetExists; simpl; rewrite Ho; reflexivity.
Qed.

Lemma fgcmcal_matchStep_skip cfg fgcm visitCat b :
  remake cfg = false ->
  is_some (starIds b) = true -> is_some (starIndices b) = true ->
  fgcmcal_matchStep cfg fgcm visitCat b = (b, Ok tt).
Proof.
  intros Hr H1 H2; unfold fgcmcal_matchStep; rewrite Hr.
  unfold bind, butler_datasetExists; simpl; rewrite H1; simpl.
  rewrite H2; reflexivity.
Qed.

Lemma fgcm_visitStep_skip cfg dataRefs b cat :
  visitCatalog b = Some cat -> fgcm_visitStep cfg dataRefs b = (b, Ok cat).
Proof.
  intros Hv; unfold fgcm_visitStep.
  unfold bind, butler_datasetExists, butler_get_fgcmVisitCatalog; simpl.
  rewrite Hv; simpl; rewrite Hv; reflexivity.
Qed.

Lemma fgcm_observationStep_skip cfg visitCat b :
  is_some (starObservations b) = true ->
  fgcm_observationStep cfg visitCat b = (b, Ok tt).
Proof.
  intros Ho; unfold fgcm_observationStep.
  unfold bind, butler_datasetExists; simpl; rewrite Ho; reflexivity.
Qed.

Lemma fgcm_matchStep_skip fgcm visitCat b :
  is_some (starIds b) = true -> is_some (starIndices b) = true ->
  fgcm_matchStep fgcm visitCat b = (b, Ok tt).
Proof.
  intros H1 H2; unfold fgcm_matchStep.
  unfold bind, butler_datasetExists; simpl; rewrite H1; simpl.
  rewrite H2; reflexivity.
Qed.

(** The outcome of each step. *)
Lemma fgcmcal_visitStep_cases cfg dataRefs b b' r :
  fgcmcal_visitStep cfg dataRefs b = (b', r) ->
  match r with
  | Raise _ => b' = b
  | Ok cat =>
      visitCatalog b' = Some cat /\
      (b' = b \/ b' = fst (butler_put_fgcmVisitCatalog cat b))
  end.
Proof.
  assert (Hmake : Fgcmcal._fgcmMakeVisitCatalog cfg dataRefs b = (b', r) ->
                  match r with
                  | Raise _ => b' = b
                  | Ok cat =>
                      visitCatalog b' = Some cat /\
                      (b' = b \/ b' = fst (butler_put_fgcmVisitCatalog cat b))
                  end).
  { intros H; apply fgcmcal_makeVisitCatalog_cases in H.
    destruct r; [subst b'; simpl; auto | exact H]. }
  unfold fgcmcal_visitStep; destruct (remake cfg); [exact Hmake |].
  unfold bind, butler_datasetExists, butler_get_fgcmVisitCatalog; simpl.
  destruct (visitCatalog b) as [cat |] eqn:E; simpl; [| exact Hmake].
  intros H; rewrite E in H; injection H as <- <-; auto.
Qed.

Lemma fgcm_visitStep_cases cfg dataRefs b b' r :
  fgcm_visitStep cfg dataRefs b = (b', r) ->
  match r with
  | Raise _ => b' = b
  | Ok cat =>
      visitCatalog b' = Some cat /\
      (b' = b \/ b' = fst (butler_put_fgcmVisitCatalog cat b))
  end.
Proof.
  unfold fgcm_visitStep.
  unfold bind, butler_datasetExists, butler_get_fgcmVisitCatalog; simpl.
  destruct (visitCatalog b) as [cat |] eqn:E; simpl.
  - intros H; rewrite E in H; injection H as <- <-; auto.
  - intros H; apply fgcm_makeVisitCatalog_cases in H.
    destruct r; [subst b'; simpl; auto | exact H].
Qed.

Lemma fgcmcal_observationStep_cases cfg sel visitCat b b' r :
  fgcmcal_observationStep cfg sel visitCat b = (b', r) ->
  match r with
  | Raise _ => b' = b
  | Ok _ =>
      (b' = b /\ is_some (starObservations b) = true) \/
      exists rows, b' = fst (butler_put_fgcmStarObservations rows b)
  end.
Proof.
  assert (Hmake :
            Fgcmcal._fgcmMakeAllStarObservations cfg sel visitCat b = (b', r) ->
            match r with
            | Raise _ => b' = b
            | Ok _ =>
                (b' = b /\ is_some (starObservations b) = true) \/
                exists rows, b' = fst (butler_put_fgcmStarObservations rows b)
            end).
  { intros H; apply fgcmcal_makeAllStarObservations_cases in H.
    destruct r; [right; eauto | exact H]. }
  unfold fgcmcal_observationStep; destruct (remake cfg); [exact Hmake |].
  unfold bind, butler_datasetExists; simpl.
  destruct (is_some (starObservations b)) eqn:E; simpl; [| exact Hmake].
  intros H; injection H as <- <-; auto.
Qed.

Lemma fgcm_observationStep_cases cfg visitCat b b' r :
  fgcm_observationStep cfg visitCat b = (b', r) ->
  match r with
  | Raise _ => b' = b
  | Ok _ =>
      (b' = b /\ is_some (starObservations b) = true) \/
      exists rows, b' = fst (butler_put_fgcmStarObservations rows b)
  end.
Proof.
  unfold fgcm_observationStep, bind, butler_datasetExists; simpl.
  destruct (is_some (starObservations b)) eqn:E; simpl.
  - intros H; injection H as <- <-; auto.
  - intros H; apply fgcm_makeAllStarObservations_cases in H.
    destruct r; [right; eexists; exact H | exact H].
Qed.

Lemma matchStars_outcome fgcm visitCat b b' r :
  _fgcmMatchStars fgcm visitCat b = (b', r) ->
  match r with
  | Raise _ => b' = b
  | Ok _ =>
      (b' = b /\ is_some (starIds b) = true
       /\ is_some (starIndices b) = true) \/
      exists stars idx,
        b' = fst (butler_put_fgcmStarIndices idx
                    (fst (butler_put_fgcmStarIds stars b)))
  end.
Proof.
  intros H; apply matchStars_cases in H; destruct r; [| exact H].
  destruct H as (obsCat & names & refStars & out & _ & _ & _ & _ & ->).
  right; eauto.
Qed.

Lemma fgcm_matchStep_cases fgcm visitCat b b' r :
  fgcm_matchStep fgcm visitCat b = (b', r) ->
  match r with
  | Raise _ => b' = b
  | Ok _ =>
      (b' = b /\ is_some (starIds b) = true
       /\ is_some (starIndices b) = true) \/
      exists stars idx,
        b' = fst (butler_put_fgcmStarIndices idx
                    (fst (butler_put_fgcmStarIds stars b)))
  end.
Proof.
  intros H.
  pose proof (@matchStars_outcome fgcm visitCat b b' r) as Hm.
  unfold fgcm_matchStep, bind, butler_datasetExists in H; simpl in H.
  destruct (is_some (starIds b)); simpl in H; [| exact (Hm H)].
  destruct (is_some (starIndices b)); simpl in H; [| exact (Hm H)].
  injection H as <- <-; auto.
Qed.

Lemma fgcmcal_matchStep_cases cfg fgcm visitCat b b' r :
  fgcmcal_matchStep cfg fgcm visitCat b = (b', r) ->
  match r with
  | Raise _ => b' = b
  | Ok _ =>
      (b' = b /\ is_some (starIds b) = true
       /\ is_some (starIndices b) = true) \/
      exists stars idx,
        b' = fst (butler_put_fgcmStarIndices idx
                    (fst (butler_put_fgcmStarIds stars b)))
  end.
Proof.
  unfold fgcmcal_matchStep; destruct (remake cfg);
    [apply matchStars_outcome | apply fgcm_matchStep_cases].
Qed.

(** Three steps in a row: the first that raises ends the run. *)
Lemma three_steps_inv {A B} (s1 : Task A) (s2 s3 : A -> Task unit)
    (f : A -> B) b b' r :
  (x <- s1 ;; s2 x ;; s3 x ;; ret (f x)) b = (b', r) ->
  match r with
  | Raise e =>
      s1 b = (b', Raise e) \/
      (exists x b1, s1 b = (b1, Ok x) /\ s2 x b1 = (b', Raise e)) \/
      (exists x b1 b2, s1 b = (b1, Ok x) /\ s2 x b1 = (b2, Ok tt) /\
                       s3 x b2 = (b', Raise e))
  | Ok y =>
      exists x b1 b2, s1 b = (b1, Ok x) /\ s2 x b1 = (b2, Ok tt) /\
                      s3 x b2 = (b', Ok tt) /\ y = f x
  end.
Proof.
  unfold bind, ret.
  destruct (s1 b) as [b1 [x | e1]];
    [| intros H; injection H as <- <-; auto].
  destruct (s2 x b1) as [b2 [[] | e2]] eqn:E2;
    [| intros H; injection H as <- <-; right; left; eauto].
  destruct (s3 x b2) as [b3 [[] | e3]] eqn:E3;
    intros H; injection H as <- <-.
  - exists x, b1, b2; auto.
  - right; right; exists x, b1, b2; auto.
Qed.

(** After a run that completed, all four artifacts are in the Butler and
    the visit catalog is the one returned. *)
Lemma steps_complete b1 b2 b' (cat : list Visit.t) :
  visitCatalog b1 = Some cat ->
  ((b2 = b1 /\ is_some (starObservations b1) = true) \/
   exists rows, b2 = fst (butler_put_fgcmStarObservations rows b1)) ->
  ((b' = b2 /\ is_some (starIds b2) = true
    /\ is_some (starIndices b2) = true) \/
   exists stars idx,
     b' = fst (butler_put_fgcmStarIndices idx
                 (fst (butler_put_fgcmStarIds stars b2)))) ->
  visitCatalog b' = Some cat /\ complete b'.
Proof.
  intros Hv H2 H3; unfold complete.
  destruct H2 as [[-> Ho] | [rows ->]];
    destruct H3 as [(-> & Hi & Hx) | (stars & idx & ->)]; simpl;
    rewrite ?Hv; simpl; auto.
Qed.

Lemma fgcmcal_run_ok cfg sel fgcm dataRefs b b' cat :
  Fgcmcal.run cfg sel fgcm dataRefs b = (b', Ok cat) ->
  visitCatalog b' = Some cat /\ complete b'.
Proof.
  rewrite fgcmcal_run_steps; intros H.
  apply three_steps_inv in H as (x & b1 & b2 & H1 & H2 & H3 & ->).
  apply fgcmcal_visitStep_cases in H1 as [Hv _].
  apply fgcmcal_observationStep_cases in H2.
  apply fgcmcal_matchStep_cases in H3.
  eapply steps_complete; eauto.
Qed.

Lemma fgcm_run_ok cfg fgcm dataRefs b b' r :
  Fgcm.run cfg fgcm dataRefs b = (b', Ok r) ->
  exists cat, visitCatalog b' = Some cat /\ complete b'.
Proof.
  rewrite fgcm_run_steps; intros H.
  apply three_steps_inv in H as (x & b1 & b2 & H1 & H2 & H3 & ->).
  apply fgcm_visitStep_cases in H1 as [Hv _].
  apply fgcm_observationStep_cases in H2.
  apply fgcm_matchStep_cases in H3.
  exists x; eapply steps_complete; eauto.
Qed.

(** A run on a complete Butler, with no rebuild asked for, is a no-op. *)
Lemma fgcmcal_run_complete cfg sel fgcm dataRefs b cat :
  remake cfg = false -> visitCatalog b = Some cat -> complete b ->
  Fgcmcal.run cfg sel fgcm dataRefs b = (b, Ok cat).
Proof.
  intros Hr Hv (_ & Ho & Hi & Hx); rewrite fgcmcal_run_steps.
  erewrite bind_ok by (apply fgcmcal_visitStep_skip; eassumption).
  erewrite bind_ok by (apply fgcmcal_observationStep_skip; eassumption).
  erewrite bind_ok by (apply fgcmcal_matchStep_skip; eassumption).
  reflexivity.
Qed.

Lemma fgcm_run_complete cfg fgcm dataRefs b cat :
  visitCatalog b = Some cat -> complete b ->
  Fgcm.run cfg fgcm dataRefs b = (b, Ok dataRefs).
Proof.
  intros Hv (_ & Ho & Hi & Hx); rewrite fgcm_run_steps.
  erewrite bind_ok by (apply fgcm_visitStep_skip; eassumption).
  erewrite bind_ok by (apply fgcm_observationStep_skip; eassumption).
  erewrite bind_ok by (apply fgcm_matchStep_skip; eassumption).
  reflexivity.
Qed.

(** C7.  A step of [run] whose artifact is in the Butler, with no rebuild
    asked for, returns without rebuilding or writing; hence a second run
    without the rebuild flag on the Butler a first run left behind changes
    nothing: the Butler, its log of puts included, is the same after as
    before.  The fgcm variant has no rebuild flag and behaves the same. *)
Theorem second_run_changes_nothing :
  (forall cfg dataRefs b cat,
     remake cfg = false -> visitCatalog b = Some cat ->
     fgcmcal_visitStep cfg dataRefs b = (b, Ok cat)) /\
  (forall cfg sel visitCat b,
     remake cfg = false -> is_some (starObservations b) = true ->
     fgcmcal_observationStep cfg sel visitCat b = (b, Ok tt)) /\
  (forall cfg fgcm visitCat b,
     remake cfg = false ->
     is_some (starIds b) = true -> is_some (starIndices b) = true ->
     fgcmcal_matchStep cfg fgcm visitCat b = (b, Ok tt)) /\
  (forall cfg sel fgcm dataRefs cfg' sel' fgcm' dataRefs' b b' cat,
     Fgcmcal.run cfg sel fgcm dataRefs b = (b', Ok cat) ->
     remake cfg' = false ->
     Fgcmcal.run cfg' sel' fgcm' dataRefs' b' = (b', Ok cat)) /\
  (forall cfg fgcm dataRefs cfg' fgcm' dataRefs' b b' r,
     Fgcm.run cfg fgcm dataRefs b = (b', Ok r) ->
     Fgcm.run cfg' fgcm' dataRefs' b' = (b', Ok dataRefs')).
Proof.
  split; [intros; apply fgcmcal_visitStep_skip; assumption |].
  split; [intros; apply fgcmcal_observationStep_skip; assumption |].
  split; [intros; apply fgcmcal_matchStep_skip; assumption |].
  split.
  - intros cfg sel fgcm dataRefs cfg' sel' fgcm' dataRefs' b b' cat H Hr.
    apply fgcmcal_run_ok in H as [Hv Hc].
    apply fgcmcal_run_complete; assumption.
  - intros cfg fgcm dataRefs cfg' fgcm' dataRefs' b b' r H.
    apply fgcm_run_ok in H as (cat & Hv & Hc).
    eapply fgcm_run_complete; eassumption.
Qed.

(** The five-observation scenario run twice: the first run compiles the
    observations and matches the stars, the second changes nothing. *)
Lemma second_run_changes_nothing_witness :
  Fgcmcal.run config0 selectAll matcher_two_stars [] butler_two_visits
    = (butler_matched, Ok visitCat_two) /\
  Fgcmcal.run config0 selectAll matcher_two_stars [] butler_matched
    = (butler_matched, Ok visitCat_two) /\
  Fgcm.run config0 matcher_two_stars [] butler_matched
    = (butler_matched, Ok []).
Proof.
  destruct second_run_changes_nothing as (_ & _ & _ & H4 & H5).
  assert (E1 : Fgcmcal.run config0 selectAll matcher_two_stars []
                 butler_two_visits = (butler_matched, Ok visitCat_two))
    by reflexivity.
  assert (E2 : Fgcm.run config0 matcher_two_stars [] butler_matched
               = (butler_matched, Ok [])) by reflexivity.
  split; [exact E1 |]; split.
  - exact (H4 _ _ _ _ config0 selectAll matcher_two_stars [] _ _ _ E1
              eq_refl).
  - exact (H5 _ _ _ config0 matcher_two_stars [] _ _ _ E2).
Defined.

(** C8.  Each stage puts its artifact once, as its last action, and
    writes nothing when it raises; when a step of [run] raises, the run
    ends there: the Butler is as the last completed step left it, and no
    later step has run. *)
Theorem stages_commit_once cfg sel fgcm dataRefs b :
  (forall b' r,
     Fgcmcal._fgcmMakeVisitCatalog cfg dataRefs b = (b', r) ->
     match r with
     | Raise _ => b' = b
     | Ok cat => wrote b b' [fgcmVisitCatalog] /\ visitCatalog b' = Some cat
     end) /\
  (forall visitCat b' r,
     Fgcmcal._fgcmMakeAllStarObservations cfg sel visitCat b = (b', r) ->
     match r with
     | Raise _ => b' = b
     | Ok _ => wrote b b' [fgcmStarObservations] /\
               is_some (starObservations b') = true
     end) /\
  (forall visitCat b' r,
     _fgcmMatchStars fgcm visitCat b = (b', r) ->
     match r with
     | Raise _ => b' = b
     | Ok _ => wrote b b' [fgcmStarIds; fgcmStarIndices] /\
               is_some (starIds b') = true /\
               is_some (starIndices b') = true
     end) /\
  (forall b' e,
     Fgcmcal.run cfg sel fgcm dataRefs b = (b', Raise e) ->
     (fgcmcal_visitStep cfg dataRefs b = (b', Raise e) /\ b' = b) \/
     (exists visitCat,
        fgcmcal_visitStep cfg dataRefs b = (b', Ok visitCat) /\
        fgcmcal_observationStep cfg sel visitCat b' = (b', Raise e)) \/
     (exists visitCat b1,
        fgcmcal_visitStep cfg dataRefs b = (b1, Ok visitCat) /\
        fgcmcal_observationStep cfg sel visitCat b1 = (b', Ok tt) /\
        fgcmcal_matchStep cfg fgcm visitCat b' = (b', Raise e))).
Proof.
  split; [| split; [| split]].
  - intros b' r H; apply fgcmcal_makeVisitCatalog_cases in H.
    destruct r as [cat | e]; [subst b' | exact H].
    split; [apply wrote_visitCatalog | reflexivity].
  - intros visitCat b' r H; apply fgcmcal_makeAllStarObservations_cases in H.
    destruct r as [[] | e]; [subst b' | exact H].
    split; [apply wrote_starObservations | reflexivity].
  - intros visitCat b' r H; apply matchStars_cases in H.
    destruct r as [[] | e]; [| exact H].
    destruct H as (obsCat & names & refStars & out & _ & _ & _ & _ & ->).
    split; [apply wrote_stars | split; reflexivity].
  - intros b' e H; rewrite fgcmcal_run_steps in H.
    apply three_steps_inv in H
      as [H1 | [(x & b1 & H1 & H2) | (x & b1 & b2 & H1 & H2 & H3)]].
    + pose proof (fgcmcal_visitStep_cases _ _ _ H1) as ->; auto.
    + pose proof (fgcmcal_observationStep_cases _ _ _ _ H2) as ->.
      right; left; eauto.
    + pose proof (fgcmcal_matchStep_cases _ _ _ _ H3) as ->.
      right; right; eauto.
Qed.

Lemma stages_commit_once_witness :
  (wrote butler_two_visits butler_compiled [fgcmStarObservations] /\
   is_some (starObservations butler_compiled) = true) /\
  ((fgcmcal_visitStep config0 [] butler_no_exposure
    = (butler_no_exposure, Raise NoResults) /\
    butler_no_exposure = butler_no_exposure) \/
   (exists visitCat,
      fgcmcal_visitStep config0 [] butler_no_exposure
      = (butler_no_exposure, Ok visitCat) /\
      fgcmcal_observationStep config0 selectAll visitCat butler_no_exposure
      = (butler_no_exposure, Raise NoResults)) \/
   (exists visitCat b1,
      fgcmcal_visitStep config0 [] butler_no_exposure = (b1, Ok visitCat) /\
      fgcmcal_observationStep config0 selectAll visitCat b1
      = (butler_no_exposure, Ok tt) /\
      fgcmcal_matchStep config0 matcher_two_stars visitCat butler_no_exposure
      = (butler_no_exposure, Raise NoResults))).
Proof.
  split.
  - destruct (@stages_commit_once config0 selectAll matcher_two_stars []
                butler_two_visits) as (_ & H2 & _).
    exact (H2 visitCat_two butler_compiled (Ok tt) eq_refl).
  - destruct (@stages_commit_once config0 selectAll matcher_two_stars []
                butler_no_exposure) as (_ & _ & _ & H4).
    exact (H4 butler_no_exposure NoResults eq_refl).
Defined.

(** ** The older variant of the visit catalog *)

Lemma fgcm_readVisitInfo_ok cfg v acc b b1 acc1 :
  Fgcm.readVisitInfo cfg v acc b = (b1, Ok acc1) ->
  b1 = b /\ exists rec, Visit.visit rec = v /\ acc1 = acc ++ [rec].
Proof.
  unfold Fgcm.readVisitInfo; intros H.
  rewrite bind_readonly in H by ro.
  destruct (result _ b) as [exp | e]; [| discriminate].
  rewrite bind_readonly in H by ro.
  destruct (result (newVisitRecord v exp) b) as [rec | e] eqn:Erec;
    [| discriminate].
  unfold ret in H; injection H as <- <-.
  split; [reflexivity |]; exists rec; split; [| reflexivity].
  assert (Hrec : newVisitRecord v exp b = (b, Ok rec))
    by (rewrite (readonly_eq b (readonly_newVisitRecord v exp)), Erec;
        reflexivity).
  apply newVisitRecord_ok in Hrec as (_ & Hv & _); exact Hv.
Qed.

Lemma fgcm_visit_loop_visits cfg b :
  forall todo acc b' cat,
    for_in todo (Fgcm.readVisitInfo cfg) acc b = (b', Ok cat) ->
    visits cat = visits acc ++ todo.
Proof.
  induction todo as [| v todo IH]; simpl; intros acc b' cat H.
  - injection H as <- <-; rewrite app_nil_r; reflexivity.
  - apply bind_inv in H as [(e & _ & He) | (b1 & acc1 & H1 & H)];
      [discriminate |].
    apply fgcm_readVisitInfo_ok in H1 as (-> & rec & Hv & ->).
    apply IH in H; rewrite H; unfold visits; rewrite map_app; simpl.
    rewrite Hv, <- app_assoc; reflexivity.
Qed.

(** The fgcm variant does not sort: its catalog lists the visits in the
    order they were found. *)
Lemma fgcm_visit_catalog_keeps_order cfg dataRefs b b' visitCat :
  Fgcm._fgcmMakeVisitCatalog cfg dataRefs b = (b', Ok visitCat) ->
  exists srcVisits,
    Fgcm.findVisits cfg dataRefs b = (b, Ok srcVisits) /\
    visits visitCat = srcVisits.
Proof.
  unfold Fgcm._fgcmMakeVisitCatalog; intros H.
  pose proof (readonly_eq b (readonly_fgcm_findVisits cfg dataRefs)) as Hfv.
  rewrite bind_readonly in H by ro.
  destruct (result _ b) as [vs | e]; [| discriminate].
  exists vs; split; [exact Hfv |].
  apply bind_inv in H as [(e & _ & He) | (b1 & cat & Hloop & H)];
    [discriminate |].
  apply fgcm_visit_loop_visits in Hloop; simpl in Hloop.
  unfold bind, butler_put_fgcmVisitCatalog, ret in H.
  injection H as _ <-; exact Hloop.
Qed.

Lemma fgcm_visit_catalog_unsorted :
  exists b' visitCat,
    Fgcm._fgcmMakeVisitCatalog config0 dataRefs_unordered butler_raw
      = (b', Ok visitCat) /\
    visits visitCat = [101; 100]%Z.
Proof. eexists; eexists; split; reflexivity. Qed.

(** The fgcm variant reads the raw exposure only: a visit with a calexp
    but no raw ends its stage, where the fgcmcal variant goes on. *)
Lemma fgcm_no_calexp_fallback :
  Fgcm._fgcmMakeVisitCatalog config0 [] butler_calexp_only
    = (butler_calexp_only, Raise NoResults) /\
  exists b',
    Fgcmcal._fgcmMakeVisitCatalog config0 [] butler_calexp_only
      = (b', Ok [visitRecord_r 100]).
Proof.
  split; [reflexivity |].
  exists (fst (butler_put_fgcmVisitCatalog [visitRecord_r 100]
                 butler_calexp_only)).
  reflexivity.
Qed.

(* ------------------------------------------------------------------ *)
(** * Further properties of the code *)

(** ** The command-line runner *)

Lemma fgcmcal_runner_run_eq cfg sel fgcm wm self parsedCmd :
  FgcmcalRunner.run cfg sel fgcm wm self parsedCmd =
  FgcmcalRunner.__call__ cfg sel fgcm wm self (tt, id_refList parsedCmd).
Proof. reflexivity. Qed.

Lemma fgcm_runner_run_eq cfg fgcm wm self parsedCmd b :
  FgcmRunner.run cfg fgcm wm self parsedCmd b =
  (r <- FgcmRunner.__call__ cfg fgcm wm self (tt, id_refList parsedCmd) ;;
   ret (FgcmRunner.Returned r)) b.
Proof. reflexivity. Qed.

(** X1.  The runner of the fgcmcal variant, with [doRaise] and
    [doReturnResults] off and no metadata to write, never lets an exception
    of the task out: it returns one [Struct] whose exit status is 0 when
    [task.run] returned and 1 when it raised, and leaves the Butler as
    [task.run] left it. *)
Theorem runner_reports_exit_status cfg sel fgcm wm self parsedCmd b b1 r :
  doRaise self = false ->
  doReturnResults self = false ->
  (forall b0, wm None b0 = (b0, Ok tt)) ->
  Fgcmcal.run cfg sel fgcm (id_refList parsedCmd) b = (b1, r) ->
  FgcmcalRunner.run cfg sel fgcm wm self parsedCmd b =
  (b1, Ok [ {| exitStatus := match r with Ok _ => 0%Z | Raise _ => 1%Z end;
               results := None |} ]).
Proof.
  intros Hraise Hres Hwm Hrun.
  rewrite fgcmcal_runner_run_eq.
  unfold FgcmcalRunner.__call__; rewrite Hraise, Hres.
  unfold bind at 1, try_except_Exception, bind at 1.
  rewrite Hrun; destruct r as [cat | e]; unfold ret, bind, _getMetadataName;
    rewrite Hwm; reflexivity.
Qed.

Lemma runner_reports_exit_status_witness :
  FgcmcalRunner.run config0 selectAll matcher_two_stars writeNoMetadata
    runner_quiet {| id_refList := [] |} butler_no_exposure =
  (butler_no_exposure, Ok [ {| exitStatus := 1%Z; results := None |} ]).
Proof.
  apply (@runner_reports_exit_status config0 selectAll matcher_two_stars
           writeNoMetadata runner_quiet {| id_refList := [] |}
           butler_no_exposure butler_no_exposure (Raise NoResults)).
  - reflexivity.
  - reflexivity.
  - intros b0; reflexivity.
  - reflexivity.
Defined.

(** X2.  With [doRaise] off and [doReturnResults] on, a run that raised
    leaves the local [results] unbound: the runner of either variant then
    ends in [UnboundLocalError] instead of returning, the original
    exception is lost, and the Butler is as [task.run] left it.  When
    [task.run] returned, the fgcmcal runner returns its value with exit
    status 0 and the fgcm runner returns the value itself. *)
Theorem runner_results_unbound_after_failure cfg sel fgcm wm self parsedCmd b :
  doRaise self = false ->
  doReturnResults self = true ->
  (forall b0, wm None b0 = (b0, Ok tt)) ->
  (forall b1 e,
     Fgcmcal.run cfg sel fgcm (id_refList parsedCmd) b = (b1, Raise e) ->
     FgcmcalRunner.run cfg sel fgcm wm self parsedCmd b
     = (b1, Raise UnboundLocalError)) /\
  (forall b1 e,
     Fgcm.run cfg fgcm (id_refList parsedCmd) b = (b1, Raise e) ->
     FgcmRunner.run cfg fgcm wm self parsedCmd b
     = (b1, Raise UnboundLocalError)) /\
  (forall b1 cat,
     Fgcmcal.run cfg sel fgcm (id_refList parsedCmd) b = (b1, Ok cat) ->
     FgcmcalRunner.run cfg sel fgcm wm self parsedCmd b
     = (b1, Ok [ {| exitStatus := 0%Z; results := Some cat |} ])) /\
  (forall b1 refs,
     Fgcm.run cfg fgcm (id_refList parsedCmd) b = (b1, Ok refs) ->
     FgcmRunner.run cfg fgcm wm self parsedCmd b
     = (b1, Ok (FgcmRunner.Returned (Some refs)))).
Proof.
  intros Hraise Hres Hwm; repeat split; intros b1 x Hrun.
  - rewrite fgcmcal_runner_run_eq.
    unfold FgcmcalRunner.__call__; rewrite Hraise, Hres.
    unfold bind at 1, try_except_Exception, bind at 1.
    rewrite Hrun; unfold ret, bind, _getMetadataName; rewrite Hwm; reflexivity.
  - rewrite fgcm_runner_run_eq.
    unfold FgcmRunner.__call__; rewrite Hraise, Hres.
    unfold bind at 1, bind at 1, try_except_Exception, bind at 1.
    rewrite Hrun; unfold ret, bind, _getMetadataName; rewrite Hwm; reflexivity.
  - rewrite fgcmcal_runner_run_eq.
    unfold FgcmcalRunner.__call__; rewrite Hraise, Hres.
    unfold bind at 1, try_except_Exception, bind at 1.
    rewrite Hrun; unfold ret, bind, _getMetadataName; rewrite Hwm; reflexivity.
  - rewrite fgcm_runner_run_eq.
    unfold FgcmRunner.__call__; rewrite Hraise, Hres.
    unfold bind at 1, bind at 1, try_except_Exception, bind at 1.
    rewrite Hrun; unfold ret, bind, _getMetadataName; rewrite Hwm; reflexivity.
Qed.

Lemma runner_results_unbound_after_failure_witness :
  FgcmcalRunner.run config0 selectAll matcher_two_stars writeNoMetadata
    runner_results {| id_refList := [] |} butler_no_exposure
  = (butler_no_exposure, Raise UnboundLocalError) /\
  FgcmRunner.run config0 matcher_two_stars writeNoMetadata
    runner_results {| id_refList := [] |} butler_no_exposure
  = (butler_no_exposure, Raise UnboundLocalError).
Proof.
  destruct (@runner_results_unbound_after_failure config0 selectAll
              matcher_two_stars writeNoMetadata runner_results
              {| id_refList := [] |} butler_no_exposure
              eq_refl eq_refl (fun b0 => eq_refl)) as (H1 & H2 & _).
  split.
  - exact (H1 butler_no_exposure NoResults eq_refl).
  - exact (H2 butler_no_exposure NoResults eq_refl).
Defined.

(** X3.  With [doRaise] on, an exception of [task.run] goes through the
    runner of either variant unchanged and [writeMetadata] is not reached,
    whatever it would have done. *)
Theorem runner_doRaise_propagates cfg sel fgcm wm self parsedCmd b :
  doRaise self = true ->
  (forall b1 e,
     Fgcmcal.run cfg sel fgcm (id_refList parsedCmd) b = (b1, Raise e) ->
     FgcmcalRunner.run cfg sel fgcm wm self parsedCmd b = (b1, Raise e)) /\
  (forall b1 e,
     Fgcm.run cfg fgcm (id_refList parsedCmd) b = (b1, Raise e) ->
     FgcmRunner.run cfg fgcm wm self parsedCmd b = (b1, Raise e)).
Proof.
  intros Hraise; split; intros b1 e Hrun.
  - rewrite fgcmcal_runner_run_eq.
    unfold FgcmcalRunner.__call__; rewrite Hraise.
    unfold bind at 1, bind at 1; rewrite Hrun; reflexivity.
  - rewrite fgcm_runner_run_eq.
    unfold FgcmRunner.__call__; rewrite Hraise.
    unfold bind at 1, bind at 1, bind at 1; rewrite Hrun; reflexivity.
Qed.

Lemma runner_doRaise_propagates_witness :
  FgcmcalRunner.run config0 selectAll matcher_two_stars
    (fun _ => raise RuntimeError)
    {| doRaise := true; doReturnResults := false |}
    {| id_refList := [] |} butler_no_exposure
  = (butler_no_exposure, Raise NoResults) /\
  FgcmRunner.run config0 matcher_two_stars
    (fun _ => raise RuntimeError)
    {| doRaise := true; doReturnResults := false |}
    {| id_refList := [] |} butler_no_exposure
  = (butler_no_exposure, Raise NoResults).
Proof.
  destruct (@runner_doRaise_propagates config0 selectAll matcher_two_stars
              (fun _ => raise RuntimeError)
              {| doRaise := true; doReturnResults := false |}
              {| id_refList := [] |} butler_no_exposure eq_refl)
    as (H1 & H2).
  split.
  - exact (H1 butler_no_exposure NoResults eq_refl).
  - exact (H2 butler_no_exposure NoResults eq_refl).
Defined.

(** ** What a run does to the Butler *)

Lemma after_puts_refl b : after_puts b b.
Proof.
  unfold after_puts, same_inputs; repeat split; auto.
  exists []; rewrite app_nil_r; reflexivity.
Qed.

Lemma after_puts_trans b1 b2 b3 :
  after_puts b1 b2 -> after_puts b2 b3 -> after_puts b1 b3.
Proof.
  unfold after_puts, same_inputs.
  intros ((Hc1 & Hm1 & Hs1 & Hr1 & Hx1) & [l1 Hl1] & Hd1)
         ((Hc2 & Hm2 & Hs2 & Hr2 & Hx2) & [l2 Hl2] & Hd2).
  repeat split; try congruence.
  - exists (l1 ++ l2); rewrite Hl2, Hl1, app_assoc; reflexivity.
  - intros d Hd; apply Hd2, Hd1, Hd.
Qed.

Lemma after_put_visitCatalog cat b :
  after_puts b (fst (butler_put_fgcmVisitCatalog cat b)).
Proof.
  unfold after_puts, same_inputs; simpl; repeat split; eauto.
  intros []; simpl; auto.
Qed.

Lemma after_put_starObservations rows b :
  after_puts b (fst (butler_put_fgcmStarObservations rows b)).
Proof.
  unfold after_puts, same_inputs; simpl; repeat split; eauto.
  intros []; simpl; auto.
Qed.

Lemma after_put_stars stars idx b :
  after_puts b (fst (butler_put_fgcmStarIndices idx
                       (fst (butler_put_fgcmStarIds stars b)))).
Proof.
  unfold after_puts, same_inputs; simpl; repeat split; eauto.
  - rewrite <- app_assoc; eauto.
  - intros []; simpl; auto.
Qed.

(** Three steps that each leave the Butler as it was or put into it. *)
Lemma three_steps_after_puts {A B} (s1 : Task A) (s2 s3 : A -> Task unit)
    (f : A -> B) b b' r :
  (forall b0 b1 r1, s1 b0 = (b1, r1) -> after_puts b0 b1) ->
  (forall x b0 b1 r1, s2 x b0 = (b1, r1) -> after_puts b0 b1) ->
  (forall x b0 b1 r1, s3 x b0 = (b1, r1) -> after_puts b0 b1) ->
  (x <- s1 ;; s2 x ;; s3 x ;; ret (f x)) b = (b', r) ->
  after_puts b b'.
Proof.
  intros H1 H2 H3 H; apply three_steps_inv in H.
  destruct r as [y | e].
  - destruct H as (x & b1 & b2 & E1 & E2 & E3 & _).
    eapply after_puts_trans; [eapply H1; exact E1 |].
    eapply after_puts_trans; [eapply H2; exact E2 | eapply H3; exact E3].
  - destruct H as [E1 | [(x & b1 & E1 & E2) | (x & b1 & b2 & E1 & E2 & E3)]].
    + eapply H1; exact E1.
    + eapply after_puts_trans; [eapply H1; exact E1 | eapply H2; exact E2].
    + eapply after_puts_trans; [eapply H1; exact E1 |].
      eapply after_puts_trans; [eapply H2; exact E2 | eapply H3; exact E3].
Qed.

Lemma visitStep_outcome_after_puts b b' (r : Result (list Visit.t)) :
  match r with
  | Raise _ => b' = b
  | Ok cat =>
      visitCatalog b' = Some cat /\
      (b' = b \/ b' = fst (butler_put_fgcmVisitCatalog cat b))
  end -> after_puts b b'.
Proof.
  destruct r as [cat | e]; [intros [_ [-> | ->]] | intros ->];
    auto using after_puts_refl, after_put_visitCatalog.
Qed.

Lemma observationStep_outcome_after_puts b b' (r : Result unit) :
  match r with
  | Raise _ => b' = b
  | Ok _ =>
      (b' = b /\ is_some (starObservations b) = true) \/
      exists rows, b' = fst (butler_put_fgcmStarObservations rows b)
  end -> after_puts b b'.
Proof.
  destruct r as [[] | e]; [intros [[-> _] | [rows ->]] | intros ->];
    auto using after_puts_refl, after_put_starObservations.
Qed.

Lemma matchStep_outcome_after_puts b b' (r : Result unit) :
  match r with
  | Raise _ => b' = b
  | Ok _ =>
      (b' = b /\ is_some (starIds b) = true
       /\ is_some (starIndices b) = true) \/
      exists stars idx,
        b' = fst (butler_put_fgcmStarIndices idx
                    (fst (butler_put_fgcmStarIds stars b)))
  end -> after_puts b b'.
Proof.
  destruct r as [[] | e]; [intros [[-> _] | (stars & idx & ->)] | intros ->];
    auto using after_puts_refl, after_put_stars.
Qed.

(** X4.  Whatever a run of either variant does, and however it ends, it
    leaves the camera, the [src] metadata and catalogs, the raw and the
    calexp exposures as they were, only appends to the log of puts, and
    removes no artifact that was in the Butler. *)
Theorem run_never_touches_inputs cfg sel fgcm dataRefs b :
  (forall b' r,
     Fgcmcal.run cfg sel fgcm dataRefs b = (b', r) ->
     same_inputs b b' /\
     (exists l, putLog b' = putLog b ++ l) /\
     (forall d, result (butler_datasetExists d) b = Ok true ->
                result (butler_datasetExists d) b' = Ok true)) /\
  (forall b' r,
     Fgcm.run cfg fgcm dataRefs b = (b', r) ->
     same_inputs b b' /\
     (exists l, putLog b' = putLog b ++ l) /\
     (forall d, result (butler_datasetExists d) b = Ok true ->
                result (butler_datasetExists d) b' = Ok true)).
Proof.
  split; intros b' r H.
  - rewrite fgcmcal_run_steps in H.
    eapply three_steps_after_puts; [| | | exact H].
    + intros b0 b1 r1 E.
      eapply visitStep_outcome_after_puts, fgcmcal_visitStep_cases, E.
    + intros x b0 b1 r1 E.
      eapply observationStep_outcome_after_puts,
        fgcmcal_observationStep_cases, E.
    + intros x b0 b1 r1 E.
      eapply matchStep_outcome_after_puts, fgcmcal_matchStep_cases, E.
  - rewrite fgcm_run_steps in H.
    eapply three_steps_after_puts; [| | | exact H].
    + intros b0 b1 r1 E.
      eapply visitStep_outcome_after_puts, fgcm_visitStep_cases, E.
    + intros x b0 b1 r1 E.
      eapply observationStep_outcome_after_puts,
        fgcm_observationStep_cases, E.
    + intros x b0 b1 r1 E.
      eapply matchStep_outcome_after_puts, fgcm_matchStep_cases, E.
Qed.

(** The puts of each step of a run that completed. *)
Lemma fgcmcal_visitStep_log cfg dataRefs b b' cat :
  fgcmcal_visitStep cfg dataRefs b = (b', Ok cat) ->
  putLog b' = putLog b ++ (if remake cfg || negb (is_some (visitCatalog b))
                           then [fgcmVisitCatalog] else []) /\
  visitCatalog b' = Some cat /\
  starObservations b' = starObservations b /\
  starIds b' = starIds b /\ starIndices b' = starIndices b.
Proof.
  unfold fgcmcal_visitStep; destruct (remake cfg); simpl.
  - intros H; apply fgcmcal_makeVisitCatalog_cases in H; subst b'; simpl; auto.
  - unfold bind, butler_datasetExists, butler_get_fgcmVisitCatalog; simpl.
    destruct (visitCatalog b) as [c |] eqn:E; simpl.
    + rewrite E; intros H; injection H as <- <-; rewrite app_nil_r; auto.
    + intros H; apply fgcmcal_makeVisitCatalog_cases in H; subst b'; simpl; auto.
Qed.

Lemma fgcm_visitStep_log cfg dataRefs b b' cat :
  fgcm_visitStep cfg dataRefs b = (b', Ok cat) ->
  putLog b' = putLog b ++ (if false || negb (is_some (visitCatalog b))
                           then [fgcmVisitCatalog] else []) /\
  visitCatalog b' = Some cat /\
  starObservations b' = starObservations b /\
  starIds b' = starIds b /\ starIndices b' = starIndices b.
Proof.
  unfold fgcm_visitStep.
  unfold bind, butler_datasetExists, butler_get_fgcmVisitCatalog; simpl.
  destruct (visitCatalog b) as [c |] eqn:E; simpl.
  - rewrite E; intros H; injection H as <- <-; rewrite app_nil_r; auto.
  - intros H; apply fgcm_makeVisitCatalog_cases in H; subst b'; simpl; auto.
Qed.

Lemma fgcmcal_observationStep_log cfg sel visitCat b b' :
  fgcmcal_observationStep cfg sel visitCat b = (b', Ok tt) ->
  putLog b' = putLog b ++ (if remake cfg || negb (is_some (starObservations b))
                           then [fgcmStarObservations] else []) /\
  visitCatalog b' = visitCatalog b /\
  is_some (starObservations b') = true /\
  starIds b' = starIds b /\ starIndices b' = starIndices b.
Proof.
  unfold fgcmcal_observationStep; destruct (remake cfg); simpl.
  - intros H; apply fgcmcal_makeAllStarObservations_cases in H; subst b';
      simpl; auto.
  - unfold bind, butler_datasetExists; simpl.
    destruct (is_some (starObservations b)) eqn:E; simpl.
    + intros H; injection H as <-; rewrite app_nil_r; auto.
    + intros H; apply fgcmcal_makeAllStarObservations_cases in H; subst b';
        simpl; auto.
Qed.

Lemma fgcm_observationStep_log cfg visitCat b b' :
  fgcm_observationStep cfg visitCat b = (b', Ok tt) ->
  putLog b' = putLog b ++ (if false || negb (is_some (starObservations b))
                           then [fgcmStarObservations] else []) /\
  visitCatalog b' = visitCatalog b /\
  is_some (starObservations b') = true /\
  starIds b' = starIds b /\ starIndices b' = starIndices b.
Proof.
  unfold fgcm_observationStep, bind, butler_datasetExists; simpl.
  destruct (is_some (starObservations b)) eqn:E; simpl.
  - intros H; injection H as <-; rewrite app_nil_r; auto.
  - intros H; apply fgcm_makeAllStarObservations_cases in H; subst b';
      simpl; auto.
Qed.

Lemma matchStars_log fgcm visitCat b b' :
  _fgcmMatchStars fgcm visitCat b = (b', Ok tt) ->
  putLog b' = putLog b ++ [fgcmStarIds; fgcmStarIndices] /\
  visitCatalog b' = visitCatalog b /\
  starObservations b' = starObservations b /\
  is_some (starIds b') = true /\ is_some (starIndices b') = true.
Proof.
  intros H; apply matchStars_cases in H
    as (obsCat & names & refStars & out & _ & _ & _ & _ & ->).
  simpl; rewrite <- app_assoc; auto.
Qed.

Lemma fgcm_matchStep_log fgcm visitCat b b' :
  fgcm_matchStep fgcm visitCat b = (b', Ok tt) ->
  putLog b' = putLog b
              ++ (if false || negb (is_some (starIds b) && is_some (starIndices b))
                  then [fgcmStarIds; fgcmStarIndices] else []) /\
  visitCatalog b' = visitCatalog b /\
  starObservations b' = starObservations b /\
  is_some (starIds b') = true /\ is_some (starIndices b') = true.
Proof.
  intros H.
  pose proof (@matchStars_log fgcm visitCat b b') as Hm.
  unfold fgcm_matchStep, bind, butler_datasetExists in H; simpl in H.
  destruct (is_some (starIds b)) eqn:E1; simpl in *; [| exact (Hm H)].
  destruct (is_some (starIndices b)) eqn:E2; simpl in *; [| exact (Hm H)].
  injection H as <-; rewrite app_nil_r; auto.
Qed.

Lemma fgcmcal_matchStep_log cfg fgcm visitCat b b' :
  fgcmcal_matchStep cfg fgcm visitCat b = (b', Ok tt) ->
  putLog b' = putLog b
              ++ (if remake cfg
                     || negb (is_some (starIds b) && is_some (starIndices b))
                  then [fgcmStarIds; fgcmStarIndices] else []) /\
  visitCatalog b' = visitCatalog b /\
  starObservations b' = starObservations b /\
  is_some (starIds b') = true /\ is_some (starIndices b') = true.
Proof.
  unfold fgcmcal_matchStep; destruct (remake cfg);
    [apply matchStars_log | apply fgcm_matchStep_log].
Qed.

(** Three steps whose puts are known: the puts of the run are theirs, one
    after the other. *)
Lemma planned_puts_steps force b b1 b2 b' (cat : list Visit.t) :
  putLog b1 = putLog b ++ (if force || negb (is_some (visitCatalog b))
                           then [fgcmVisitCatalog] else []) /\
  visitCatalog b1 = Some cat /\
  starObservations b1 = starObservations b /\
  starIds b1 = starIds b /\ starIndices b1 = starIndices b ->
  putLog b2 = putLog b1 ++ (if force || negb (is_some (starObservations b1))
                            then [fgcmStarObservations] else []) /\
  visitCatalog b2 = visitCatalog b1 /\
  is_some (starObservations b2) = true /\
  starIds b2 = starIds b1 /\ starIndices b2 = starIndices b1 ->
  putLog b' = putLog b2
              ++ (if force
                     || negb (is_some (starIds b2) && is_some (starIndices b2))
                  then [fgcmStarIds; fgcmStarIndices] else []) /\
  visitCatalog b' = visitCatalog b2 /\
  starObservations b' = starObservations b2 /\
  is_some (starIds b') = true /\ is_some (starIndices b') = true ->
  putLog b' = putLog b ++ planned_puts force b /\
  visitCatalog b' = Some cat /\ complete b'.
Proof.
  intros (L1 & V1 & O1 & I1 & X1) (L2 & V2 & O2 & I2 & X2)
         (L3 & V3 & O3 & I3 & X3).
  unfold planned_puts, complete.
  rewrite L3, L2, L1, I2, X2, I1, X1, O1, V3, V2, V1, O3, <- !app_assoc.
  auto 10.
Qed.

(** X5.  A run that completes has made exactly the puts that were due, in
    the order of the steps: the visit catalog when it was missing, the
    observations when they were missing, the two star catalogs when either
    was missing, and all of them when the fgcmcal variant is asked to
    rebuild.  It leaves all four artifacts in the Butler; the fgcmcal
    variant returns the visit catalog that is stored, the fgcm variant the
    data references it was given. *)
Theorem run_puts_what_is_missing cfg sel fgcm dataRefs b :
  (forall b' cat,
     Fgcmcal.run cfg sel fgcm dataRefs b = (b', Ok cat) ->
     putLog b' = putLog b ++ planned_puts (remake cfg) b /\
     visitCatalog b' = Some cat /\ complete b') /\
  (forall b' r,
     Fgcm.run cfg fgcm dataRefs b = (b', Ok r) ->
     putLog b' = putLog b ++ planned_puts false b /\
     r = dataRefs /\ complete b').
Proof.
  split.
  - intros b' cat H; rewrite fgcmcal_run_steps in H.
    apply three_steps_inv in H as (x & b1 & b2 & H1 & H2 & H3 & ->).
    apply fgcmcal_visitStep_log in H1.
    apply fgcmcal_observationStep_log in H2.
    apply fgcmcal_matchStep_log in H3.
    eapply planned_puts_steps; eassumption.
  - intros b' r H; rewrite fgcm_run_steps in H.
    apply three_steps_inv in H as (x & b1 & b2 & H1 & H2 & H3 & ->).
    apply fgcm_visitStep_log in H1.
    apply fgcm_observationStep_log in H2.
    apply fgcm_matchStep_log in H3.
    destruct (@planned_puts_steps false b b1 b2 b' x H1 H2 H3) as (L & _ & C).
    auto.
Qed.

Lemma run_puts_what_is_missing_witness :
  putLog butler_matched
  = [fgcmStarObservations; fgcmStarIds; fgcmStarIndices] /\
  visitCatalog butler_matched = Some visitCat_two /\ complete butler_matched.
Proof.
  destruct (@run_puts_what_is_missing config0 selectAll matcher_two_stars []
              butler_two_visits) as [H _].
  exact (H butler_matched visitCat_two eq_refl).
Defined.

(** X6.  Once a visit catalog is in the Butler (and, for the fgcmcal
    variant, no rebuild is asked for), the data references given to [run]
    play no part: the stored catalog is what the later steps work from, so
    two runs that differ in their data references only end with the same
    Butler, and the fgcmcal variant with the same result. *)
Theorem stored_visit_catalog_overrides_dataRefs
    cfg sel fgcm refs1 refs2 b cat :
  visitCatalog b = Some cat ->
  (remake cfg = false ->
   Fgcmcal.run cfg sel fgcm refs1 b = Fgcmcal.run cfg sel fgcm refs2 b /\
   Fgcmcal.run cfg sel fgcm refs1 b =
   (fgcmcal_observationStep cfg sel cat ;;
    fgcmcal_matchStep cfg fgcm cat ;; ret cat) b) /\
  fst (Fgcm.run cfg fgcm refs1 b) = fst (Fgcm.run cfg fgcm refs2 b) /\
  Fgcm.run cfg fgcm refs1 b =
  (fgcm_observationStep cfg cat ;;
   fgcm_matchStep fgcm cat ;; ret refs1) b.
Proof.
  intros Hv.
  assert (Hcal : forall refs, remake cfg = false ->
            Fgcmcal.run cfg sel fgcm refs b =
            (fgcmcal_observationStep cfg sel cat ;;
             fgcmcal_matchStep cfg fgcm cat ;; ret cat) b).
  { intros refs Hr; rewrite fgcmcal_run_steps.
    erewrite bind_ok by (apply fgcmcal_visitStep_skip; eassumption).
    reflexivity. }
  assert (Hold : forall refs,
            Fgcm.run cfg fgcm refs b =
            (fgcm_observationStep cfg cat ;;
             fgcm_matchStep fgcm cat ;; ret refs) b).
  { intros refs; rewrite fgcm_run_steps.
    erewrite bind_ok by (apply fgcm_visitStep_skip; eassumption).
    reflexivity. }
  split; [| split].
  - intros Hr; split; [rewrite !Hcal by exact Hr; reflexivity | auto].
  - rewrite !Hold; unfold bind.
    destruct (fgcm_observationStep cfg cat b) as [b1 [[] | e]];
      [| reflexivity].
    destruct (fgcm_matchStep fgcm cat b1) as [b2 [[] | e]]; reflexivity.
  - apply Hold.
Qed.

Lemma stored_visit_catalog_overrides_dataRefs_witness :
  (remake config0 = false ->
   Fgcmcal.run config0 selectAll matcher_two_stars dataRefs_twice
     butler_two_visits
   = Fgcmcal.run config0 selectAll matcher_two_stars dataRefs_unordered
       butler_two_visits /\
   Fgcmcal.run config0 selectAll matcher_two_stars dataRefs_twice
     butler_two_visits =
   (fgcmcal_observationStep config0 selectAll visitCat_two ;;
    fgcmcal_matchStep config0 matcher_two_stars visitCat_two ;;
    ret visitCat_two) butler_two_visits) /\
  fst (Fgcm.run config0 matcher_two_stars dataRefs_twice butler_two_visits)
  = fst (Fgcm.run config0 matcher_two_stars dataRefs_unordered
           butler_two_visits) /\
  Fgcm.run config0 matcher_two_stars dataRefs_twice butler_two_visits =
  (fgcm_observationStep config0 visitCat_two ;;
   fgcm_matchStep matcher_two_stars visitCat_two ;; ret dataRefs_twice)
    butler_two_visits.
Proof.
  apply (@stored_visit_catalog_overrides_dataRefs config0 selectAll
           matcher_two_stars dataRefs_twice dataRefs_unordered
           butler_two_visits visitCat_two).
  reflexivity.
Defined.

(** ** Data references and the discovery of visits *)

Lemma filter_nothing {A} (f : A -> bool) l :
  (forall x, In x l -> f x = false) -> filter f l = [].
Proof.
  induction l as [| h t IH]; simpl; intros H; [reflexivity |].
  rewrite (H h) by auto; apply IH; auto.
Qed.

Lemma dataRefs_nonempty (dataRefs : list DataRef) :
  dataRefs <> [] -> (List.length dataRefs =? 0)%nat = false.
Proof. destruct dataRefs; [contradiction | reflexivity]. Qed.

Lemma fgcmcal_observationStep_no_visits cfg sel b :
  starObservations b = None ->
  fgcmcal_observationStep cfg sel [] b = (b, Raise UnboundLocalError).
Proof.
  intros Ho.
  assert (S2 : Fgcmcal._fgcmMakeAllStarObservations cfg sel [] b
               = (b, Raise UnboundLocalError))
    by (rewrite fgcmcal_makeAllStarObservations_eq; reflexivity).
  unfold fgcmcal_observationStep; destruct (remake cfg); [exact S2 |].
  unfold bind, butler_datasetExists; simpl; rewrite Ho; exact S2.
Qed.

Lemma fgcm_observationStep_no_visits cfg b :
  starObservations b = None ->
  fgcm_observationStep cfg [] b = (b, Raise UnboundLocalError).
Proof.
  intros Ho.
  unfold fgcm_observationStep, bind, butler_datasetExists; simpl.
  rewrite Ho; simpl.
  rewrite fgcm_makeAllStarObservations_eq; [reflexivity |].
  intros visit c [].
Qed.

(** X7.  Data references that are all on other CCDs than the reference CCD
    are not an error and do not start a scan of the repository: the stage
    of either variant completes and persists an empty visit catalog.  On a
    repository with no visit catalog and no observations yet, [run] then
    ends in the second stage with [UnboundLocalError], and the empty visit
    catalog stays behind. *)
Theorem off_reference_dataRefs_give_empty_catalog cfg sel fgcm dataRefs b :
  dataRefs <> [] ->
  (forall d, In d dataRefs -> dataId_ccd d <> referenceCCD cfg) ->
  Fgcmcal._fgcmMakeVisitCatalog cfg dataRefs b
  = (fst (butler_put_fgcmVisitCatalog [] b), Ok []) /\
  Fgcm._fgcmMakeVisitCatalog cfg dataRefs b
  = (fst (butler_put_fgcmVisitCatalog [] b), Ok []) /\
  (visitCatalog b = None -> starObservations b = None ->
   Fgcmcal.run cfg sel fgcm dataRefs b
   = (fst (butler_put_fgcmVisitCatalog [] b), Raise UnboundLocalError) /\
   Fgcm.run cfg fgcm dataRefs b
   = (fst (butler_put_fgcmVisitCatalog [] b), Raise UnboundLocalError)).
Proof.
  intros Hne Hoff.
  assert (Hf : filter (fun d => (dataId_ccd d =? referenceCCD cfg)%Z) dataRefs
               = []).
  { apply filter_nothing; intros d Hd; apply Z.eqb_neq, Hoff, Hd. }
  assert (E1 : Fgcmcal._fgcmMakeVisitCatalog cfg dataRefs b
               = (fst (butler_put_fgcmVisitCatalog [] b), Ok [])).
  { rewrite fgcmcal_makeVisitCatalog_eq.
    unfold result, Fgcmcal.findVisits.
    rewrite dataRefs_nonempty, Hf by exact Hne; reflexivity. }
  assert (E2 : Fgcm._fgcmMakeVisitCatalog cfg dataRefs b
               = (fst (butler_put_fgcmVisitCatalog [] b), Ok [])).
  { unfold Fgcm._fgcmMakeVisitCatalog, Fgcm.findVisits.
    rewrite dataRefs_nonempty, Hf by exact Hne; reflexivity. }
  split; [exact E1 |]; split; [exact E2 |].
  intros Hv Ho; split.
  - rewrite fgcmcal_run_steps.
    assert (S1 : fgcmcal_visitStep cfg dataRefs b
                 = (fst (butler_put_fgcmVisitCatalog [] b), Ok [])).
    { unfold fgcmcal_visitStep; destruct (remake cfg); [exact E1 |].
      unfold bind, butler_datasetExists; simpl; rewrite Hv; exact E1. }
    erewrite bind_ok by exact S1.
    apply bind_raise, fgcmcal_observationStep_no_visits; exact Ho.
  - rewrite fgcm_run_steps.
    assert (S1 : fgcm_visitStep cfg dataRefs b
                 = (fst (butler_put_fgcmVisitCatalog [] b), Ok [])).
    { unfold fgcm_visitStep, bind, butler_datasetExists; simpl.
      rewrite Hv; exact E2. }
    erewrite bind_ok by exact S1.
    apply bind_raise, fgcm_observationStep_no_visits; exact Ho.
Qed.

Lemma off_reference_dataRefs_give_empty_catalog_witness :
  Fgcmcal._fgcmMakeVisitCatalog config0 dataRefs_off_reference butler_raw
  = (fst (butler_put_fgcmVisitCatalog [] butler_raw), Ok []) /\
  Fgcm._fgcmMakeVisitCatalog config0 dataRefs_off_reference butler_raw
  = (fst (butler_put_fgcmVisitCatalog [] butler_raw), Ok []) /\
  (visitCatalog butler_raw = None -> starObservations butler_raw = None ->
   Fgcmcal.run config0 selectAll matcher_two_stars dataRefs_off_reference
     butler_raw
   = (fst (butler_put_fgcmVisitCatalog [] butler_raw),
      Raise UnboundLocalError) /\
   Fgcm.run config0 matcher_two_stars dataRefs_off_reference butler_raw
   = (fst (butler_put_fgcmVisitCatalog [] butler_raw),
      Raise UnboundLocalError)).
Proof.
  apply (@off_reference_dataRefs_give_empty_catalog config0 selectAll
           matcher_two_stars dataRefs_off_reference butler_raw).
  - discriminate.
  - intros d [<- | [<- | []]]; discriminate.
Defined.

(** X8.  Of the data references given, only those on the reference CCD
    count, and each of them gives one row, a repeated one included: when
    the stage completes, the visit numbers of the catalog are the visits of
    these references, in ascending order for the fgcmcal variant and in the
    order given for the fgcm variant. *)
Theorem dataRefs_on_reference_ccd_make_the_catalog cfg dataRefs b :
  dataRefs <> [] ->
  (forall b' visitCat,
     Fgcmcal._fgcmMakeVisitCatalog cfg dataRefs b = (b', Ok visitCat) ->
     visits visitCat =
     list_sort
       (map dataId_visit
          (filter (fun d => (dataId_ccd d =? referenceCCD cfg)%Z) dataRefs))) /\
  (forall b' visitCat,
     Fgcm._fgcmMakeVisitCatalog cfg dataRefs b = (b', Ok visitCat) ->
     visits visitCat =
     map dataId_visit
       (filter (fun d => (dataId_ccd d =? referenceCCD cfg)%Z) dataRefs)).
Proof.
  intros Hne; split; intros b' visitCat H.
  - rewrite fgcmcal_makeVisitCatalog_eq in H.
    unfold result at 1, Fgcmcal.findVisits in H.
    rewrite dataRefs_nonempty in H by exact Hne.
    cbn [snd ret] in H.
    match type of H with
    | context [result ?loop b] =>
        pose proof (@readonly_eq _ loop b) as Hloop;
        destruct (result loop b) as [cat | e]; [| discriminate]
    end.
    injection H as _ <-.
    apply fgcmcal_visit_loop_visits in Hloop as [Hvis _]; [| ro].
    rewrite Hvis; simpl; apply map_snd_enumerate.
  - apply fgcm_visit_catalog_keeps_order in H as (vs & Hfv & ->).
    unfold Fgcm.findVisits in Hfv.
    rewrite dataRefs_nonempty in Hfv by exact Hne.
    injection Hfv as <-; reflexivity.
Qed.

Lemma dataRefs_on_reference_ccd_make_the_catalog_witness :
  visits [visitRecord_r 100; visitRecord_r 101] = [100; 101]%Z /\
  visits [visitRecord_r 101; visitRecord_r 100] = [101; 100]%Z.
Proof.
  destruct (@dataRefs_on_reference_ccd_make_the_catalog config0
              dataRefs_unordered butler_raw) as [H1 H2]; [discriminate |].
  split.
  - exact (H1 _ [visitRecord_r 100; visitRecord_r 101] eq_refl).
  - exact (H2 _ [visitRecord_r 101; visitRecord_r 100] eq_refl).
Defined.

(** X9.  The scan of the reference CCD never fails and keeps, in the order
    of the metadata, each listed visit whose [src] catalog on the reference
    CCD exists, as often as the metadata lists it; a visit with [src]
    catalogs on other CCDs only is not found.  Both variants find the same
    visits; the fgcmcal variant pairs each with the reference CCD. *)
Theorem reference_ccd_discovery cfg n b :
  (checkAllCcds cfg = false ->
   Fgcmcal.findVisits cfg [] n b =
   (b, Ok (filter (fun v => is_some (src b v (referenceCCD cfg)))
                  (map fst (srcMetadata b (Some (referenceCCD cfg)))),
           repeat (referenceCCD cfg)
             (List.length
                (filter (fun v => is_some (src b v (referenceCCD cfg)))
                   (map fst (srcMetadata b (Some (referenceCCD cfg))))))))) /\
  Fgcm.findVisits cfg [] b =
  (b, Ok (filter (fun v => is_some (src b v (referenceCCD cfg)))
                 (map fst (srcMetadata b (Some (referenceCCD cfg)))))).
Proof.
  split.
  - intros Hcheck; unfold Fgcmcal.findVisits; rewrite Hcheck.
    cbn [List.length Nat.eqb negb].
    unfold bind at 1, butler_queryMetadata_src.
    match goal with
    | |- for_in _ ?body _ _ = _ =>
        assert (Hloop : forall meta vs cs,
                  for_in meta body (vs, cs) b =
                  (b, Ok (vs ++ filter (fun v => is_some (src b v (referenceCCD cfg)))
                                  (map fst meta),
                          cs ++ repeat (referenceCCD cfg)
                                  (List.length
                                     (filter (fun v => is_some (src b v (referenceCCD cfg)))
                                        (map fst meta))))))
    end.
    { induction meta as [| [v f] meta IH]; intros vs cs.
      - simpl; rewrite !app_nil_r; reflexivity.
      - cbn [for_in map filter fst].
        unfold bind at 1, bind at 1, butler_datasetExists_src.
        destruct (is_some (src b v (referenceCCD cfg))); unfold ret.
        + rewrite IH; cbn [List.length repeat].
          rewrite <- !app_assoc; reflexivity.
        + apply IH. }
    rewrite Hloop; reflexivity.
  - unfold Fgcm.findVisits.
    cbn [List.length Nat.eqb].
    unfold bind at 1, butler_queryMetadata_src.
    match goal with
    | |- for_in _ ?body _ _ = _ =>
        assert (Hloop : forall meta vs,
                  for_in meta body vs b =
                  (b, Ok (vs ++ filter (fun v => is_some (src b v (referenceCCD cfg)))
                                  (map fst meta))))
    end.
    { induction meta as [| [v f] meta IH]; intros vs.
      - simpl; rewrite app_nil_r; reflexivity.
      - cbn [for_in map filter fst].
        unfold bind at 1, bind at 1, butler_datasetExists_src.
        destruct (is_some (src b v (referenceCCD cfg))); unfold ret.
        + rewrite IH, <- app_assoc; reflexivity.
        + apply IH. }
    rewrite Hloop; reflexivity.
Qed.

Lemma reference_ccd_discovery_witness :
  (checkAllCcds config0 = false ->
   Fgcmcal.findVisits config0 [] 1 butler_two_visits
   = (butler_two_visits, Ok ([100; 101]%Z, [13; 13]%Z))) /\
  Fgcm.findVisits config0 [] butler_two_visits
  = (butler_two_visits, Ok [100; 101]%Z).
Proof.
  exact (@reference_ccd_discovery config0 1 butler_two_visits).
Defined.

(** The inner loop of the scan over all CCDs: the first of the CCD numbers
    tried that has a [src] catalog of the visit. *)
Lemma firstCcdWithSrc_eq v b : forall ccds,
  Fgcmcal.firstCcdWithSrc v ccds b
  = (b, Ok (find (fun c => is_some (src b v c)) ccds)).
Proof.
  induction ccds as [| c ccds IH]; simpl; [reflexivity |].
  unfold bind, butler_datasetExists_src.
  destruct (is_some (src b v c)); [reflexivity | exact IH].
Qed.

Lemma find_seq_first (f : Z -> bool) : forall n a c,
  find f (map Z.of_nat (seq a n)) = Some c ->
  (Z.of_nat a <= c < Z.of_nat (a + n))%Z /\ f c = true /\
  forall c', (Z.of_nat a <= c' < c)%Z -> f c' = false.
Proof.
  induction n as [| n IH]; intros a c; simpl; [discriminate |].
  destruct (f (Z.of_nat a)) eqn:E.
  - intros H; injection H as <-.
    split; [lia |]; split; [exact E |]; intros c' Hc'; lia.
  - intros H; apply IH in H as (Hr & Hf & Hfirst).
    split; [lia |]; split; [exact Hf |].
    intros c' Hc'.
    destruct (Z.eq_dec c' (Z.of_nat a)) as [-> | Hne]; [exact E |].
    apply Hfirst; lia.
Qed.

Lemma find_xrange_first (f : Z -> bool) n c :
  find f (xrange n) = Some c ->
  (0 <= c < Z.of_nat n)%Z /\ f c = true /\
  forall c', (0 <= c' < c)%Z -> f c' = false.
Proof.
  intros H; apply find_seq_first in H as (Hr & Hf & Hfirst).
  repeat split; auto; lia.
Qed.

Lemma find_xrange_none (f : Z -> bool) n :
  find f (xrange n) = None ->
  forall c, (0 <= c < Z.of_nat n)%Z -> f c = false.
Proof.
  intros H c Hc.
  apply (find_none _ _ H).
  unfold xrange; apply in_map_iff; exists (Z.to_nat c); split; [lia |].
  apply in_seq; lia.
Qed.

Lemma is_some_true {A} (o : option A) : is_some o = true <-> o <> None.
Proof. destruct o; simpl; split; congruence. Qed.

Lemma is_some_false {A} (o : option A) : is_some o = false <-> o = None.
Proof. destruct o; simpl; split; congruence. Qed.

Lemma Forall2_snoc {A B} (R : A -> B -> Prop) l1 l2 x y :
  Forall2 R l1 l2 -> R x y -> Forall2 R (l1 ++ [x]) (l2 ++ [y]).
Proof. intros H Hxy; apply Forall2_app; [exact H | repeat constructor; auto]. Qed.

(** X10.  The scan over all CCDs never fails.  It finds each visit of the
    metadata once, in the order of its first mention, provided some CCD
    number below the size of the camera has a [src] catalog of it, and
    pairs it with the lowest such number.  The numbers tried are 0 to [nCcd
    - 1], not the detector ids of the camera. *)
Theorem all_ccds_discovery cfg n b :
  checkAllCcds cfg = true ->
  exists srcVisits srcCcds,
    Fgcmcal.findVisits cfg [] n b = (b, Ok (srcVisits, srcCcds)) /\
    NoDup srcVisits /\
    (forall v, In v srcVisits <->
       In v (map fst (srcMetadata b None)) /\
       exists c, (0 <= c < Z.of_nat n)%Z /\ src b v c <> None) /\
    Forall2 (fun v c =>
               (0 <= c < Z.of_nat n)%Z /\ src b v c <> None /\
               forall c', (0 <= c' < c)%Z -> src b v c' = None)
            srcVisits srcCcds.
Proof.
  intros Hcheck; unfold Fgcmcal.findVisits; rewrite Hcheck.
  cbn [List.length Nat.eqb negb].
  unfold bind at 1, butler_queryMetadata_src.
  set (first := fun v => find (fun c => is_some (src b v c)) (xrange n)).
  match goal with
  | |- exists _ _, for_in _ ?body _ _ = _ /\ _ =>
      assert (Hloop : forall meta vs cs,
                NoDup vs -> Forall2 (fun v c => first v = Some c) vs cs ->
                exists vs' cs',
                  for_in meta body (vs, cs) b = (b, Ok (vs', cs')) /\
                  NoDup vs' /\
                  Forall2 (fun v c => first v = Some c) vs' cs' /\
                  forall v, In v vs' <->
                            In v vs \/ (In v (map fst meta) /\ first v <> None))
  end.
  { induction meta as [| [v0 f0] meta IH]; intros vs cs Hnd HF.
    - exists vs, cs; repeat split; auto.
      intros [H | [[] _]]; exact H.
    - cbn [for_in map fst].
      unfold bind at 1; cbn beta iota delta [fst].
      destruct (contains v0 vs) eqn:Ec.
      + unfold ret at 1.
        destruct (IH vs cs Hnd HF) as (vs' & cs' & E & Hnd' & HF' & Hin).
        exists vs', cs'; repeat split; auto; rewrite Hin.
        * intros [H | [H Hf]]; [left; exact H | right; split; [right |]; auto].
        * intros [H | [[<- | H] Hf]]; auto.
          left; apply contains_In; exact Ec.
      + unfold bind at 1; rewrite firstCcdWithSrc_eq; fold (first v0).
        destruct (first v0) as [c |] eqn:Ef; unfold ret at 1.
        * destruct (IH (vs ++ [v0]) (cs ++ [c])) as (vs' & cs' & E & Hnd' & HF' & Hin).
          { apply NoDup_snoc; [exact Hnd |].
            rewrite <- contains_In, Ec; discriminate. }
          { apply Forall2_snoc; assumption. }
          exists vs', cs'; repeat split; auto; rewrite Hin, in_app_iff.
          -- intros [[H | [<- | []]] | [H Hf]]; auto.
             ++ right; split; [left; reflexivity | congruence].
             ++ right; split; [right |]; auto.
          -- intros [H | [[<- | H] Hf]]; auto.
             left; right; left; reflexivity.
        * destruct (IH vs cs Hnd HF) as (vs' & cs' & E & Hnd' & HF' & Hin).
          exists vs', cs'; repeat split; auto; rewrite Hin.
          -- intros [H | [H Hf]]; [left; exact H | right; split; [right |]; auto].
          -- intros [H | [[<- | H] Hf]]; auto; contradiction. }
  destruct (Hloop (srcMetadata b None) [] []) as (vs & cs & E & Hnd & HF & Hin);
    [constructor | constructor |].
  exists vs, cs; split; [exact E |]; split; [exact Hnd |]; split.
  - intros v; rewrite Hin; split.
    + intros [[] | [Hm Hf]]; split; [exact Hm |].
      destruct (first v) as [c |] eqn:Ef; [| contradiction].
      apply find_xrange_first in Ef as (Hr & Hc & _).
      exists c; split; [exact Hr | apply is_some_true; exact Hc].
    + intros [Hm (c & Hr & Hc)]; right; split; [exact Hm |].
      intros Hnone; apply (find_xrange_none _ _ Hnone) in Hr.
      apply is_some_false in Hr; contradiction.
  - eapply Forall2_impl; [| exact HF].
    intros v c Ef; apply find_xrange_first in Ef as (Hr & Hc & Hfirst).
    split; [exact Hr |]; split; [apply is_some_true; exact Hc |].
    intros c' Hc'; apply is_some_false, Hfirst, Hc'.
Qed.

Lemma all_ccds_discovery_witness :
  exists srcVisits srcCcds,
    Fgcmcal.findVisits config_all [] 2 butler_all_ccds
    = (butler_all_ccds, Ok (srcVisits, srcCcds)) /\
    NoDup srcVisits /\
    (forall v, In v srcVisits <->
       In v (map fst (srcMetadata butler_all_ccds None)) /\
       exists c, (0 <= c < Z.of_nat 2)%Z /\ src butler_all_ccds v c <> None) /\
    Forall2 (fun v c =>
               (0 <= c < Z.of_nat 2)%Z /\ src butler_all_ccds v c <> None /\
               forall c', (0 <= c' < c)%Z -> src butler_all_ccds v c' = None)
            srcVisits srcCcds.
Proof.
  apply (@all_ccds_discovery config_all 2 butler_all_ccds); reflexivity.
Defined.

(** The CCDs found stay in the order of discovery when the visits are
    sorted: here visit 100 is looked for on the CCD found for visit 101,
    where it has no exposure, and the stage ends in [NoResults] although
    every visit has its raw exposure on the CCD found for it. *)
Lemma all_ccds_scan_reads_by_position :
  Fgcmcal.findVisits config_all [] 2 butler_all_ccds
  = (butler_all_ccds, Ok ([101; 100]%Z, [1; 0]%Z)) /\
  Fgcmcal._fgcmMakeVisitCatalog config_all [] butler_all_ccds
  = (butler_all_ccds, Raise NoResults).
Proof. split; reflexivity. Qed.

(** ** The rows of the visit catalog *)

Lemma newVisitRecord_row v exp b b' rec :
  newVisitRecord v exp b = (b', Ok rec) -> copied_from v exp rec.
Proof.
  unfold newVisitRecord, raise, ret.
  destruct (negb _); [discriminate |].
  destruct (negb _); [discriminate |].
  intros H; injection H as _ <-; unfold copied_from; simpl; auto 12.
Qed.

Lemma nth_error_enumerate_from {A} (l : list A) : forall a i j v,
  nth_error (combine (seq a (List.length l)) l) i = Some (j, v) ->
  j = (a + i)%nat /\ nth_error l i = Some v.
Proof.
  induction l as [| h t IH]; intros a i j v; simpl.
  - destruct i; discriminate.
  - destruct i as [| i]; simpl.
    + intros H; injection H as <- <-; split; [lia | reflexivity].
    + intros H; apply IH in H as [-> H]; split; [lia | exact H].
Qed.

Lemma nth_error_enumerate {A} (l : list A) i j v :
  nth_error (enumerate l) i = Some (j, v) -> j = i /\ nth_error l i = Some v.
Proof. intros H; apply nth_error_enumerate_from in H; exact H. Qed.

Lemma Forall2_nth_error_r {A B} (R : A -> B -> Prop) l1 l2 :
  Forall2 R l1 l2 ->
  forall k y, nth_error l2 k = Some y ->
              exists x, nth_error l1 k = Some x /\ R x y.
Proof.
  induction 1 as [| x0 y0 l1 l2 H0 _ IH]; intros k y Hk.
  - destruct k; discriminate.
  - destruct k as [| k]; simpl in *; [injection Hk as <-; eauto | eauto].
Qed.

Lemma list_sort_sorted l : Sorted Z.le l -> list_sort l = l.
Proof.
  induction 1 as [| h t Ht IH Hh]; simpl; [reflexivity |].
  rewrite IH; destruct Hh as [| h' t' Hle]; simpl; [reflexivity |].
  apply Z.leb_le in Hle; rewrite Hle; reflexivity.
Qed.

(** The rows the loop over the visits adds, one for each entry. *)
Lemma fgcmcal_visit_loop_rows cs b : forall todo acc b' cat,
  for_in todo (Fgcmcal.readVisitInfo cs) acc b = (b', Ok cat) ->
  exists rows,
    cat = acc ++ rows /\
    Forall2
      (fun (iv : nat * Z) rec =>
         exists c exp,
           nth_error cs (fst iv) = Some c /\
           (raw b (snd iv) c = Some exp \/
            (raw b (snd iv) c = None /\ calexp b (snd iv) c = Some exp)) /\
           copied_from (snd iv) exp rec)
      todo rows.
Proof.
  induction todo as [| [i v] todo IH]; simpl; intros acc b' cat H.
  - injection H as _ <-; exists []; rewrite app_nil_r; auto.
  - apply bind_inv in H as [(e & _ & He) | (b1 & acc1 & H1 & H)];
      [discriminate |].
    apply fgcmcal_readVisitInfo_ok in H1
      as (-> & ccd & exp & rec & Hc & Hexp & Hrec & ->).
    apply newVisitRecord_row in Hrec.
    apply IH in H as (rows & -> & HF).
    exists (rec :: rows); split; [rewrite <- app_assoc; reflexivity |].
    constructor; [| exact HF].
    exists ccd, exp; auto.
Qed.

(** X11.  When [_fgcmMakeVisitCatalog] of the fgcmcal variant completes,
    the catalog has one row for each visit found, and row [i] is the copy
    of the raw exposure (of the calexp when there is no raw) of the [i]-th
    visit in ascending order on the CCD at position [i] of the CCDs found:
    visit number, filter name, pointing, date and exposure time as they
    are, the air pressure divided by 100, and zero for [fwhm] and
    [deepflag].  The CCD at position [i] is the one found for the visit
    itself when the visits were found in ascending order. *)
Theorem visit_rows_copy_exposure cfg dataRefs b b' visitCat :
  Fgcmcal._fgcmMakeVisitCatalog cfg dataRefs b = (b', Ok visitCat) ->
  exists srcVisits srcCcds,
    Fgcmcal.findVisits cfg dataRefs (List.length (camera b)) b
    = (b, Ok (srcVisits, srcCcds)) /\
    List.length visitCat = List.length srcVisits /\
    (forall i rec,
       nth_error visitCat i = Some rec ->
       exists v c exp,
         nth_error (list_sort srcVisits) i = Some v /\
         nth_error srcCcds i = Some c /\
         (raw b v c = Some exp \/
          (raw b v c = None /\ calexp b v c = Some exp)) /\
         copied_from v exp rec) /\
    (Sorted Z.le srcVisits -> list_sort srcVisits = srcVisits).
Proof.
  rewrite fgcmcal_makeVisitCatalog_eq.
  pose proof (readonly_eq b
    (readonly_fgcmcal_findVisits cfg dataRefs (List.length (camera b)))) as Hfv.
  destruct (result _ b) as [[vs cs] | e] eqn:Efv; [| discriminate].
  pose proof (readonly_eq b
    (readonly_for_in (enumerate (list_sort vs))
       (Fgcmcal.readVisitInfo cs)
       (fun x s => readonly_fgcmcal_readVisitInfo cs x s) [])) as Hloop.
  destruct (result (for_in _ _ _) b) as [cat | e] eqn:Eloop; [| discriminate].
  intros H; injection H as _ <-.
  exists vs, cs; split; [exact Hfv |].
  apply fgcmcal_visit_loop_rows in Hloop as (rows & -> & HF); simpl in *.
  split; [| split; [| apply list_sort_sorted]].
  - rewrite <- (Forall2_length HF); unfold enumerate.
    rewrite length_combine, length_seq, Nat.min_id.
    apply Permutation_length, list_sort_perm.
  - intros i rec Hrec.
    destruct (Forall2_nth_error_r HF _ Hrec)
      as ([j v] & Hiv & c & exp & Hc & Hexp & Hcopy).
    apply nth_error_enumerate in Hiv as [-> Hv]; simpl in *.
    exists v, c, exp; auto.
Qed.

Lemma visit_rows_copy_exposure_witness :
  exists srcVisits srcCcds,
    Fgcmcal.findVisits config0 [] (List.length (camera butler_calexp_only))
      butler_calexp_only
    = (butler_calexp_only, Ok (srcVisits, srcCcds)) /\
    List.length [visitRecord_r 100] = List.length srcVisits /\
    (forall i rec,
       nth_error [visitRecord_r 100] i = Some rec ->
       exists v c exp,
         nth_error (list_sort srcVisits) i = Some v /\
         nth_error srcCcds i = Some c /\
         (raw butler_calexp_only v c = Some exp \/
          (raw butler_calexp_only v c = None /\
           calexp butler_calexp_only v c = Some exp)) /\
         copied_from v exp rec) /\
    (Sorted Z.le srcVisits -> list_sort srcVisits = srcVisits).
Proof.
  apply (@visit_rows_copy_exposure config0 [] butler_calexp_only
           (fst (butler_put_fgcmVisitCatalog [visitRecord_r 100]
                   butler_calexp_only))
           [visitRecord_r 100]).
  reflexivity.
Defined.

(** The rows the loop of the fgcm variant adds. *)
Lemma fgcm_visit_loop_rows cfg b : forall todo acc b' cat,
  for_in todo (Fgcm.readVisitInfo cfg) acc b = (b', Ok cat) ->
  exists rows,
    cat = acc ++ rows /\
    Forall2
      (fun v rec =>
         exists exp, raw b v (referenceCCD cfg) = Some exp /\
                     copied_from v exp rec)
      todo rows.
Proof.
  induction todo as [| v todo IH]; simpl; intros acc b' cat H.
  - injection H as _ <-; exists []; rewrite app_nil_r; auto.
  - apply bind_inv in H as [(e & _ & He) | (b1 & acc1 & H1 & H)];
      [discriminate |].
    unfold Fgcm.readVisitInfo in H1.
    rewrite bind_readonly in H1 by ro.
    unfold result, butler_get_raw, of_option in H1.
    destruct (raw b v (referenceCCD cfg)) as [exp |] eqn:Eraw;
      [| discriminate].
    cbn [snd ret] in H1.
    rewrite bind_readonly in H1 by ro.
    destruct (result (newVisitRecord v exp) b) as [rec | e] eqn:Erec;
      [| discriminate].
    unfold ret in H1; injection H1 as <- <-.
    assert (Hrec : newVisitRecord v exp b = (b, Ok rec))
      by (rewrite (readonly_eq b (readonly_newVisitRecord v exp)), Erec;
          reflexivity).
    apply newVisitRecord_row in Hrec.
    apply IH in H as (rows & -> & HF).
    exists (rec :: rows); split; [rewrite <- app_assoc; reflexivity |].
    constructor; [| exact HF].
    exists exp; auto.
Qed.

(** X12.  When [_fgcmMakeVisitCatalog] of the fgcm variant completes, the
    catalog lists the visits found in the order they were found, and each
    row is the copy of the raw exposure of its visit on the reference CCD,
    with the air pressure divided by 100 and zero for [fwhm] and
    [deepflag]. *)
Theorem fgcm_visit_rows_copy_raw cfg dataRefs b b' visitCat :
  Fgcm._fgcmMakeVisitCatalog cfg dataRefs b = (b', Ok visitCat) ->
  exists srcVisits,
    Fgcm.findVisits cfg dataRefs b = (b, Ok srcVisits) /\
    Forall2
      (fun v rec =>
         exists exp, raw b v (referenceCCD cfg) = Some exp /\
                     copied_from v exp rec)
      srcVisits visitCat.
Proof.
  unfold Fgcm._fgcmMakeVisitCatalog; intros H.
  pose proof (readonly_eq b (readonly_fgcm_findVisits cfg dataRefs)) as Hfv.
  rewrite bind_readonly in H by ro.
  destruct (result _ b) as [vs | e]; [| discriminate].
  exists vs; split; [exact Hfv |].
  apply bind_inv in H as [(e & _ & He) | (b1 & cat & Hloop & H)];
    [discriminate |].
  pose proof (readonly_eq b
    (readonly_for_in vs (Fgcm.readVisitInfo cfg)
       (fun x s => readonly_fgcm_readVisitInfo cfg x s) [])) as Hro.
  rewrite Hro in Hloop; injection Hloop as <- Hres.
  rewrite Hres in Hro.
  apply fgcm_visit_loop_rows in Hro as (rows & -> & HF).
  unfold bind, butler_put_fgcmVisitCatalog, ret in H.
  injection H as _ <-; exact HF.
Qed.

Lemma fgcm_visit_rows_copy_raw_witness :
  exists srcVisits,
    Fgcm.findVisits config0 dataRefs_unordered butler_raw
    = (butler_raw, Ok srcVisits) /\
    Forall2
      (fun v rec =>
         exists exp, raw butler_raw v (referenceCCD config0) = Some exp /\
                     copied_from v exp rec)
      srcVisits [visitRecord_r 101; visitRecord_r 100].
Proof.
  apply (@fgcm_visit_rows_copy_raw config0 dataRefs_unordered butler_raw
           (fst (butler_put_fgcmVisitCatalog
                   [visitRecord_r 101; visitRecord_r 100] butler_raw))
           [visitRecord_r 101; visitRecord_r 100]).
  reflexivity.
Defined.

(** ** Filter labels of observations without a catalogued visit *)

Lemma take_raise {A} (a : list A) idx b :
  Exists (fun i => (List.length a <= i)%nat) idx ->
  take a idx b = (b, Raise IndexError).
Proof.
  induction idx as [| i idx IH]; intros H; [inversion H |].
  cbn [take]; unfold bind at 1, index, of_option.
  destruct (nth_error a i) as [v |] eqn:Ev; [| reflexivity].
  cbn [ret]; unfold bind at 1.
  rewrite IH; [reflexivity |].
  inversion H as [? ? Hi | ? ? Hrest]; subst; [| exact Hrest].
  apply nth_error_None in Hi; congruence.
Qed.

(** A key above every element is to be inserted at the end. *)
Lemma searchsorted1_beyond (a : list Z) key :
  Sorted Z.le a -> (forall x, In x a -> (x < key)%Z) ->
  np.searchsorted1 a key = List.length a.
Proof.
  intros Hs Hall.
  destruct (searchsorted1_spec key Hs) as (Hr & _ & Habove).
  destruct (Nat.eq_dec (np.searchsorted1 a key) (List.length a)) as [E | Hne];
    [exact E | exfalso].
  pose proof (Habove (np.searchsorted1 a key) ltac:(lia)) as Hk.
  pose proof (Hall (nth (np.searchsorted1 a key) a 0%Z)
                ltac:(apply nth_In; lia)).
  lia.
Qed.

(** X13.  An observation whose visit number is above every visit number of
    the catalog (any observation, when the catalog is empty) makes the
    label lookup index one past the end of the labels:  [_fgcmMatchStars]
    ends in [IndexError] before the matcher is called, and nothing is
    written. *)
Theorem observation_beyond_last_visit_is_IndexError
    fgcm visitCat obsCat b o :
  Sorted Z.le (visits visitCat) ->
  starObservations b = Some obsCat ->
  In o obsCat ->
  (forall v, In v (visits visitCat) -> (v < Obs.visit o)%Z) ->
  obsFilterNames visitCat obsCat b = (b, Raise IndexError) /\
  _fgcmMatchStars fgcm visitCat b = (b, Raise IndexError).
Proof.
  intros Hs Hobs Ho Hall.
  assert (E : obsFilterNames visitCat obsCat b = (b, Raise IndexError)).
  { unfold obsFilterNames; apply take_raise.
    apply Exists_exists.
    exists (np.searchsorted1 (map Visit.visit visitCat) (Obs.visit o)); split.
    - unfold np.searchsorted; rewrite map_map.
      apply (in_map (fun x => np.searchsorted1 (map Visit.visit visitCat)
                                (Obs.visit x))), Ho.
    - rewrite searchsorted1_beyond by assumption.
      rewrite !length_map; apply Nat.le_refl. }
  split; [exact E |].
  unfold _fgcmMatchStars.
  unfold bind at 1, butler_get_fgcmStarObservations, of_option.
  rewrite Hobs; cbn [ret].
  apply bind_raise; exact E.
Qed.

Lemma observation_beyond_last_visit_is_IndexError_witness :
  obsFilterNames [visitRecord_r 100] obsCat_gr butler_observed_gr
  = (butler_observed_gr, Raise IndexError) /\
  _fgcmMatchStars matcher_two_stars [visitRecord_r 100] butler_observed_gr
  = (butler_observed_gr, Raise IndexError).
Proof.
  apply (@observation_beyond_last_visit_is_IndexError matcher_two_stars
           [visitRecord_r 100] obsCat_gr butler_observed_gr
           (Fgcmcal.observation config0 (visitRecord_of 101 "r") 13
              source_1000)).
  - repeat constructor.
  - reflexivity.
  - simpl; auto.
  - intros v [<- | []]; simpl; lia.
Defined.

(** X14.  An observation whose visit number is not in the catalog, but
    below some visit number of it, raises nothing: when the lookup
    completes, the observation carries the label (cut to two characters) of
    the first row of the catalog with a greater visit number. *)
Theorem missing_visit_gets_next_label visitCat obsCat b b' names k o :
  Sorted Z.le (visits visitCat) ->
  obsFilterNames visitCat obsCat b = (b', Ok names) ->
  nth_error obsCat k = Some o ->
  ~ In (Obs.visit o) (visits visitCat) ->
  exists i v,
    nth_error visitCat i = Some v /\
    (Obs.visit o < Visit.visit v)%Z /\
    nth_error names k = Some (np.a2 (Visit.filtername v)) /\
    (forall j v', (j < i)%nat -> nth_error visitCat j = Some v' ->
                  (Visit.visit v' < Obs.visit o)%Z).
Proof.
  intros Hs H Hk Hnot.
  unfold obsFilterNames in H; apply take_ok in H as [_ HF].
  destruct (searchsorted1_spec (Obs.visit o) Hs) as (_ & Hbelow & Habove).
  unfold visits in *.
  set (i := np.searchsorted1 (map Visit.visit visitCat) (Obs.visit o)) in *.
  destruct (@Forall2_nth_error _ _ _ _ _ HF k i) as (name & Hname & Hlabel).
  { unfold np.searchsorted; rewrite map_map.
    erewrite map_nth_error by exact Hk; reflexivity. }
  destruct (nth_error visitCat i) as [v |] eqn:Ev.
  - erewrite map_nth_error in Hlabel by exact Ev; injection Hlabel as <-.
    assert (Hm : nth_error (map Visit.visit visitCat) i = Some (Visit.visit v))
      by (apply map_nth_error; exact Ev).
    assert (Hi : (i < List.length (map Visit.visit visitCat))%nat)
      by (apply nth_error_Some; congruence).
    exists i, v; repeat split; auto.
    + specialize (Habove i ltac:(lia)).
      rewrite (nth_error_nth _ _ 0%Z Hm) in Habove.
      assert (Visit.visit v <> Obs.visit o); [| lia].
      intros E; apply Hnot; rewrite <- E.
      eapply nth_error_In; exact Hm.
    + intros j v' Hj Ev'.
      specialize (Hbelow j Hj).
      assert (Hm' : nth_error (map Visit.visit visitCat) j
                    = Some (Visit.visit v'))
        by (apply map_nth_error; exact Ev').
      rewrite (nth_error_nth _ _ 0%Z Hm') in Hbelow; exact Hbelow.
  - apply nth_error_None in Ev.
    assert (nth_error (map (fun v => np.a2 (Visit.filtername v)) visitCat) i
            = None) by (apply nth_error_None; rewrite length_map; exact Ev).
    congruence.
Qed.

Lemma missing_visit_gets_next_label_witness :
  exists i v,
    nth_error [visitRecord_of 102 "i"] i = Some v /\
    (101 < Visit.visit v)%Z /\
    nth_error ["i"; "i"]%string 0 = Some (np.a2 (Visit.filtername v)) /\
    (forall j v', (j < i)%nat ->
                  nth_error [visitRecord_of 102 "i"] j = Some v' ->
                  (Visit.visit v' < 101)%Z).
Proof.
  apply (@missing_visit_gets_next_label [visitRecord_of 102 "i"] obsCat_gr
           butler_raw butler_raw ["i"; "i"]%string 0%nat
           (Fgcmcal.observation config0 (visitRecord_of 101 "r") 13
              source_1000)).
  - repeat constructor.
  - reflexivity.
  - reflexivity.
  - intros [H | []]; discriminate.
Defined.

(** ** The three stages in a row *)

Lemma fgcmcal_visitCatalog_sorted cfg dataRefs b b' visitCat :
  Fgcmcal._fgcmMakeVisitCatalog cfg dataRefs b = (b', Ok visitCat) ->
  Sorted Z.le (visits visitCat) /\
  b' = fst (butler_put_fgcmVisitCatalog visitCat b).
Proof.
  intros H.
  pose proof (fgcmcal_makeVisitCatalog_cases _ _ _ H) as Hb.
  split; [| exact Hb].
  rewrite fgcmcal_makeVisitCatalog_eq in H.
  destruct (result _ b) as [[vs cs] | e]; [| discriminate].
  pose proof (readonly_eq b
    (readonly_for_in (enumerate (list_sort vs))
       (Fgcmcal.readVisitInfo cs)
       (fun x s => readonly_fgcmcal_readVisitInfo cs x s) [])) as Hloop.
  destruct (result (for_in _ _ _) b) as [cat | e]; [| discriminate].
  injection H as _ <-.
  apply fgcmcal_visit_loop_visits in Hloop as [Hvis _].
  simpl in Hvis; rewrite map_snd_enumerate in Hvis; rewrite Hvis.
  apply list_sort_Sorted.
Qed.

(** Where [_fgcmMatchStars] can raise. *)
Lemma matchStars_raise_cases fgcm visitCat b b' e :
  _fgcmMatchStars fgcm visitCat b = (b', Raise e) ->
  b' = b /\
  ((starObservations b = None /\ e = NoResults) \/
   exists obsCat,
     starObservations b = Some obsCat /\
     (obsFilterNames visitCat obsCat b = (b, Raise e) \/
      exists names,
        obsFilterNames visitCat obsCat b = (b, Ok names) /\
        (makeReferenceStars fgcm
           (map (fun o => np.rad2deg (Obs.ra o)) obsCat)
           (map (fun o => np.rad2deg (Obs.dec o)) obsCat) names false
         = Raise e \/
         exists refStars,
           makeReferenceStars fgcm
             (map (fun o => np.rad2deg (Obs.ra o)) obsCat)
             (map (fun o => np.rad2deg (Obs.dec o)) obsCat) names false
           = Ok refStars /\
           makeMatchedStars fgcm refStars
             (map (fun o => np.rad2deg (Obs.ra o)) obsCat)
             (map (fun o => np.rad2deg (Obs.dec o)) obsCat) names
           = Raise e))).
Proof.
  intros H; pose proof (matchStars_cases _ _ _ H) as Hb; simpl in Hb.
  split; [exact Hb |]; subst b'.
  unfold _fgcmMatchStars in H.
  rewrite bind_readonly in H by ro.
  unfold result at 1, butler_get_fgcmStarObservations, of_option in H.
  destruct (starObservations b) as [obsCat |]; simpl in H;
    [right; exists obsCat; split; [reflexivity |]
    | left; injection H as <-; auto].
  rewrite bind_readonly in H by (unfold obsFilterNames; ro).
  pose proof (@readonly_eq _ (obsFilterNames visitCat obsCat) b) as Hn.
  destruct (result (obsFilterNames visitCat obsCat) b) as [names | e1].
  - right; exists names; split; [apply Hn; unfold obsFilterNames; ro |].
    rewrite bind_readonly in H by ro; unfold result at 1, lift in H;
      simpl in H.
    destruct (makeReferenceStars fgcm _ _ names false) as [refStars | e2]
      eqn:Er; [| left; injection H as <-; reflexivity].
    right; exists refStars; split; [reflexivity |].
    rewrite bind_readonly in H by ro; unfold result at 1, lift in H;
      simpl in H.
    destruct (makeMatchedStars fgcm refStars _ _ names) as [out | e3] eqn:Em;
      [| injection H as <-; reflexivity].
    unfold bind in H; simpl in H; discriminate.
  - left; injection H as <-; apply Hn; unfold obsFilterNames; ro.
Qed.

(** X15.  On a visit catalog and an observation catalog that the first two
    stages of the fgcmcal variant have just built, the label lookup of the
    third stage cannot fail: every observation has a visit of the catalog,
    the catalog is in ascending order, and each observation gets a label.
    So [_fgcmMatchStars] raises only what the matcher raises, in
    [makeReferenceStars] or in [makeMatchedStars], and then leaves the
    Butler as the second stage left it. *)
Theorem fresh_catalogs_match_unless_matcher_fails
    cfg sel fgcm dataRefs b b1 b2 visitCat :
  Fgcmcal._fgcmMakeVisitCatalog cfg dataRefs b = (b1, Ok visitCat) ->
  Fgcmcal._fgcmMakeAllStarObservations cfg sel visitCat b1 = (b2, Ok tt) ->
  exists obsCat names,
    starObservations b2 = Some obsCat /\
    Forall (fun o => In (Obs.visit o) (visits visitCat)) obsCat /\
    obsFilterNames visitCat obsCat b2 = (b2, Ok names) /\
    List.length names = List.length obsCat /\
    forall b' e,
      _fgcmMatchStars fgcm visitCat b2 = (b', Raise e) ->
      b' = b2 /\
      (makeReferenceStars fgcm
         (map (fun o => np.rad2deg (Obs.ra o)) obsCat)
         (map (fun o => np.rad2deg (Obs.dec o)) obsCat) names false
       = Raise e \/
       exists refStars,
         makeReferenceStars fgcm
           (map (fun o => np.rad2deg (Obs.ra o)) obsCat)
           (map (fun o => np.rad2deg (Obs.dec o)) obsCat) names false
         = Ok refStars /\
         makeMatchedStars fgcm refStars
           (map (fun o => np.rad2deg (Obs.ra o)) obsCat)
           (map (fun o => np.rad2deg (Obs.dec o)) obsCat) names
         = Raise e).
Proof.
  intros H1 H2.
  apply fgcmcal_visitCatalog_sorted in H1 as [Hs _].
  destruct (fgcmcal_stored_rows _ _ _ _ H2) as (obsCat & Hobs & Hrows).
  assert (Hall : Forall (fun o => In (Obs.visit o) (visits visitCat)) obsCat).
  { apply Forall_forall; intros o Ho.
    apply Hrows in Ho as (visit & c & sources & s & Hv & _ & _ & _ & ->).
    simpl; unfold visits; apply in_map; exact Hv. }
  destruct (obsFilterNames_total visitCat b2 Hs Hall) as [names Hnames].
  exists obsCat, names.
  split; [exact Hobs |]; split; [exact Hall |]; split; [exact Hnames |].
  split.
  - pose proof Hnames as Hlen.
    unfold obsFilterNames in Hlen; apply take_ok in Hlen as [_ HF].
    apply Forall2_length in HF; rewrite <- HF.
    unfold np.searchsorted; rewrite !length_map; reflexivity.
  - intros b' e H.
    apply matchStars_raise_cases in H
      as [-> [[Hnone _] | (obsCat' & Hobs' & H)]]; [congruence |].
    split; [reflexivity |].
    rewrite Hobs in Hobs'; injection Hobs' as <-.
    destruct H as [H | (names' & Hn' & H)]; [congruence |].
    rewrite Hnames in Hn'; injection Hn' as <-.
    exact H.
Qed.

Lemma fresh_catalogs_match_unless_matcher_fails_witness :
  exists obsCat names,
    starObservations butler_compiled_fresh = Some obsCat /\
    Forall (fun o => In (Obs.visit o) (visits visitCat_two)) obsCat /\
    obsFilterNames visitCat_two obsCat butler_compiled_fresh
    = (butler_compiled_fresh, Ok names) /\
    List.length names = List.length obsCat /\
    forall b' e,
      _fgcmMatchStars matcher_two_stars visitCat_two butler_compiled_fresh
      = (b', Raise e) ->
      b' = butler_compiled_fresh /\
      (makeReferenceStars matcher_two_stars
         (map (fun o => np.rad2deg (Obs.ra o)) obsCat)
         (map (fun o => np.rad2deg (Obs.dec o)) obsCat) names false
       = Raise e \/
       exists refStars,
         makeReferenceStars matcher_two_stars
           (map (fun o => np.rad2deg (Obs.ra o)) obsCat)
           (map (fun o => np.rad2deg (Obs.dec o)) obsCat) names false
         = Ok refStars /\
         makeMatchedStars matcher_two_stars refStars
           (map (fun o => np.rad2deg (Obs.ra o)) obsCat)
           (map (fun o => np.rad2deg (Obs.dec o)) obsCat) names
         = Raise e).
Proof.
  apply (@fresh_catalogs_match_unless_matcher_fails config0 selectAll
           matcher_two_stars [] butler_two_visits
           (fst (butler_put_fgcmVisitCatalog visitCat_two butler_two_visits))
           butler_compiled_fresh visitCat_two).
  - reflexivity.
  - reflexivity.
Defined.

(** ** The cuts of the fgcm variant, row by row *)

Lemma magErr_scale_range :
  (1085 / 1000 < 5 / 2 / ln 10 < 1087 / 1000)%R.
Proof.
  pose proof magErr_scale_bounds as [Hlo Hhi].
  pose proof ln_10_pos as Hpos.
  replace (5 / 2 / ln 10)%R with (20 * (/ 8 * / ln 10))%R by (field; lra).
  lra.
Qed.

Lemma gdFlag_flags s :
  Fgcm.gdFlag s = true ->
  Src.flag_pixel_saturated_center s = false /\
  Src.flag_pixel_interpolated_center s = false /\
  Src.flag_pixel_edge s = false /\
  Src.flag_pixel_cr_center s = false /\
  Src.flag_pixel_bad s = false /\
  Src.flag_pixel_interpolated_any s = false /\
  Src.slot_Centroid_flag s = false /\
  Src.slot_ApFlux_flag s = false /\
  Src.deblend_nchild s = 0%Z /\
  Src.parent s = 0%Z /\
  (Src.classification_extendedness s < Finite (1 / 2))%np = true.
Proof.
  unfold Fgcm.gdFlag; intros H.
  repeat (apply andb_true_iff in H as [H ?]).
  repeat match goal with
         | H : negb _ = true |- _ => apply negb_true_iff in H
         | H : (_ =? _)%Z = true |- _ => apply Z.eqb_eq in H
         end.
  auto 15.
Qed.

(** The signal-to-noise ratio that the cuts on the magnitude error leave. *)
Lemma magErr_cut_signal_to_noise fe f :
  ((0 < f /\ 0 < fe) \/ (f < 0 /\ fe < 0))%R ->
  (1 / 1000 < 5 / 2 / ln 10 * (fe / f) < 1 / 10)%R ->
  (1085 / 100 < f / fe < 1087)%R.
Proof.
  intros Hsign [Hlo Hhi].
  pose proof magErr_scale_range as [Klo Khi].
  assert (Hf : f <> 0%R) by (destruct Hsign; lra).
  assert (Hfe : fe <> 0%R) by (destruct Hsign; lra).
  assert (Hr : (0 < f / fe)%R).
  { destruct Hsign as [[H1 H2] | [H1 H2]].
    - apply Rdiv_lt_0_compat; assumption.
    - replace (f / fe)%R with ((- f) / (- fe))%R by (field; exact Hfe).
      apply Rdiv_lt_0_compat; lra. }
  assert (E : (5 / 2 / ln 10 * (fe / f) * (f / fe) = 5 / 2 / ln 10)%R).
  { pose proof ln_10_pos; field; repeat split; lra. }
  pose proof (Rmult_lt_compat_r _ _ _ Hr Hlo) as H1.
  pose proof (Rmult_lt_compat_r _ _ _ Hr Hhi) as H2.
  rewrite E in H1, H2; lra.
Qed.

(** X16.  Every row of the observation catalog that the fgcm variant
    persists comes from a detection of a scanned (visit, CCD) pair with
    none of the eight pixel, centroid and aperture flags set, no deblended
    children, no parent and an extendedness below 0.5; its flux and flux
    error are finite, its magnitude error is a finite value strictly
    between 0.001 and 0.1, and its flux is between 10.85 and 1087 times its
    flux error. *)
Theorem fgcm_stored_rows_pass_every_cut cfg visitCat b b' obsCat row :
  Fgcm._fgcmMakeAllStarObservations cfg visitCat b = (b', Ok tt) ->
  starObservations b' = Some obsCat ->
  In row obsCat ->
  exists visit ccdId sources s fe f m,
    In visit visitCat /\ In ccdId (camera b) /\
    src b (Visit.visit visit) ccdId = Some sources /\ In s sources /\
    row = Fgcm.observation cfg visit ccdId s /\
    (Src.flag_pixel_saturated_center s = false /\
     Src.flag_pixel_interpolated_center s = false /\
     Src.flag_pixel_edge s = false /\
     Src.flag_pixel_cr_center s = false /\
     Src.flag_pixel_bad s = false /\
     Src.flag_pixel_interpolated_any s = false /\
     Src.slot_Centroid_flag s = false /\
     Src.slot_ApFlux_flag s = false /\
     Src.deblend_nchild s = 0%Z /\
     Src.parent s = 0%Z /\
     (Src.classification_extendedness s < Finite (1 / 2))%np = true) /\
    Src.apFlux s = Finite f /\ Src.apFluxErr s = Finite fe /\
    Obs.magerr row = Finite m /\
    (1 / 1000 < m < 1 / 10)%R /\
    (1085 / 100 < f / fe < 1087)%R.
Proof.
  intros H Hput Hrow.
  destruct (fgcm_stored_rows _ _ _ H) as (obsCat' & Hput' & Hrows).
  rewrite Hput in Hput'; injection Hput' as <-.
  apply Hrows in Hrow as (visit & c & sources & s & Hv & Hc & Es & Hs & Hg & ->).
  pose proof (gdFlag_flags _ Hg) as Hflags.
  apply gdFlag_true_inv in Hg as (fe & f & Efe & Ef & Hsign & Em & Ei & Hr).
  exists visit, c, sources, s, fe, f, (5 / 2 / ln 10 * (fe / f))%R.
  repeat (split; [assumption || reflexivity |]).
  split; [simpl; rewrite Em; exact Ei |].
  split; [exact Hr | apply magErr_cut_signal_to_noise; assumption].
Qed.

Lemma gdFlag_source_1000 : Fgcm.gdFlag source_1000 = true.
Proof.
  pose proof magErr_scale_bounds as [Hlo Hhi].
  assert (Em : Fgcm.magErr source_1000 = Finite (/ 8 * / ln 10)).
  { unfold Fgcm.magErr.
    change (Src.apFluxErr source_1000) with (Finite 50).
    change (Src.apFlux source_1000) with (Finite 1000).
    rewrite instMagErr_finite by lra; unfold np.nan_to_num; f_equal.
    pose proof ln_10_pos; field; lra. }
  unfold Fgcm.gdFlag, np.gt; rewrite Em.
  change (Src.classification_extendedness source_1000) with (Finite 0).
  rewrite !lt_finite_true by lra; reflexivity.
Qed.

Lemma fgcm_stored_rows_pass_every_cut_witness :
  exists visit ccdId sources s fe f m,
    In visit visitCat_two /\ In ccdId (camera butler_two_visits) /\
    src butler_two_visits (Visit.visit visit) ccdId = Some sources /\
    In s sources /\
    Fgcm.observation config0 (visitRecord_r 100) 13 source_1000
    = Fgcm.observation config0 visit ccdId s /\
    (Src.flag_pixel_saturated_center s = false /\
     Src.flag_pixel_interpolated_center s = false /\
     Src.flag_pixel_edge s = false /\
     Src.flag_pixel_cr_center s = false /\
     Src.flag_pixel_bad s = false /\
     Src.flag_pixel_interpolated_any s = false /\
     Src.slot_Centroid_flag s = false /\
     Src.slot_ApFlux_flag s = false /\
     Src.deblend_nchild s = 0%Z /\
     Src.parent s = 0%Z /\
     (Src.classification_extendedness s < Finite (1 / 2))%np = true) /\
    Src.apFlux s = Finite f /\ Src.apFluxErr s = Finite fe /\
    Obs.magerr (Fgcm.observation config0 (visitRecord_r 100) 13 source_1000)
    = Finite m /\
    (1 / 1000 < m < 1 / 10)%R /\
    (1085 / 100 < f / fe < 1087)%R.
Proof.
  pose proof (fgcm_makeAllStarObservations_eq config0
                allRaw_butler_two_visits) as E.
  change (anySrc butler_two_visits visitCat_two) with true in E.
  apply (@fgcm_stored_rows_pass_every_cut config0 visitCat_two
           butler_two_visits _ _ _ E eq_refl).
  apply In_allRows.
  exists (visitRecord_r 100), 13%Z, [source_1000; source_1000; source_1000].
  split; [simpl; auto |]; split; [simpl; auto |]; split; [reflexivity |].
  unfold fgcm_tempCat; apply in_map, filter_In; split; [simpl; auto |].
  apply gdFlag_source_1000.
Defined.

(** ** The two variants side by side *)





(** ** Magnitudes *)

(** X18.  The instrumental magnitude depends on the flux and the exposure
    time through the count rate only: scaling both by the same positive
    factor changes nothing, and the magnitude error does not change when
    flux and flux error are scaled together.  A flux a hundred times larger
    lowers the magnitude by exactly 5. *)
Theorem magnitude_depends_on_count_rate zp f t fe k :
  (0 < f)%R -> (0 < t)%R -> (0 < k)%R ->
  instMag (Finite zp) (Finite (k * f)) (Finite (k * t))
  = instMag (Finite zp) (Finite f) (Finite t) /\
  instMagErr (Finite (k * fe)) (Finite (k * f))
  = instMagErr (Finite fe) (Finite f) /\
  exists m,
    instMag (Finite zp) (Finite f) (Finite t) = Finite m /\
    instMag (Finite zp) (Finite (100 * f)) (Finite t) = Finite (m - 5).
Proof.
  intros Hf Ht Hk.
  pose proof ln_10_pos as H10.
  assert (Hkf : (0 < k * f)%R) by (apply Rmult_lt_0_compat; assumption).
  assert (Hkt : (0 < k * t)%R) by (apply Rmult_lt_0_compat; assumption).
  split; [| split].
  - rewrite !instMag_finite by assumption; f_equal.
    rewrite !ln_mult by assumption; field; lra.
  - rewrite !instMagErr_finite by lra; f_equal; field; repeat split; lra.
  - eexists; split; [apply instMag_finite; assumption |].
    rewrite instMag_finite by lra; f_equal.
    rewrite ln_mult by lra.
    replace 100%R with (10 ^ 2)%R by lra.
    rewrite ln_pow by lra; simpl INR; field; lra.
Qed.

Lemma magnitude_depends_on_count_rate_witness :
  instMag (Finite 25) (Finite (2 * 1000)) (Finite (2 * 30))
  = instMag (Finite 25) (Finite 1000) (Finite 30) /\
  instMagErr (Finite (2 * 50)) (Finite (2 * 1000))
  = instMagErr (Finite 50) (Finite 1000) /\
  exists m,
    instMag (Finite 25) (Finite 1000) (Finite 30) = Finite m /\
    instMag (Finite 25) (Finite (100 * 1000)) (Finite 30) = Finite (m - 5).
Proof.
  apply (@magnitude_depends_on_count_rate 25 1000 30 50 2); lra.
Defined.

(** X19.  A detection without flux gets the magnitude plus infinity, and
    one with a negative flux the magnitude NaN, whatever the zero point and
    the (positive) exposure time; nothing is raised. *)
Theorem magnitude_of_nonpositive_flux zp t :
  (0 < t)%R ->
  instMag (Finite zp) (Finite 0) (Finite t) = PosInf /\
  (forall f, (f < 0)%R -> instMag (Finite zp) (Finite f) (Finite t) = NaN).
Proof.
  intros Ht; unfold instMag; rewrite (log10_finite Ht); split.
  - unfold np.log10.
    destruct (Rlt_dec 0 0) as [H | _]; [lra |].
    destruct (Rlt_dec 0 0) as [H | _]; [lra |].
    unfold np.mul at 1; cbn [np.sign_of].
    rewrite Rsign_pos by lra; reflexivity.
  - intros f Hf; unfold np.log10.
    destruct (Rlt_dec 0 f) as [H | _]; [lra |].
    destruct (Rlt_dec f 0) as [_ | H]; [| contradiction].
    reflexivity.
Qed.

Lemma magnitude_of_nonpositive_flux_witness :
  instMag (Finite 25) (Finite 0) (Finite 30) = PosInf /\
  (forall f, (f < 0)%R -> instMag (Finite 25) (Finite f) (Finite 30) = NaN).
Proof.
  apply (@magnitude_of_nonpositive_flux 25 30); lra.
Defined.

(** X20.  Correcting a magnitude for the Jacobian is the same as
    multiplying the flux by the Jacobian before the magnitude is taken; a
    Jacobian of 1 changes nothing. *)
Theorem jacobian_correction_scales_flux zp f t j :
  (0 < f)%R -> (0 < t)%R -> (0 < j)%R ->
  jacobianCorrected (instMag (Finite zp) (Finite f) (Finite t)) (Finite j)
  = instMag (Finite zp) (Finite (j * f)) (Finite t) /\
  jacobianCorrected (instMag (Finite zp) (Finite f) (Finite t)) (Finite 1)
  = instMag (Finite zp) (Finite f) (Finite t).
Proof.
  intros Hf Ht Hj.
  pose proof ln_10_pos as H10.
  assert (Hjf : (0 < j * f)%R) by (apply Rmult_lt_0_compat; assumption).
  rewrite !instMag_finite by assumption.
  rewrite !jacobianCorrected_finite by lra.
  split; f_equal.
  - rewrite ln_mult by assumption; field; lra.
  - rewrite ln_1; field; lra.
Qed.

Lemma jacobian_correction_scales_flux_witness :
  jacobianCorrected (instMag (Finite 25) (Finite 1000) (Finite 30)) (Finite 2)
  = instMag (Finite 25) (Finite (2 * 1000)) (Finite 30) /\
  jacobianCorrected (instMag (Finite 25) (Finite 1000) (Finite 30)) (Finite 1)
  = instMag (Finite 25) (Finite 1000) (Finite 30).
Proof.
  apply (@jacobian_correction_scales_flux 25 1000 30 2); lra.
Defined.

(** ** What the star catalogs hold of the matcher's tables *)

Lemma int32_range z : np.in_int32 (np.int32 z).
Proof.
  unfold np.in_int32, np.int32.
  change (2 ^ 31)%Z with 2147483648%Z; change (2 ^ 32)%Z with 4294967296%Z.
  pose proof (Z.mod_pos_bound (z + 2147483648) 4294967296 ltac:(lia)); lia.
Qed.

Lemma int32_congruent z : exists k, np.int32 z = (z + k * 2 ^ 32)%Z.
Proof.
  unfold np.int32.
  change (2 ^ 31)%Z with 2147483648%Z; change (2 ^ 32)%Z with 4294967296%Z.
  exists (- ((z + 2147483648) / 4294967296))%Z.
  pose proof (Z.div_mod (z + 2147483648) 4294967296 ltac:(lia)); lia.
Qed.

Lemma Forall2_map_r {A B} (f : A -> B) (R : A -> B -> Prop) l :
  (forall x, R x (f x)) -> Forall2 R l (map f l).
Proof. intros H; induction l; simpl; constructor; auto. Qed.

(** X21.  When [_fgcmMatchStars] completes, the two catalogs it has
    persisted hold the matcher's tables row for row and in the matcher's
    order: the coordinates of a star as they are, and every integer
    (identifier, first index, count, observation index) as the 32-bit value
    congruent to the matcher's modulo 2^32, which is the matcher's value
    itself exactly when that fits 32 bits. *)
Theorem star_catalogs_transcribe_the_matcher fgcm visitCat b b' :
  _fgcmMatchStars fgcm visitCat b = (b', Ok tt) ->
  (exists refStars ra dec names out stars idx,
     makeMatchedStars fgcm refStars ra dec names = Ok out /\
     starIds b' = Some stars /\ starIndices b' = Some idx /\
     Forall2 (fun o s =>
                Star.ra s = ObjIndex.RA o /\ Star.dec s = ObjIndex.DEC o /\
                Star.fgcm_id s = np.int32 (ObjIndex.FGCM_ID o) /\
                Star.obsarrindex s = np.int32 (ObjIndex.OBSARRINDEX o) /\
                Star.nobs s = np.int32 (ObjIndex.NOBS o))
             (objIndexCat out) stars /\
     Forall2 (fun z e => e = np.int32 z) (obsIndexCat out) idx) /\
  (forall z,
     np.in_int32 (np.int32 z) /\
     (np.int32 z = z <-> np.in_int32 z) /\
     exists k, np.int32 z = (z + k * 2 ^ 32)%Z).
Proof.
  intros H; split.
  - apply matchStars_cases in H
      as (obsCat & names & refStars & out & _ & _ & _ & Hm & ->).
    exists refStars, (map (fun o => np.rad2deg (Obs.ra o)) obsCat),
           (map (fun o => np.rad2deg (Obs.dec o)) obsCat), names, out,
           (map toStarRecord (objIndexCat out)),
           (map np.int32 (obsIndexCat out)).
    split; [exact Hm |]; split; [reflexivity |]; split; [reflexivity |].
    split; apply Forall2_map_r; intros; simpl; auto.
  - intros z; split; [apply int32_range |]; split; [| apply int32_congruent].
    split; [intros E; rewrite <- E; apply int32_range | apply int32_id].
Qed.

Lemma star_catalogs_transcribe_the_matcher_witness :
  (exists refStars ra dec names out stars idx,
     makeMatchedStars matcher_two_stars refStars ra dec names = Ok out /\
     starIds butler_matched = Some stars /\
     starIndices butler_matched = Some idx /\
     Forall2 (fun o s =>
                Star.ra s = ObjIndex.RA o /\ Star.dec s = ObjIndex.DEC o /\
                Star.fgcm_id s = np.int32 (ObjIndex.FGCM_ID o) /\
                Star.obsarrindex s = np.int32 (ObjIndex.OBSARRINDEX o) /\
                Star.nobs s = np.int32 (ObjIndex.NOBS o))
             (objIndexCat out) stars /\
     Forall2 (fun z e => e = np.int32 z) (obsIndexCat out) idx) /\
  (forall z,
     np.in_int32 (np.int32 z) /\
     (np.int32 z = z <-> np.in_int32 z) /\
     exists k, np.int32 z = (z + k * 2 ^ 32)%Z).
Proof.
  apply (@star_catalogs_transcribe_the_matcher matcher_two_stars visitCat_two
           butler_compiled butler_matched).
  reflexivity.
Defined.
